(** * StoryFlux: the synchronized media composition engine

    A shallow embedding of [scripts/video_generator.py] (class
    [VideoGenerator]) and the properties of its segment allocator, asset
    fallback chains, caption placement and overlay.

    Conventions of the embedding:
    - a Python [str] is a [string]; a character is its code point below 256;
    - a Python [float] is the rational number it stands for, and every
      operation on floats rounds its exact result to binary64 (round to
      nearest, ties to even, subnormals included: [Float64.round64]); a
      result beyond the largest float, an infinity in Python, is a number
      that [Float64.overflows], of which [int] raises OverflowError; the
      caption geometry (whole pixels), the overlay alpha and the gradient
      keep exact rationals;
    - an exception is an explicit [Raise] result; [try/except] is [catch];
    - the network, the environment variables, the pseudo-random generator and
      the external libraries (textwrap, PIL, MoviePy) are inputs of the model. *)

From Stdlib Require Import String Ascii List Bool Arith ZArith QArith Qabs Qround Qpower.
From Stdlib Require Import Lia Lqa.
From Stdlib Require Import DecimalString.
From Stdlib Require DecimalPos DecimalZ.
From stdpp Require Import gmap strings.
Import ListNotations.

Local Open Scope string_scope.
Local Open Scope list_scope.
Local Open Scope nat_scope.

(** ** Python string primitives *)

Module PyStr.

(** [str.isspace] on one character (code points below 256): TAB..CR,
    FS..US, SPACE, NEL and NBSP. *)
Definition isspace (c : ascii) : bool :=
  let n := nat_of_ascii c in
  ((9 <=? n) && (n <=? 13)) || ((28 <=? n) && (n <=? 32))
  || (n =? 133) || (n =? 160).

(** [str.isalnum] on one character (code points below 256). *)
Definition isalnum (c : ascii) : bool :=
  let n := nat_of_ascii c in
  ((48 <=? n) && (n <=? 57)) || ((65 <=? n) && (n <=? 90))
  || ((97 <=? n) && (n <=? 122))
  || (n =? 170) || (n =? 178) || (n =? 179) || (n =? 181) || (n =? 185)
  || (n =? 186) || ((188 <=? n) && (n <=? 190))
  || ((192 <=? n) && (n <=? 214)) || ((216 <=? n) && (n <=? 246))
  || ((248 <=? n) && (n <=? 255)).

(** [str.lower] on one character (code points below 256). *)
Definition lower_char (c : ascii) : ascii :=
  let n := nat_of_ascii c in
  if ((65 <=? n) && (n <=? 90)) || ((192 <=? n) && (n <=? 214))
     || ((216 <=? n) && (n <=? 222))
  then ascii_of_nat (n + 32) else c.

Fixpoint map_chars (f : ascii -> ascii) (s : string) : string :=
  match s with
  | EmptyString => EmptyString
  | String c s' => String (f c) (map_chars f s')
  end.

(** [s.lower()] *)
Definition lower (s : string) : string := map_chars lower_char s.

Definition nonempty (s : string) : bool :=
  match s with EmptyString => false | String _ _ => true end.

Fixpoint rev_onto (s acc : string) : string :=
  match s with
  | EmptyString => acc
  | String c s' => rev_onto s' (String c acc)
  end.

(** The characters of [cur] were pushed in reverse order. *)
Definition flush (cur : string) : string := rev_onto cur EmptyString.

Fixpoint lstrip (s : string) : string :=
  match s with
  | EmptyString => EmptyString
  | String c s' => if isspace c then lstrip s' else s
  end.

Definition rstrip (s : string) : string := flush (lstrip (flush s)).

(** [s.strip()] *)
Definition strip (s : string) : string := rstrip (lstrip s).

(** [s.split()]: the maximal runs of non-whitespace characters. *)
Fixpoint split_ws_aux (cur s : string) : list string :=
  match s with
  | EmptyString => if nonempty cur then [flush cur] else []
  | String c s' =>
      if isspace c
      then (if nonempty cur then flush cur :: split_ws_aux EmptyString s'
            else split_ws_aux EmptyString s')
      else split_ws_aux (String c cur) s'
  end.

Definition split_ws (s : string) : list string := split_ws_aux EmptyString s.

Fixpoint starts_with (p s : string) : bool :=
  match p, s with
  | EmptyString, _ => true
  | String a p', String b s' => Ascii.eqb a b && starts_with p' s'
  | String _ _, EmptyString => false
  end.

(** [s.split(sep)] for a non-empty [sep]: cut at each leftmost
    non-overlapping occurrence; [skip] counts the characters of the
    occurrence being consumed. *)
Fixpoint split_aux (sep : string) (skip : nat) (cur s : string) : list string :=
  match s with
  | EmptyString => [flush cur]
  | String c s' =>
      match skip with
      | S k => split_aux sep k cur s'
      | O =>
          if starts_with sep s
          then flush cur :: split_aux sep (String.length sep - 1) EmptyString s'
          else split_aux sep 0 (String c cur) s'
      end
  end.

Definition split (sep s : string) : list string := split_aux sep 0 EmptyString s.

(** [sep.join(l)] *)
Fixpoint join (sep : string) (l : list string) : string :=
  match l with
  | [] => EmptyString
  | [x] => x
  | x :: rest => x +:+ sep +:+ join sep rest
  end.

Definition is_sentence_end (c : ascii) : bool :=
  Ascii.eqb c "." || Ascii.eqb c "!" || Ascii.eqb c "?".

(** [re.split(r'(?<=[.!?])\s+', s)]: cut at every maximal run of
    whitespace that directly follows one of [. ! ?].  [after_end] says the
    previous character is such a mark, [in_sep] that a separator is being
    consumed. *)
Fixpoint re_split_aux (after_end in_sep : bool) (cur s : string) : list string :=
  match s with
  | EmptyString => [flush cur]
  | String c s' =>
      if isspace c then
        if in_sep then re_split_aux false true cur s'
        else if after_end then flush cur :: re_split_aux false true EmptyString s'
        else re_split_aux false false (String c cur) s'
      else re_split_aux (is_sentence_end c) false (String c cur) s'
  end.

Definition re_split_sentences (s : string) : list string :=
  re_split_aux false false EmptyString s.

Definition LF : string := String (ascii_of_nat 10) EmptyString.

(** [str(n)] of a non-negative and of a signed integer. *)
Definition str_of_nat (n : nat) : string := NilZero.string_of_uint (Nat.to_uint n).
Definition str_of_Z (z : Z) : string := NilZero.string_of_int (Z.to_int z).

Fixpoint ends_with_any (suffixes : list string) (s : string) : bool :=
  match suffixes with
  | [] => false
  | p :: rest => starts_with (flush p) (flush s) || ends_with_any rest s
  end.

End PyStr.

Import PyStr.

(** ** SegmentAllocator: [_parse_script_segments] *)

Definition word_count (s : string) : nat := List.length (split_ws s).

(** Strategy 1: paragraphs. *)
Definition paragraph_segments (script : string) : list string :=
  map strip (List.filter (fun s => nonempty (strip s)) (split (LF +:+ LF) script)).

(** Strategy 2: lines longer than 20 characters. *)
Definition line_segments (script : string) : list string :=
  map strip
    (List.filter (fun s => nonempty (strip s) && (20 <? String.length (strip s)))
       (split LF script)).

Definition sentences_of (script : string) : list string :=
  map strip (List.filter (fun s => nonempty (strip s)) (re_split_sentences script)).

(** The grouping loop of strategy 3, with its three loop variables. *)
Fixpoint group_sentences (sentences segments current_segment : list string)
    (current_words : nat) : list string :=
  match sentences with
  | [] =>
      match current_segment with
      | [] => segments
      | _ :: _ => segments ++ [join " " current_segment]
      end
  | sentence :: rest =>
      let words_in_sentence := word_count sentence in
      let current_segment := current_segment ++ [sentence] in
      let current_words := current_words + words_in_sentence in
      if (30 <=? current_words) || (3 <=? List.length current_segment)
      then group_sentences rest (segments ++ [join " " current_segment]) [] 0
      else group_sentences rest segments current_segment current_words
  end.

(** Strategy 3: groups of sentences. *)
Definition sentence_segments (script : string) : list string :=
  group_sentences (sentences_of script) [] [] 0.

Definition _parse_script_segments (script : string) : list string :=
  let segments := paragraph_segments script in
  let segments :=
    if List.length segments <? 3 then line_segments script else segments in
  let segments :=
    if List.length segments <? 3 then sentence_segments script else segments in
  match segments with
  | [] => [script]
  | _ :: _ => segments
  end.


(** ** Exceptions, state and the outside world *)

Inductive exn : Set :=
  | IndexError | KeyError | ZeroDivisionError | AttributeError | ImportError
  | ValueError | TypeError | OSError | RequestException | JSONDecodeError
  | OverflowError.

Inductive result (A : Type) : Type :=
  | Ok (a : A)
  | Raise (e : exn).
Arguments Ok {A} a.
Arguments Raise {A} e.

(** An HTTP exchange: the request itself may fail (timeout, refused
    connection); an answer carries a status code and a body, [None] when
    the body cannot be read (invalid JSON, or a stream that breaks). *)
Inductive http (A : Type) : Type :=
  | ConnectionFailed
  | Response (status : Z) (body : option A).
Arguments ConnectionFailed {A}.
Arguments Response {A} status body.

(** [response.raise_for_status()] raises on a 4xx or 5xx status. *)
Definition is_error_status (status : Z) : bool :=
  ((400 <=? status) && (status <? 600))%Z.

(** One hit of the primary (Pixabay) search: [track.get('audio')],
    [track.get('music')], [track.get('id')]. The id is an integer, as in the
    answers of the provider; the source formats whatever value it finds into
    the file name, and a hit whose id is of another JSON type is not
    covered. *)
Record pixabay_track : Type := {
  pt_audio : option string;
  pt_music : option string;
  pt_id : option Z
}.

(** One result of the secondary (Freesound) search: [selected['id']]
    (an integer, as for the primary search), [selected['name']],
    [previews['preview-hq-mp3']]. *)
Record freesound_result : Type := {
  fr_id : option Z;
  fr_name : option string;
  fr_preview_hq_mp3 : option string
}.

(** One photo of the image search: [photo['src']['large2x']]. *)
Record pexels_photo : Type := { ph_large2x : option string }.

(** Which spellings of the MoviePy audio API the installed version has. *)
Record moviepy_api : Type := {
  has_concatenate_audioclips : bool;
  has_subclipped : bool;
  has_subclip : bool;
  has_with_volume_scaled : bool;
  has_volumex : bool;
  has_with_effects : bool;
  has_audio_fadein : bool;
  has_audio_fadeout : bool
}.

Inductive font : Type :=
  | TrueType (font_path : string) (size : Z)
  | DefaultFont.

(** Everything the generator reads and does not own. *)
Record env : Type := {
  getenv_PEXELS_API_KEY : option string;
  getenv_PIXABAY_API_KEY : option string;
  getenv_FREESOUND_API_KEY : option string;
  (** the draws of the pseudo-random generator, in order *)
  random_draw : nat -> nat;
  (** GET pixabay.com/api/ with [q] *)
  pixabay_get : string -> http (list pixabay_track);
  (** GET freesound.org/apiv2/search/text/ with [query] and the lower
      bound of the duration filter *)
  freesound_get : string -> Q -> http (list freesound_result);
  (** GET api.pexels.com/v1/search with [query] and [per_page] *)
  pexels_get : string -> nat -> http (list pexels_photo);
  (** streamed GET of a media URL; body [None]: the stream breaks *)
  media_get : string -> http unit;
  (** [AudioFileClip(path).duration], [None] when the file does not load *)
  audio_file_duration : string -> option Q;
  moviepy : moviepy_api;
  (** [ImageFont.truetype(path, size)] succeeds *)
  font_loads : string -> bool;
  (** [draw.textbbox((0, 0), line, font)], [None] when it raises *)
  textbbox : font -> string -> option (Q * Q * Q * Q);
  (** [textwrap.wrap(paragraph, width=30, break_long_words=True)] *)
  textwrap_wrap : string -> list string;
  (** [Image.open(path)] succeeds *)
  image_opens : string -> bool
}.

Inductive event : Type :=
  | EvPixabaySearch (query : string)
  | EvFreesoundSearch (query : string)
  | EvPexelsSearch (query : string)
  | EvDownload (url path : string)
  | EvUseCached (path : string).

(** The mutable part: the two asset directories (file names), the requests
    sent so far, and how many random draws were consumed. *)
Record world : Type := {
  music_dir_files : gset string;
  image_dir_files : gset string;
  trace : list event;
  draws_used : nat
}.

Definition M (A : Type) : Type := world -> result A * world.

Definition ret {A} (a : A) : M A := fun w => (Ok a, w).
Definition raise {A} (e : exn) : M A := fun w => (Raise e, w).
Definition bind {A B} (c : M A) (k : A -> M B) : M B :=
  fun w => match c w with
           | (Ok a, w') => k a w'
           | (Raise e, w') => (Raise e, w')
           end.
(** [try: c  except Exception: h] *)
Definition catch {A} (c : M A) (h : exn -> M A) : M A :=
  fun w => match c w with
           | (Ok a, w') => (Ok a, w')
           | (Raise e, w') => h e w'
           end.

Declare Scope py_scope.
Delimit Scope py_scope with py.
Notation "x <- c ;; k" := (bind c (fun x => k))
  (at level 100, c at next level, right associativity) : py_scope.
Notation "c ;;; k" := (bind c (fun _ => k))
  (at level 100, right associativity) : py_scope.

Definition get_world : M world := fun w => (Ok w, w).
Definition log (e : event) : M unit :=
  fun w => (Ok tt, {| music_dir_files := music_dir_files w;
                      image_dir_files := image_dir_files w;
                      trace := trace w ++ [e];
                      draws_used := draws_used w |}).
Definition add_music_file (name : string) : M unit :=
  fun w => (Ok tt, {| music_dir_files := {[ name ]} ∪ music_dir_files w;
                      image_dir_files := image_dir_files w;
                      trace := trace w;
                      draws_used := draws_used w |}).
Definition add_image_file (name : string) : M unit :=
  fun w => (Ok tt, {| music_dir_files := music_dir_files w;
                      image_dir_files := {[ name ]} ∪ image_dir_files w;
                      trace := trace w;
                      draws_used := draws_used w |}).
(** The next draw of the generator. *)
Definition draw (E : env) : M nat :=
  fun w => (Ok (random_draw E (draws_used w)),
            {| music_dir_files := music_dir_files w;
               image_dir_files := image_dir_files w;
               trace := trace w;
               draws_used := S (draws_used w) |}).

(** [random.choice(l)] *)
Definition random_choice {A} (E : env) (l : list A) : M A :=
  match l with
  | [] => raise IndexError
  | x :: _ => bind (draw E) (fun r => ret (nth (r mod List.length l) l x))
  end.

(** [random.randint(a, b)] for [a <= b] *)
Definition random_randint (E : env) (a b : Z) : M Z :=
  bind (draw E) (fun r => ret (a + Z.of_nat r mod (b - a + 1))%Z).

(** A credential is configured when the variable is set and not empty. *)
Definition configured (key : option string) : bool :=
  match key with
  | Some k => nonempty k
  | None => false
  end.

Definition downloads (t : list event) : nat :=
  List.length (List.filter (fun e => match e with EvDownload _ _ => true | _ => false end) t).

(** ** The configuration dictionary and [VideoGenerator.__init__] *)

#[local] Set Warnings "-register-all".
Inductive pyvalue : Type :=
  | PyNone
  | PyBool (b : bool)
  | PyInt (z : Z)
  | PyFloat (q : Q)
  | PyStr (s : string)
  | PyList (l : list pyvalue)
  | PyDict (items : list (string * pyvalue)).

#[local] Set Warnings "+register-all".

Fixpoint dict_lookup (key : string) (items : list (string * pyvalue)) : option pyvalue :=
  match items with
  | [] => None
  | (k, v) :: rest => if String.eqb k key then Some v else dict_lookup key rest
  end.

(** [d[key]] *)
Definition getitem (d : pyvalue) (key : string) : result pyvalue :=
  match d with
  | PyDict items =>
      match dict_lookup key items with
      | Some v => Ok v
      | None => Raise KeyError
      end
  | _ => Raise TypeError
  end.

(** [d.get(key, default)] *)
Definition dict_get (d : pyvalue) (key : string) (default : pyvalue) : result pyvalue :=
  match d with
  | PyDict items =>
      match dict_lookup key items with
      | Some v => Ok v
      | None => Ok default
      end
  | _ => Raise AttributeError
  end.

Definition truthy (v : pyvalue) : bool :=
  match v with
  | PyNone => false
  | PyBool b => b
  | PyInt z => negb (z =? 0)%Z
  | PyFloat q => negb (Qeq_bool q 0)
  | PyStr s => nonempty s
  | PyList l => match l with [] => false | _ :: _ => true end
  | PyDict items => match items with [] => false | _ :: _ => true end
  end.

Record VideoGenerator : Type := {
  config : pyvalue;
  resolution : Z * Z;
  fps : pyvalue;
  pexels_api_key : option string;
  pixabay_api_key : option string;
  text_overlay_opacity : Q;
  use_background_music : pyvalue;
  music_volume : pyvalue;
  music_dir : string;
  music_search_queries : list string
}.

Definition result_bind {A B} (r : result A) (k : A -> result B) : result B :=
  match r with
  | Ok a => k a
  | Raise e => Raise e
  end.

(** [VideoGenerator(config)].  The resolution is kept as a pair of
    integers; a value of another shape, which Python would only reject when
    PIL first uses it, is rejected here. *)
Definition __init__ (E : env) (config : pyvalue) : result VideoGenerator :=
  result_bind (getitem config "video") (fun video =>
  result_bind (getitem video "resolution") (fun res =>
  result_bind (getitem video "fps") (fun fps =>
  result_bind (dict_get config "assets" (PyDict [])) (fun assets =>
  result_bind (dict_get assets "background_music" (PyBool true)) (fun use_music =>
  result_bind (dict_get config "assets" (PyDict [])) (fun assets' =>
  result_bind (dict_get assets' "music_volume" (PyFloat (15 # 100))) (fun volume =>
  match res with
  | PyList [PyInt width; PyInt height] =>
      Ok {| config := config;
            resolution := (width, height);
            fps := fps;
            pexels_api_key := getenv_PEXELS_API_KEY E;
            pixabay_api_key := getenv_PIXABAY_API_KEY E;
            text_overlay_opacity := 7 # 10;
            use_background_music := use_music;
            music_volume := volume;
            music_dir := "assets/music";
            music_search_queries :=
              ["dark ambient"; "horror cinematic"; "suspense thriller";
               "creepy atmosphere"; "scary background"; "dark cinematic";
               "tension horror"; "eerie ambient"; "mysterious dark";
               "haunting melody"] |}
  | _ => Raise TypeError
  end))))))).

(** [os.path.join(dir, name)] for a relative [name]. *)
Definition path_join (dir name : string) : string := dir +:+ "/" +:+ name.

(** ** Binary64 arithmetic *)

Module Float64.

Definition pow2 (e : Z) : Q := (2 ^ e)%Q.

(** The integer part of the binary logarithm of a positive rational. *)
Definition ilog2 (q : Q) : Z :=
  let k := (Z.log2 (Qnum q) - Z.log2 (Z.pos (Qden q)))%Z in
  if Qle_bool (pow2 k) q then k else (k - 1)%Z.

(** The nearest integer, the even one of the two at a tie. *)
Definition rne (x : Q) : Z :=
  let f := Qfloor x in
  match Qcompare (x - inject_Z f) (1 # 2) with
  | Lt => f
  | Gt => (f + 1)%Z
  | Eq => if Z.even f then f else (f + 1)%Z
  end.

(** The exponent of the last bit of the 53-bit significand; -1074 for
    subnormal numbers. *)
Definition exponent (q : Q) : Z := Z.max (ilog2 q - 52) (-1074).

Definition round_pos (q : Q) : Q :=
  Qred (inject_Z (rne (q / pow2 (exponent q))) * pow2 (exponent q)).

(** The binary64 number nearest to [q], ties to even. *)
Definition round64 (q : Q) : Q :=
  match Qcompare q 0 with
  | Eq => 0%Q
  | Gt => round_pos q
  | Lt => (- round_pos (- q))%Q
  end.

(** The largest float, [(2^53 - 1) * 2^971]. *)
Definition max_float : Q := inject_Z ((2 ^ 53 - 1) * 2 ^ 971).

(** The rounded result is beyond the range: [inf] or [-inf] in Python. *)
Definition overflows (q : Q) : bool := negb (Qle_bool (Qabs q) max_float).

(** [q] is a float. *)
Definition binary64 (q : Q) : Prop := (round64 q == q)%Q /\ overflows q = false.

Definition fadd (a b : Q) : Q := round64 (a + b).
Definition fsub (a b : Q) : Q := round64 (a - b).
Definition fmul (a b : Q) : Q := round64 (a * b).
Definition fdiv (a b : Q) : Q := round64 (a / b).

(** [float(n)] for an integer, as in [n * x] or [n / x] with a float [x]. *)
Definition of_Z (n : Z) : Q := round64 (inject_Z n).

(** [a / b] on two integers: the quotient, rounded once. *)
Definition true_div (a b : Z) : Q := round64 (inject_Z a / inject_Z b).

(** The literals [0.1] and [1.0]. *)
Definition lit_0_1 : Q := round64 (1 # 10).

(** [sum(l)] on floats: from 0, left to right, every partial sum rounded
    (CPython up to 3.11; later versions carry the rounding errors of the
    partial sums along, which brings the result nearer to the exact sum). The
    exact sum is [sum_Q]; the statements bound both. *)
Definition float_sum (l : list Q) : Q := fold_left fadd l 0%Q.

(** The unit roundoff and half the smallest subnormal. *)
Definition u : Q := pow2 (-53).
Definition eta : Q := pow2 (-1075).

End Float64.
Import Float64.

(** ** SegmentAllocator: durations *)

(** The exact sum: the total time a list of durations plays. *)
Definition sum_Q (l : list Q) : Q := fold_left Qplus l 0%Q.

Definition Q_of_nat (n : nat) : Q := inject_Z (Z.of_nat n).

(** [a > b] on numbers *)
Definition Qgtb (a b : Q) : bool := negb (Qle_bool a b).

(** [int(q)]: truncation toward zero. *)
Definition int_of_Q (q : Q) : Z := Z.quot (Qnum q) (Z.pos (Qden q)).

(** [int(x)] on a float that may be an infinity. *)
Definition int_of_float (x : Q) : result Z :=
  if overflows x then Raise OverflowError else Ok (int_of_Q x).

(** [float(n)]: an integer beyond the range is refused. *)
Definition float_of_int (n : Z) : result Q :=
  if overflows (of_Z n) then Raise OverflowError else Ok (of_Z n).

(** [a / b] on two integers. *)
Definition int_true_div (a b : Z) : result Q :=
  if (b =? 0)%Z then Raise ZeroDivisionError
  else if overflows (true_div a b) then Raise OverflowError
  else Ok (true_div a b).

(** [len(segment.split()) / total_words if total_words > 0 else
    1.0 / len(segments)] *)
Definition word_ratio (word_count total_words n_segments : nat) : Q :=
  if 0 <? total_words
  then true_div (Z.of_nat word_count) (Z.of_nat total_words)
  else fdiv 1 (of_Z (Z.of_nat n_segments)).

(** The first loop of [_create_clips_with_typewriter]. *)
Definition proportional_durations (segments : list string) (duration : Q) : list Q :=
  let total_words := list_sum (map word_count segments) in
  map (fun segment =>
         fmul duration (word_ratio (word_count segment) total_words (List.length segments)))
      segments.

(** [l[-1] += d] *)
Definition add_to_last (l : list Q) (d : Q) : result (list Q) :=
  match rev l with
  | [] => Raise IndexError
  | x :: before => Ok (rev before ++ [fadd x d])
  end.

(** "Ensure total duration matches exactly": the whole difference goes to
    the last duration when it is larger than 0.1 s. *)
Definition correct_drift (segment_durations : list Q) (duration : Q) : result (list Q) :=
  let duration_diff := fsub duration (float_sum segment_durations) in
  if Qgtb (Qabs duration_diff) lit_0_1
  then add_to_last segment_durations duration_diff
  else Ok segment_durations.

(** Proportional allocation, then the correction of the last duration. *)
Definition segment_durations (segments : list string) (duration : Q) : result (list Q) :=
  correct_drift (proportional_durations segments duration) duration.

(** ** EffectPipeline *)

Definition rgb : Type := (Z * Z * Z)%type.
Definition rgba : Type := (Z * Z * Z * Z)%type.

(** One [draw.text((x, y), line, font=..., fill=...)]. *)
Record draw_text : Type := {
  dt_x : Q;
  dt_y : Q;
  dt_line : string;
  dt_font : font;
  dt_fill : rgba
}.

(** [Image.new('RGBA', size, fill)] and the text drawn on it, in order. *)
Record canvas : Type := {
  cv_size : Z * Z;
  cv_fill : rgba;
  cv_draws : list draw_text
}.

Record image_clip : Type := {
  ic_image : canvas;
  ic_duration : Q
}.

Inductive background_clip : Type :=
  (** a downloaded image, enhanced, resized to cover and zoomed from 1.0 to 1.1 *)
  | ImageBackground (image_path : string) (size : Z * Z) (duration : Q)
  (** a dark tone with its gradient and vignette *)
  | FallbackBackground (color : rgb) (size : Z * Z) (duration : Q).

(** [CompositeVideoClip([bg_clip, overlay, text_clip])] *)
Record composite_clip : Type := {
  cc_background : background_clip;
  cc_overlay : image_clip;
  cc_text : image_clip
}.

Definition fallback_colors : list rgb :=
  [(10, 10, 15); (15, 5, 5); (5, 0, 15); (0, 10, 0); (20, 0, 0); (0, 0, 0)]%Z.

Definition _create_fallback_background (self : VideoGenerator) (E : env)
    (duration : Q) : M background_clip :=
  (color <- random_choice E fallback_colors ;;
   ret (FallbackBackground color (resolution self) duration))%py.

Definition _create_image_clip_with_effects (self : VideoGenerator) (E : env)
    (image_path : string) (duration : Q) : M background_clip :=
  if image_opens E image_path
  then ret (ImageBackground image_path (resolution self) duration)
  else raise OSError.

Definition _create_dark_overlay (self : VideoGenerator) (duration : Q) : image_clip :=
  {| ic_image :=
       {| cv_size := resolution self;
          cv_fill := (0, 0, 0, int_of_Q (255 * text_overlay_opacity self))%Z;
          cv_draws := [] |};
     ic_duration := duration |}.

Definition fonts_to_try : list (string * Z) :=
  [("/System/Library/Fonts/Supplemental/Impact.ttf", 65);
   ("/System/Library/Fonts/Supplemental/Futura.ttc", 65);
   ("/System/Library/Fonts/Helvetica.ttc", 65);
   ("/Library/Fonts/Arial.ttf", 65)]%Z.

Fixpoint load_font (E : env) (candidates : list (string * Z)) : font :=
  match candidates with
  | [] => DefaultFont
  | (font_path, size) :: rest =>
      if font_loads E font_path then TrueType font_path size else load_font E rest
  end.

(** The pixel width of a line: the bounding box, or 35 px per character
    when the measurement raises. *)
Definition text_width_of (E : env) (text_font : font) (line : string) : Q :=
  match textbbox E text_font line with
  | Some (x0, _, x1, _) => (x1 - x0)%Q
  | None => (Q_of_nat (String.length line) * 35)%Q
  end.

Definition Qmax (a b : Q) : Q := if Qle_bool a b then b else a.

(** The left x-position of a line of width [text_width] in a frame of
    width [width]. *)
Definition caption_x (width : Z) (text_width : Q) : Q :=
  let x_text := Qmax 150 ((inject_Z width - text_width) / 2) in
  if Qgtb (x_text + text_width) (inject_Z width - 150) then 150%Q else x_text.

(** [range(-5, 6)] *)
Definition outline_range : list Z := [-5; -4; -3; -2; -1; 0; 1; 2; 3; 4; 5]%Z.

(** The black outline passes of one line, then its final pass. *)
Definition draw_line (text_font : font) (x_text y_text : Q) (line : string) : list draw_text :=
  flat_map (fun adj_x =>
    flat_map (fun adj_y =>
      if negb (adj_x =? 0)%Z || negb (adj_y =? 0)%Z
      then [{| dt_x := x_text + inject_Z adj_x; dt_y := y_text + inject_Z adj_y;
               dt_line := line; dt_font := text_font;
               dt_fill := (0, 0, 0, 255)%Z |}]
      else []) outline_range) outline_range
  ++ [{| dt_x := x_text; dt_y := y_text; dt_line := line; dt_font := text_font;
         dt_fill := (255, 245, 245, 255)%Z |}].

Fixpoint draw_lines (E : env) (width : Z) (text_font : font) (y_text : Q)
    (lines : list string) : list draw_text :=
  match lines with
  | [] => []
  | line :: rest =>
      let text_width := text_width_of E text_font line in
      let x_text := caption_x width text_width in
      draw_line text_font x_text y_text line
      ++ draw_lines E width text_font (y_text + 80) rest
  end.

Definition _create_text_image_clip (self : VideoGenerator) (E : env) (text : string)
    (duration : Q) (is_title : bool) (title : option string) : image_clip :=
  let text_font := load_font E fonts_to_try in
  let wrapped_lines := flat_map (textwrap_wrap E) (split LF text) in
  let y_text :=
    ((inject_Z (snd (resolution self)) - Q_of_nat (List.length wrapped_lines) * 80) / 2)%Q in
  {| ic_image :=
       {| cv_size := resolution self;
          cv_fill := (0, 0, 0, 0)%Z;
          cv_draws := draw_lines E (fst (resolution self)) text_font y_text wrapped_lines |};
     ic_duration := duration |}.

Definition _create_typewriter_text (self : VideoGenerator) (E : env) (text : string)
    (duration : Q) (is_title : bool) (title : option string) : image_clip :=
  _create_text_image_clip self E text duration is_title title.

(** The second loop of [_create_clips_with_typewriter], at index [i]. *)
Fixpoint clip_loop (self : VideoGenerator) (E : env) (segment_durations : list Q)
    (image_paths : list string) (title : string) (i : nat) (segments : list string)
    : M (list composite_clip) :=
  match segments with
  | [] => ret []
  | text :: rest =>
      match nth_error segment_durations i with
      | None => raise IndexError
      | Some seg_duration =>
          (bg_clip <-
             (match nth_error image_paths i with
              | Some image_path =>
                  _create_image_clip_with_effects self E image_path seg_duration
              | None => _create_fallback_background self E seg_duration
              end) ;;
           let overlay := _create_dark_overlay self seg_duration in
           let text_clip :=
             _create_typewriter_text self E text seg_duration (i =? 0)
               (if i =? 0 then Some title else None) in
           let final_clip :=
             {| cc_background := bg_clip; cc_overlay := overlay; cc_text := text_clip |} in
           clips <- clip_loop self E segment_durations image_paths title (S i) rest ;;
           ret (final_clip :: clips))%py
      end
  end.

Definition _create_clips_with_typewriter (self : VideoGenerator) (E : env)
    (segments image_paths : list string) (duration : Q) (title : string)
    : M (list composite_clip) :=
  match segment_durations segments duration with
  | Raise e => raise e
  | Ok durations => clip_loop self E durations image_paths title 0 segments
  end.

(** ** AssetResolver: images *)

(** A streamed download of [url] into a file that [create] creates: the
    request, [raise_for_status], [open(path, 'wb')], then the chunks. *)
Definition fetch (E : env) (url path : string) (create : M unit) : M unit :=
  (log (EvDownload url path) ;;;
   match media_get E url with
   | ConnectionFailed => raise RequestException
   | Response status body =>
       if is_error_status status then raise RequestException
       else (create ;;;
             match body with
             | Some _ => ret tt
             | None => raise RequestException
             end)
   end)%py.

(** The download loop over [enumerate(photos[:count])], at index [i]. *)
Fixpoint download_photos (E : env) (i : nat) (photos : list pexels_photo)
    (image_paths : list string) : M (list string) :=
  match photos with
  | [] => ret image_paths
  | photo :: rest =>
      match ph_large2x photo with
      | None => raise KeyError
      | Some img_url =>
          let name := "pexels_" +:+ str_of_nat i +:+ ".jpg" in
          let img_path := path_join "assets/images" name in
          (fetch E img_url img_path (add_image_file name) ;;;
           download_photos E (S i) rest (image_paths ++ [img_path]))%py
      end
  end.

Definition pexels_query (topic : string) : string :=
  "dark horror creepy scary abandoned " +:+ topic.

(** The body of the [try] of [_download_pexels_images]. *)
Definition pexels_try (E : env) (topic : string) (count : nat) : M (list string) :=
  (log (EvPexelsSearch (pexels_query topic)) ;;;
   match pexels_get E (pexels_query topic) count with
   | ConnectionFailed => raise RequestException
   | Response status body =>
       if is_error_status status then raise RequestException
       else match body with
            | None => raise JSONDecodeError
            | Some [] => ret []
            | Some photos => download_photos E 0 (firstn count photos) []
            end
   end)%py.

Definition _download_pexels_images (self : VideoGenerator) (E : env)
    (topic : string) (count : nat) : M (list string) :=
  if negb (configured (pexels_api_key self)) then ret []
  else catch (pexels_try E topic count) (fun _ => ret []).

(** ** AssetResolver: music *)

Definition has_suffix (suffixes : list string) (name : string) : bool :=
  ends_with_any suffixes name.

(** [os.listdir(self.music_dir)] filtered by extension. *)
Definition list_music (suffixes : list string) (w : world) : list string :=
  List.filter (has_suffix suffixes) (elements (music_dir_files w)).

Definition music_file_exists (name : string) (w : world) : bool :=
  bool_decide (name ∈ music_dir_files w).

(** The cache file names: from the query and the track id (primary), from
    the track id (secondary). *)
Definition safe_query (query : string) : string :=
  map_chars (fun c => if isalnum c then c else "_"%char) query.

Definition pixabay_filename (query : string) (id : Z) : string :=
  "pixabay_" +:+ safe_query query +:+ "_" +:+ str_of_Z id +:+ ".mp3".

Definition freesound_filename (id : Z) : string :=
  "freesound_" +:+ str_of_Z id +:+ ".mp3".

(** "Download if not exists" for the selected secondary result. *)
Definition freesound_download (self : VideoGenerator) (E : env)
    (selected : freesound_result) (preview_url : string) (id : Z) : M (option string) :=
  let filename := freesound_filename id in
  let music_path := path_join (music_dir self) filename in
  (w <- get_world ;;
   (if music_file_exists filename w then ret tt
    else match fr_name selected with
         | None => raise KeyError
         | Some _ => fetch E preview_url music_path (add_music_file filename)
         end) ;;;
   ret (Some music_path))%py.

(** The tail of [_download_from_freesound]: any cached track. *)
Definition freesound_cache_fallback (self : VideoGenerator) (E : env) : M (option string) :=
  (w <- get_world ;;
   match list_music [".mp3"; ".wav"; ".ogg"] w with
   | [] => ret None
   | existing =>
       name <- random_choice E existing ;;
       let music_path := path_join (music_dir self) name in
       log (EvUseCached music_path) ;;;
       ret (Some music_path)
   end)%py.

(** The body of the [try] of [_download_from_freesound]; [None] when it
    falls through to the cache. *)
Definition freesound_try (self : VideoGenerator) (E : env) (query : string)
    (min_duration : Q) : M (option string) :=
  (log (EvFreesoundSearch (query +:+ " ambient loop")) ;;;
   match freesound_get E (query +:+ " ambient loop") min_duration with
   | ConnectionFailed => raise RequestException
   | Response status body =>
       if is_error_status status then raise RequestException
       else match body with
            | None => raise JSONDecodeError
            | Some [] => ret None
            | Some results =>
                selected <- random_choice E results ;;
                match fr_preview_hq_mp3 selected with
                | None => ret None
                | Some preview_url =>
                    if negb (nonempty preview_url) then ret None
                    else match fr_id selected with
                         | None => raise KeyError
                         | Some id => freesound_download self E selected preview_url id
                         end
                end
            end
   end)%py.

Definition _download_from_freesound (self : VideoGenerator) (E : env) (query : string)
    (min_duration : Q) : M (option string) :=
  (found <-
     (if configured (getenv_FREESOUND_API_KEY E)
      then catch (freesound_try self E query min_duration) (fun _ => ret None)
      else ret None) ;;
   match found with
   | Some music_path => ret (Some music_path)
   | None => freesound_cache_fallback self E
   end)%py.

(** [track.get('audio', '') or track.get('music', '')] *)
Definition audio_url_of (track : pixabay_track) : string :=
  let audio := match pt_audio track with Some u => u | None => "" end in
  if nonempty audio then audio
  else match pt_music track with Some u => u | None => "" end.

(** The tracks that expose a URL, each with its id; the default of
    [track.get('id', random.randint(1000, 9999))] is drawn at every call. *)
Fixpoint suitable_tracks (E : env) (hits : list pixabay_track) : M (list (string * Z)) :=
  match hits with
  | [] => ret []
  | track :: rest =>
      let audio_url := audio_url_of track in
      if nonempty audio_url
      then (fallback_id <- random_randint E 1000 9999 ;;
            let id := match pt_id track with Some id => id | None => fallback_id end in
            others <- suitable_tracks E rest ;;
            ret ((audio_url, id) :: others))%py
      else suitable_tracks E rest
  end.

(** "Download if not exists" for the selected track. *)
Definition pixabay_download (self : VideoGenerator) (E : env) (query : string)
    (selected : string * Z) : M (option string) :=
  let filename := pixabay_filename query (snd selected) in
  let music_path := path_join (music_dir self) filename in
  (w <- get_world ;;
   (if music_file_exists filename w then ret tt
    else fetch E (fst selected) music_path (add_music_file filename)) ;;;
   ret (Some music_path))%py.

(** The body of the [try] of [_search_pixabay_music]. *)
Definition pixabay_try (self : VideoGenerator) (E : env) (query : string)
    (min_duration : Q) : M (option string) :=
  (log (EvPixabaySearch query) ;;;
   match pixabay_get E query with
   | ConnectionFailed => raise RequestException
   | Response status body =>
       if negb (status =? 200)%Z
       then _download_from_freesound self E query min_duration
       else match body with
            | None => raise JSONDecodeError
            | Some [] => _download_from_freesound self E query min_duration
            | Some hits =>
                tracks <- suitable_tracks E hits ;;
                match tracks with
                | [] => _download_from_freesound self E query min_duration
                | _ :: _ =>
                    selected <- random_choice E tracks ;;
                    pixabay_download self E query selected
                end
            end
   end)%py.

Definition horror_moods : list string := ["horror"; "scary"; "dark"; "creepy"].

Definition _search_pixabay_music (self : VideoGenerator) (E : env) (mood : string)
    (min_duration : Q) : M (option string) :=
  if negb (configured (pixabay_api_key self)) then ret None
  else
    (query <-
       (if existsb (String.eqb (lower mood)) horror_moods
        then random_choice E (music_search_queries self)
        else ret mood) ;;
     catch (pixabay_try self E query min_duration)
           (fun _ => _download_from_freesound self E query min_duration))%py.

(** ** AudioMixer: the music track *)

Inductive fade : Type :=
  | AudioFadeIn (seconds : Q)
  | AudioFadeOut (seconds : Q).

(** An audio clip: the file it plays, how many copies of it are
    concatenated, its duration, the volume factors and the fades applied. *)
Record audio_clip : Type := {
  ac_path : string;
  ac_copies : Z;
  ac_duration : Q;
  ac_volume_scales : list pyvalue;
  ac_fades : list fade
}.

(** [AudioFileClip(music_path)] *)
Definition load_audio (E : env) (music_path : string) : result audio_clip :=
  match audio_file_duration E music_path with
  | None => Raise OSError
  | Some d =>
      Ok {| ac_path := music_path; ac_copies := 1; ac_duration := d;
            ac_volume_scales := []; ac_fades := [] |}
  end.

(** "Loop the music to cover the full duration". *)
Definition loop_music (api : moviepy_api) (music : audio_clip) (duration : Q)
    : result audio_clip :=
  if Qgtb duration (ac_duration music) then
    if Qeq_bool (ac_duration music) 0 then Raise ZeroDivisionError
    else
      result_bind (int_of_float (fdiv duration (ac_duration music))) (fun quotient =>
      let loops_needed := (quotient + 1)%Z in
      if negb (has_concatenate_audioclips api) then Raise ImportError
      else if (loops_needed <=? 0)%Z then Raise ValueError
      else Ok {| ac_path := ac_path music;
                 ac_copies := loops_needed;
                 ac_duration := inject_Z loops_needed * ac_duration music;
                 ac_volume_scales := ac_volume_scales music;
                 ac_fades := ac_fades music |})
  else Ok music.

(** [clip.subclipped(0, t_end)]: refused beyond the end of the clip. *)
Definition subclip_to (music : audio_clip) (t_end : Q) : result audio_clip :=
  if Qgtb t_end (ac_duration music) then Raise ValueError
  else Ok {| ac_path := ac_path music;
             ac_copies := ac_copies music;
             ac_duration := t_end;
             ac_volume_scales := ac_volume_scales music;
             ac_fades := ac_fades music |}.

(** "Trim to exact duration", under either spelling. *)
Definition trim_music (api : moviepy_api) (music : audio_clip) (duration : Q)
    : result audio_clip :=
  if has_subclipped api then subclip_to music duration
  else if has_subclip api then subclip_to music duration
  else Raise AttributeError.

(** "Apply volume reduction for background", under either spelling. *)
Definition scale_volume (api : moviepy_api) (music : audio_clip) (factor : pyvalue)
    : result audio_clip :=
  if has_with_volume_scaled api || has_volumex api
  then Ok {| ac_path := ac_path music;
             ac_copies := ac_copies music;
             ac_duration := ac_duration music;
             ac_volume_scales := ac_volume_scales music ++ [factor];
             ac_fades := ac_fades music |}
  else Raise AttributeError.

(** [clip.audio_fadein(2.0)] then [clip.audio_fadeout(3.0)] *)
Definition fade_in_out (api : moviepy_api) (music : audio_clip) : result audio_clip :=
  if has_audio_fadein api && has_audio_fadeout api
  then Ok {| ac_path := ac_path music;
             ac_copies := ac_copies music;
             ac_duration := ac_duration music;
             ac_volume_scales := ac_volume_scales music;
             ac_fades := ac_fades music ++ [AudioFadeIn 2; AudioFadeOut 3] |}
  else Raise AttributeError.

(** "Add fade in/out": through [with_effects] applied to the two
    callables, else directly, else not at all. *)
Definition add_fades (api : moviepy_api) (music : audio_clip) : audio_clip :=
  match (if has_with_effects api then fade_in_out api music else Raise AttributeError) with
  | Ok faded => faded
  | Raise _ =>
      match fade_in_out api music with
      | Ok faded => faded
      | Raise _ => music
      end
  end.

(** The [try] of [_get_background_music], after a path is chosen. *)
Definition prepare_music (self : VideoGenerator) (E : env) (music_path : string)
    (duration : Q) : result audio_clip :=
  result_bind (load_audio E music_path) (fun music =>
  result_bind (loop_music (moviepy E) music duration) (fun music =>
  result_bind (trim_music (moviepy E) music duration) (fun music =>
  result_bind (scale_volume (moviepy E) music (music_volume self)) (fun music =>
  Ok (add_fades (moviepy E) music))))).

(** The choice of the path in [_get_background_music]: the tiers. *)
Definition choose_music_path (self : VideoGenerator) (E : env) (duration : Q)
    (mood : string) : M (option string) :=
  (w <- get_world ;;
   let existing_music :=
     map (path_join (music_dir self)) (list_music [".mp3"; ".wav"; ".ogg"; ".m4a"] w) in
   music_path <-
     (if configured (pixabay_api_key self)
      then _search_pixabay_music self E mood duration
      else ret None) ;;
   match music_path, existing_music with
   | Some p, _ => ret (Some p)
   | None, _ :: _ =>
       p <- random_choice E existing_music ;;
       log (EvUseCached p) ;;;
       ret (Some p)
   | None, [] => ret None
   end)%py.

Definition _get_background_music (self : VideoGenerator) (E : env) (duration : Q)
    (mood : string) : M (option audio_clip) :=
  if negb (truthy (use_background_music self)) then ret None
  else
    (chosen <- choose_music_path self E duration mood ;;
     match chosen with
     | None => ret None
     | Some music_path =>
         match prepare_music self E music_path duration with
         | Ok music => ret (Some music)
         | Raise _ => ret None
         end
     end)%py.

(** ** Vocabulary of the statements *)

(** The string has a character that is not whitespace. *)
Fixpoint has_nonspace (s : string) : bool :=
  match s with
  | EmptyString => false
  | String c s' => negb (isspace c) || has_nonspace s'
  end.

(** The segment has at least one word. *)
Definition wordy (s : string) : Prop := has_nonspace s = true.

(** [sum(len(seg.split()) for seg in segments)] *)
Definition total_words (segments : list string) : nat :=
  list_sum (map word_count segments).

(** Segments of 10, 20 and 30 words. *)
Definition ten_words : string := "one two three four five six seven eight nine ten".
Definition twenty_words : string := ten_words +:+ " " +:+ ten_words.
Definition thirty_words : string := twenty_words +:+ " " +:+ ten_words.

(** The download of one photo fails: no URL in the answer, a failed
    request, an error status, or a stream that breaks. *)
Definition photo_download_fails (E : env) (photo : pexels_photo) : bool :=
  match ph_large2x photo with
  | None => true
  | Some img_url =>
      match media_get E img_url with
      | ConnectionFailed => true
      | Response status body =>
          is_error_status status || match body with None => true | Some _ => false end
      end
  end.

(** The ways image acquisition fails. *)
Inductive image_acquisition_fails (self : VideoGenerator) (E : env) (topic : string)
    (count : nat) : Prop :=
  | MissingCredential :
      configured (pexels_api_key self) = false ->
      image_acquisition_fails self E topic count
  | SearchRequestFails :
      pexels_get E (pexels_query topic) count = ConnectionFailed ->
      image_acquisition_fails self E topic count
  | SearchHttpError status body :
      pexels_get E (pexels_query topic) count = Response status body ->
      is_error_status status = true ->
      image_acquisition_fails self E topic count
  | SearchBodyUnreadable status :
      pexels_get E (pexels_query topic) count = Response status None ->
      image_acquisition_fails self E topic count
  | EmptyResultSet status :
      pexels_get E (pexels_query topic) count = Response status (Some []) ->
      image_acquisition_fails self E topic count
  | DownloadFails status photos :
      pexels_get E (pexels_query topic) count = Response status (Some photos) ->
      existsb (photo_download_fails E) (firstn count photos) = true ->
      image_acquisition_fails self E topic count.

(** A generated dark background: one of the tones of the palette, at the
    frame size of the generator. *)
Definition procedural (self : VideoGenerator) (b : background_clip) : Prop :=
  match b with
  | FallbackBackground color size _ => List.In color fallback_colors /\ size = resolution self
  | ImageBackground _ _ _ => False
  end.

(** The final pass of a line is the one drawn in the off-white fill. *)
Definition is_final_pass (d : draw_text) : bool :=
  match dt_fill d with
  | (r, g, b, a) => ((r =? 255) && (g =? 245) && (b =? 245) && (a =? 255))%Z
  end.

(** Where each caption line ends up: its text and its left x-position. *)
Definition placed_lines (clip : image_clip) : list (string * Q) :=
  map (fun d => (dt_line d, dt_x d))
    (List.filter is_final_pass (cv_draws (ic_image clip))).

(** Concrete inputs for the examples. *)

(** The MoviePy 1.x spelling, with the fade methods on the clips. *)
Definition legacy_api : moviepy_api :=
  {| has_concatenate_audioclips := true; has_subclipped := false; has_subclip := true;
     has_with_volume_scaled := false; has_volumex := true; has_with_effects := false;
     has_audio_fadein := true; has_audio_fadeout := true |}.

(** The MoviePy 2.x spelling; the clips have no fade methods and
    [with_effects] does not take callables. *)
Definition current_api : moviepy_api :=
  {| has_concatenate_audioclips := true; has_subclipped := true; has_subclip := false;
     has_with_volume_scaled := true; has_volumex := false; has_with_effects := false;
     has_audio_fadein := false; has_audio_fadeout := false |}.

(** An environment with the given credentials, search answers, random
    draws and audio API; media downloads succeed, the image search is
    unreachable, every audio file lasts 45 s, no font loads and text cannot be
    measured, and a paragraph is wrapped as one line. *)
Definition example_env (pexels pixabay freesound : option string)
    (pixabay_answer : http (list pixabay_track))
    (freesound_answer : http (list freesound_result))
    (draws : nat -> nat) (api : moviepy_api) : env :=
  {| getenv_PEXELS_API_KEY := pexels;
     getenv_PIXABAY_API_KEY := pixabay;
     getenv_FREESOUND_API_KEY := freesound;
     random_draw := draws;
     pixabay_get := fun _ => pixabay_answer;
     freesound_get := fun _ _ => freesound_answer;
     pexels_get := fun _ _ => ConnectionFailed;
     media_get := fun _ => Response 200 (Some tt);
     audio_file_duration := fun _ => Some 45%Q;
     moviepy := api;
     font_loads := fun _ => false;
     textbbox := fun _ _ => None;
     textwrap_wrap := fun paragraph => [paragraph];
     image_opens := fun _ => true |}.

Definition offline_env : env :=
  example_env None None None ConnectionFailed ConnectionFailed (fun _ => 0) current_api.

Definition example_config (width height : Z) (extra : list (string * pyvalue)) : pyvalue :=
  PyDict (("video", PyDict [("resolution", PyList [PyInt width; PyInt height]);
                            ("fps", PyInt 30)]) :: extra).

Definition example_generator (E : env) (width height : Z) : VideoGenerator :=
  {| config := example_config width height [];
     resolution := (width, height);
     fps := PyInt 30;
     pexels_api_key := getenv_PEXELS_API_KEY E;
     pixabay_api_key := getenv_PIXABAY_API_KEY E;
     text_overlay_opacity := 7 # 10;
     use_background_music := PyBool true;
     music_volume := PyFloat (15 # 100);
     music_dir := "assets/music";
     music_search_queries :=
       ["dark ambient"; "horror cinematic"; "suspense thriller";
        "creepy atmosphere"; "scary background"; "dark cinematic";
        "tension horror"; "eerie ambient"; "mysterious dark";
        "haunting melody"] |}.

Definition empty_world : world :=
  {| music_dir_files := ∅; image_dir_files := ∅; trace := []; draws_used := 0 |}.

(** What a computation appends to the trace, and what it returns. *)
Definition post {A} (c : M A) (Phi : list event -> result A -> Prop) : Prop :=
  forall w, exists evs, trace (snd (c w)) = trace w ++ evs /\ Phi evs (fst (c w)).

(** At most one download, of the file [path] when [path] is given. *)
Definition download_events (path : option string) (evs : list event) : Prop :=
  evs = [] \/ exists url p, evs = [EvDownload url p]
                            /\ match path with Some q => p = q | None => True end.

(** Tier 3: a cached track, or nothing. *)
Inductive cache_tier : list event -> option string -> Prop :=
  | CacheEmpty : cache_tier [] None
  | CacheTrack p : cache_tier [EvUseCached p] (Some p).

(** Tier 2 and what follows it inside [_download_from_freesound]. *)
Inductive secondary_tier (self : VideoGenerator) (E : env) (query : string)
    : list event -> option string -> Prop :=
  | SecondaryUnconfigured evs r :
      configured (getenv_FREESOUND_API_KEY E) = false ->
      cache_tier evs r ->
      secondary_tier self E query evs r
  | SecondarySucceeds dl id :
      configured (getenv_FREESOUND_API_KEY E) = true ->
      download_events (Some (path_join (music_dir self) (freesound_filename id))) dl ->
      secondary_tier self E query
        (EvFreesoundSearch (query +:+ " ambient loop") :: dl)
        (Some (path_join (music_dir self) (freesound_filename id)))
  | SecondaryFails dl evs r :
      configured (getenv_FREESOUND_API_KEY E) = true ->
      download_events None dl ->
      cache_tier evs r ->
      secondary_tier self E query
        (EvFreesoundSearch (query +:+ " ambient loop") :: dl ++ evs) r.

(** Tier 1 and what follows it inside [_search_pixabay_music]. *)
Inductive primary_tier (self : VideoGenerator) (E : env) (query : string)
    : list event -> option string -> Prop :=
  | PrimarySucceeds dl id :
      download_events (Some (path_join (music_dir self) (pixabay_filename query id))) dl ->
      primary_tier self E query (EvPixabaySearch query :: dl)
        (Some (path_join (music_dir self) (pixabay_filename query id)))
  | PrimaryFails dl evs r :
      download_events None dl ->
      secondary_tier self E query evs r ->
      primary_tier self E query (EvPixabaySearch query :: dl ++ evs) r.

(** The query of the primary search: the mood itself, or one of the horror
    queries for a horror mood. *)
Definition query_for (self : VideoGenerator) (mood query : string) : Prop :=
  if existsb (String.eqb (lower mood)) horror_moods
  then List.In query (music_search_queries self)
  else query = mood.

(** The whole chain of [_get_background_music]. *)
Inductive music_chain (self : VideoGenerator) (E : env) (mood : string)
    : list event -> option string -> Prop :=
  | ChainWithoutPrimary evs r :
      configured (pixabay_api_key self) = false ->
      cache_tier evs r ->
      music_chain self E mood evs r
  | ChainFound query evs p :
      configured (pixabay_api_key self) = true ->
      query_for self mood query ->
      primary_tier self E query evs (Some p) ->
      music_chain self E mood evs (Some p)
  | ChainLastResort query evs evs' r :
      configured (pixabay_api_key self) = true ->
      query_for self mood query ->
      primary_tier self E query evs None ->
      cache_tier evs' r ->
      music_chain self E mood (evs ++ evs') r.

Definition is_freesound_search (e : event) : bool :=
  match e with EvFreesoundSearch _ => true | _ => false end.

Definition is_cache_use (e : event) : bool :=
  match e with EvUseCached _ => true | _ => false end.

(** The chain in the words of the specification: each tier is one
    computation that yields a path or nothing, and the chain stops at the
    first tier that yields a path. *)
Definition first_success (tier next : M (option string)) : M (option string) :=
  (found <- tier ;;
   match found with
   | Some path => ret (Some path)
   | None => next
   end)%py.

(** Tier 1 alone: the primary search and the download of the selected
    track; nothing where the source turns to the secondary search. *)
Definition primary_attempt (self : VideoGenerator) (E : env) (query : string)
    : M (option string) :=
  (log (EvPixabaySearch query) ;;;
   match pixabay_get E query with
   | ConnectionFailed => raise RequestException
   | Response status body =>
       if negb (status =? 200)%Z then ret None
       else match body with
            | None => raise JSONDecodeError
            | Some [] => ret None
            | Some hits =>
                tracks <- suitable_tracks E hits ;;
                match tracks with
                | [] => ret None
                | _ :: _ =>
                    selected <- random_choice E tracks ;;
                    pixabay_download self E query selected
                end
            end
   end)%py.

Definition primary_search (self : VideoGenerator) (E : env) (query : string)
    : M (option string) :=
  catch (primary_attempt self E query) (fun _ => ret None).

(** Tier 2 alone: the secondary search, when its credential is configured,
    and the download of the preview. *)
Definition secondary_search (self : VideoGenerator) (E : env) (query : string)
    (min_duration : Q) : M (option string) :=
  if configured (getenv_FREESOUND_API_KEY E)
  then catch (freesound_try self E query min_duration) (fun _ => ret None)
  else ret None.

(** Tier 3: a track of the cache chosen at random; the files listed when
    [_get_background_music] started. *)
Definition cached_track (E : env) (existing_music : list string) : M (option string) :=
  match existing_music with
  | [] => ret None
  | _ :: _ =>
      (p <- random_choice E existing_music ;;
       log (EvUseCached p) ;;;
       ret (Some p))%py
  end.

(** The query of the primary and of the secondary search. *)
Definition music_query (self : VideoGenerator) (E : env) (mood : string) : M string :=
  if existsb (String.eqb (lower mood)) horror_moods
  then random_choice E (music_search_queries self)
  else ret mood.

(** The files of the cache, as [_get_background_music] lists them. *)
Definition existing_music_of (self : VideoGenerator) (w : world) : list string :=
  map (path_join (music_dir self)) (list_music [".mp3"; ".wav"; ".ogg"; ".m4a"] w).

(** The amended chain: tier 1, then tier 2, then the cache (as
    [_download_from_freesound] lists it, then as [_get_background_music]
    listed it at the start); the cache alone without the primary
    credential. *)
Definition tiered_music_path (self : VideoGenerator) (E : env) (duration : Q)
    (mood : string) : M (option string) :=
  (w <- get_world ;;
   if configured (pixabay_api_key self)
   then
     query <- music_query self E mood ;;
     first_success (primary_search self E query)
       (first_success (secondary_search self E query duration)
          (first_success (freesound_cache_fallback self E)
             (cached_track E (existing_music_of self w))))
   else cached_track E (existing_music_of self w))%py.

(** The chain as the claim has it: the secondary search is also tried when
    the primary credential is absent. *)
Definition claimed_music_path (self : VideoGenerator) (E : env) (duration : Q)
    (mood : string) : M (option string) :=
  (w <- get_world ;;
   query <- music_query self E mood ;;
   first_success
     (if configured (pixabay_api_key self) then primary_search self E query else ret None)
     (first_success (secondary_search self E query duration)
        (first_success (freesound_cache_fallback self E)
           (cached_track E (existing_music_of self w)))))%py.

Definition world_with_music (names : list string) : world :=
  {| music_dir_files := list_to_set names; image_dir_files := ∅; trace := [];
     draws_used := 0 |}.

(** A step that leaves the trace alone and returns normally. *)
Definition silent {A} (evs : list event) (r : result A) : Prop :=
  evs = [] /\ exists a, r = Ok a.


(** The share of a segment before rounding. *)
Definition exact_ratio (word_count total_words n_segments : nat) : Q :=
  if 0 <? total_words
  then Q_of_nat word_count / Q_of_nat total_words
  else 1 / Q_of_nat n_segments.
(** Three paragraphs of one word each. *)
Definition three_paragraphs : string :=
  "One" +:+ LF +:+ LF +:+ "Two" +:+ LF +:+ LF +:+ "Three".

(** The smallest positive float, 5e-324, and the float 2^50 + 1/4. *)
Definition tiny_duration : Q := pow2 (-1074).
Definition huge_duration : Q := 1125899906842624 + (1 # 4).

(** ** EffectPipeline: the geometry of the backgrounds *)

(** The size an image is resized to before it becomes a clip ("Resize to
    fit resolution"): the frame height and the matching width when the image
    is wider than the frame, the frame width and the matching height
    otherwise. *)
Definition cover_size (self : VideoGenerator) (img_width img_height : Z) : result (Z * Z) :=
  result_bind (int_true_div img_width img_height) (fun img_ratio =>
  result_bind (int_true_div (fst (resolution self)) (snd (resolution self)))
    (fun target_ratio =>
  if Qgtb img_ratio target_ratio then
    let new_height := snd (resolution self) in
    result_bind (float_of_int new_height) (fun height =>
    result_bind (int_of_float (fmul height img_ratio)) (fun new_width =>
    Ok (new_width, new_height)))
  else
    let new_width := fst (resolution self) in
    result_bind (float_of_int new_width) (fun width =>
    if Qeq_bool img_ratio 0 then Raise ZeroDivisionError
    else
      result_bind (int_of_float (fdiv width img_ratio)) (fun new_height =>
      Ok (new_width, new_height))))).

(** The centre crop of [zoom_effect] at time [t]: [frame[y1:y1+new_h,
    x1:x1+new_w]] of a frame of [h] rows and [w] columns. *)
Record crop_box : Type := {
  cb_y1 : Z;
  cb_x1 : Z;
  cb_new_h : Z;
  cb_new_w : Z
}.

(** When [t / duration] is beyond the range the zoom factor is an infinity
    and [h / zoom_factor] a zero. *)
Definition zoom_crop (duration : Q) (h w : Z) (t : Q) : result crop_box :=
  if Qeq_bool duration 0 then Raise ZeroDivisionError
  else
    let progress := fdiv t duration in
    if overflows progress then
      result_bind (float_of_int h) (fun _ =>
      result_bind (float_of_int w) (fun _ =>
      Ok {| cb_y1 := (h / 2)%Z; cb_x1 := (w / 2)%Z; cb_new_h := 0; cb_new_w := 0 |}))
    else
      let zoom_factor := fadd 1 (fmul progress lit_0_1) in
      result_bind (float_of_int h) (fun height =>
      if Qeq_bool zoom_factor 0 then Raise ZeroDivisionError
      else
        result_bind (int_of_float (fdiv height zoom_factor)) (fun new_h =>
        result_bind (float_of_int w) (fun width =>
        result_bind (int_of_float (fdiv width zoom_factor)) (fun new_w =>
        let y1 := ((h - new_h) / 2)%Z in
        let x1 := ((w - new_w) / 2)%Z in
        Ok {| cb_y1 := y1; cb_x1 := x1; cb_new_h := new_h; cb_new_w := new_w |})))).

(** The float 1.1, which [1.0 + 0.1] rounds to. *)
Definition zoom_max : Q := round64 (1 + lit_0_1).

(** [range(n)] *)
Definition range (n : Z) : list Z := map Z.of_nat (seq 0 (Z.to_nat n)).

(** The "ominous gradient" of the generated background: row [i] is covered
    by a black line of alpha [int((i / height) * 80)]. *)
Definition gradient_alpha (height i : Z) : Z :=
  int_of_Q (inject_Z i / inject_Z height * 80).

Record line_draw : Type := {
  ln_from : Z * Z;
  ln_to : Z * Z;
  ln_fill : rgba
}.

Definition gradient_lines (self : VideoGenerator) : list line_draw :=
  map (fun i =>
         {| ln_from := (0, i)%Z;
            ln_to := (fst (resolution self), i);
            ln_fill := (0, 0, 0, gradient_alpha (snd (resolution self)) i)%Z |})
      (range (snd (resolution self))).

(** The vignette of the generated background: the [i]-th of 100 ellipses,
    drawn on a transparent layer, later ones over earlier ones. *)
Record ellipse_draw : Type := {
  el_bbox : Z * Z * Z * Z;
  el_fill : rgba
}.

(** [int(max_radius * (1 - i / 100))] *)
Definition vignette_radius (self : VideoGenerator) (i : Z) : result Z :=
  let center_x := (fst (resolution self) / 2)%Z in
  let center_y := (snd (resolution self) / 2)%Z in
  let max_radius := Z.max center_x center_y in
  result_bind (float_of_int max_radius) (fun radius =>
  int_of_float (fmul radius (fsub 1 (true_div i 100)))).

(** [int((i / 100) * 150)] *)
Definition vignette_alpha (i : Z) : Z := int_of_Q (fmul (true_div i 100) 150).

Definition vignette_ellipse (self : VideoGenerator) (i : Z) : result ellipse_draw :=
  let center_x := (fst (resolution self) / 2)%Z in
  let center_y := (snd (resolution self) / 2)%Z in
  result_bind (vignette_radius self i) (fun radius =>
  Ok {| el_bbox :=
          (center_x - radius, center_y - radius, center_x + radius, center_y + radius)%Z;
        el_fill := (0, 0, 0, vignette_alpha i)%Z |}).

(** A loop that stops at the first exception. *)
Fixpoint for_each {A B} (f : A -> result B) (l : list A) : result (list B) :=
  match l with
  | [] => Ok []
  | x :: rest =>
      result_bind (f x) (fun y =>
      result_bind (for_each f rest) (fun ys => Ok (y :: ys)))
  end.

Definition vignette_ellipses (self : VideoGenerator) : result (list ellipse_draw) :=
  for_each (vignette_ellipse self) (range 100).

(** ** AudioMixer and Renderer: [create_video] *)

(** What [create_video] needs beyond [env]: the file system under the
    output path, the audio compositor, the video clip API, the encoder, and
    [str] on the values of the script dictionary. *)
Record studio : Type := {
  (** [os.makedirs(directory, exist_ok=True)] succeeds *)
  makedirs_ok : string -> bool;
  (** [CompositeAudioClip([voice, music])] succeeds *)
  composite_audio_ok : bool;
  (** the video clip has [with_audio], [set_audio] *)
  has_with_audio : bool;
  has_set_audio : bool;
  (** [video.write_videofile(path, ...)] succeeds *)
  write_videofile_ok : string -> bool;
  (** the text of a value inside an f-string *)
  format_value : pyvalue -> string
}.

Inductive audio_track : Type :=
  | VoiceOnly (audio_path : string) (duration : Q)
  | VoiceWithMusic (audio_path : string) (duration : Q) (music : audio_clip).

Definition _mix_audio_with_music (S : studio) (audio_path : string) (duration : Q)
    (music : audio_clip) : audio_track :=
  if composite_audio_ok S then VoiceWithMusic audio_path duration music
  else VoiceOnly audio_path duration.

(** The file written by [write_videofile]. *)
Record video_file : Type := {
  vf_path : string;
  vf_clips : list composite_clip;
  vf_audio : audio_track;
  vf_fps : pyvalue
}.

Fixpoint drop_to_slash (reversed : string) : string :=
  match reversed with
  | EmptyString => EmptyString
  | String c rest => if Ascii.eqb c "/" then reversed else drop_to_slash rest
  end.

Fixpoint drop_slashes (s : string) : string :=
  match s with
  | EmptyString => EmptyString
  | String c rest => if Ascii.eqb c "/" then drop_slashes rest else s
  end.

(** [os.path.dirname(p)] (POSIX): the part up to the last slash, without
    its trailing slashes unless it consists of slashes only. *)
Definition dirname (p : string) : string :=
  let reversed_head := drop_to_slash (flush p) in
  if nonempty (drop_slashes reversed_head) then flush (drop_slashes reversed_head)
  else flush reversed_head.

(** [self.config.get('channel', {}).get('niche', 'horror')] *)
Definition niche_of (self : VideoGenerator) : result pyvalue :=
  result_bind (dict_get (config self) "channel" (PyDict [])) (fun channel =>
  dict_get channel "niche" (PyStr "horror")).

Definition lift {A} (r : result A) : M A :=
  match r with
  | Ok a => ret a
  | Raise e => raise e
  end.

(** [script_data['script']], which must have [split]. *)
Definition script_of (script_data : pyvalue) : result string :=
  result_bind (getitem script_data "script") (fun v =>
  match v with
  | PyStr script => Ok script
  | _ => Raise AttributeError
  end).

(** Step 4 of [create_video].  The mood is read by [mood.lower()] only,
    inside [_search_pixabay_music] behind the credential check. *)
Definition background_music_for (self : VideoGenerator) (E : env) (duration : Q)
    (niche : pyvalue) : M (option audio_clip) :=
  match niche with
  | PyStr mood => _get_background_music self E duration mood
  | _ =>
      if truthy (use_background_music self) && configured (pixabay_api_key self)
      then raise AttributeError
      else _get_background_music self E duration ""
  end.

(** [VideoGenerator.create_video].  The title is handed to the clips as the
    text of the value; the clips never read it. *)
Definition create_video (self : VideoGenerator) (E : env) (S : studio)
    (script_data : pyvalue) (audio_path output_path : string) : M video_file :=
  if negb (nonempty (dirname output_path) && makedirs_ok S (dirname output_path))
  then raise OSError
  else
    match audio_file_duration E audio_path with
    | None => raise OSError
    | Some duration =>
        (script <- lift (script_of script_data) ;;
         let segments := _parse_script_segments script in
         topic <- lift (getitem script_data "topic") ;;
         image_paths <-
           _download_pexels_images self E (format_value S topic) (List.length segments) ;;
         niche <- lift (niche_of self) ;;
         background_music <- background_music_for self E duration niche ;;
         let audio :=
           match background_music with
           | Some music => _mix_audio_with_music S audio_path duration music
           | None => VoiceOnly audio_path duration
           end in
         title <- lift (getitem script_data "title") ;;
         clips <-
           _create_clips_with_typewriter self E segments image_paths duration
             (format_value S title) ;;
         match clips with
         | [] => raise ValueError
         | _ :: _ =>
             if negb (has_with_audio S || has_set_audio S) then raise AttributeError
             else if write_videofile_ok S output_path
             then ret {| vf_path := output_path; vf_clips := clips; vf_audio := audio;
                         vf_fps := fps self |}
             else raise OSError
         end)%py
    end.

(** ** The pipeline configuration ([YouTubePipeline.__init__] in main.py) *)

(** [d[key] = v] on the items of a dictionary. *)
Fixpoint dict_set (key : string) (v : pyvalue) (items : list (string * pyvalue))
    : list (string * pyvalue) :=
  match items with
  | [] => [(key, v)]
  | (k, x) :: rest =>
      if String.eqb k key then (k, v) :: rest else (k, x) :: dict_set key v rest
  end.

Definition setitem (d : pyvalue) (key : string) (v : pyvalue) : result pyvalue :=
  match d with
  | PyDict items => Ok (PyDict (dict_set key v items))
  | _ => Raise TypeError
  end.

(** [min(v, 60)] *)
Definition min_with_60 (v : pyvalue) : result pyvalue :=
  match v with
  | PyInt z => Ok (if (60 <? z)%Z then PyInt 60 else PyInt z)
  | PyFloat q => Ok (if Qgtb q 60 then PyInt 60 else PyFloat q)
  | PyBool b => Ok (PyBool b)
  | _ => Raise TypeError
  end.

(** "Modify config for YouTube Shorts". *)
Definition configure_for_shorts (config : pyvalue) : result pyvalue :=
  result_bind (getitem config "video") (fun video =>
  result_bind (setitem video "resolution" (PyList [PyInt 1080; PyInt 1920])) (fun video =>
  result_bind (dict_get video "duration" (PyInt 60)) (fun duration =>
  result_bind (min_with_60 duration) (fun duration =>
  result_bind (setitem video "duration" duration) (fun video =>
  setitem config "video" video))))).

(** The configuration the pipeline hands to [VideoGenerator]. *)
Definition pipeline_config (config : pyvalue) (as_short : bool) : result pyvalue :=
  if as_short then configure_for_shorts config else Ok config.

(** ** Vocabulary of the further properties *)

Definition background_duration (b : background_clip) : Q :=
  match b with
  | ImageBackground _ _ duration => duration
  | FallbackBackground _ _ duration => duration
  end.

(** The durations of the background, the overlay and the caption of a clip. *)
Definition layer_durations (clip : composite_clip) : Q * Q * Q :=
  (background_duration (cc_background clip), ic_duration (cc_overlay clip),
   ic_duration (cc_text clip)).

(** The background the [i]-th clip must have: the [i]-th image when there
    is one, a generated background otherwise. *)
Definition background_matches (self : VideoGenerator) (image_paths : list string) (i : nat)
    (b : background_clip) : Prop :=
  match nth_error image_paths i with
  | Some image_path => exists duration, b = ImageBackground image_path (resolution self) duration
  | None => procedural self b
  end.

(** An environment changed in what the libraries and the network answer. *)
Definition with_answers (E : env) (images_open : string -> bool)
    (pexels_answer : http (list pexels_photo)) (media_answer : string -> http unit)
    (audio_duration : string -> option Q) : env :=
  {| getenv_PEXELS_API_KEY := getenv_PEXELS_API_KEY E;
     getenv_PIXABAY_API_KEY := getenv_PIXABAY_API_KEY E;
     getenv_FREESOUND_API_KEY := getenv_FREESOUND_API_KEY E;
     random_draw := random_draw E;
     pixabay_get := pixabay_get E;
     freesound_get := freesound_get E;
     pexels_get := fun _ _ => pexels_answer;
     media_get := media_answer;
     audio_file_duration := audio_duration;
     moviepy := moviepy E;
     font_loads := font_loads E;
     textbbox := textbbox E;
     textwrap_wrap := textwrap_wrap E;
     image_opens := images_open |}.

(** The cache path of the [i]-th downloaded image. *)
Definition pexels_path (i : nat) : string :=
  path_join "assets/images" ("pexels_" +:+ str_of_nat i +:+ ".jpg").

(** The lines of a caption: every paragraph wrapped. *)
Definition wrapped_lines_of (E : env) (text : string) : list string :=
  flat_map (textwrap_wrap E) (split LF text).

(** The y-position of the first line of a caption of [n] lines. *)
Definition first_line_y (self : VideoGenerator) (n : nat) : Q :=
  ((inject_Z (snd (resolution self)) - Q_of_nat n * 80) / 2)%Q.

(** Every character of the string satisfies [P]. *)
Fixpoint all_chars (P : ascii -> bool) (s : string) : bool :=
  match s with
  | EmptyString => true
  | String c s' => P c && all_chars P s'
  end.

(** The characters cache file names are made of: letters and digits,
    underscore, minus and dot. *)
Definition filename_char (c : ascii) : bool :=
  isalnum c || Ascii.eqb c "_" || Ascii.eqb c "-" || Ascii.eqb c ".".

(** What [suitable_tracks] keeps of one hit: its URL, and its id when the
    provider gave one, a four-digit number otherwise. *)
Definition track_kept (track : pixabay_track) (kept : string * Z) : Prop :=
  fst kept = audio_url_of track
  /\ nonempty (fst kept) = true
  /\ match pt_id track with
     | Some id => snd kept = id
     | None => (1000 <= snd kept <= 9999)%Z
     end.

(** [inner] lies within [outer] (bounding boxes [x0, y0, x1, y1]). *)
Definition bbox_within (inner outer : Z * Z * Z * Z) : Prop :=
  let '(x0, y0, x1, y1) := inner in
  let '(a0, b0, a1, b1) := outer in
  (a0 <= x0 /\ b0 <= y0 /\ x1 <= a1 /\ y1 <= b1)%Z.

Definition example_studio : studio :=
  {| makedirs_ok := fun _ => true;
     composite_audio_ok := true;
     has_with_audio := true;
     has_set_audio := false;
     write_videofile_ok := fun _ => true;
     format_value := fun v => match v with PyStr s => s | _ => "" end |}.

Definition example_script_data : pyvalue :=
  PyDict [("title", PyStr "The House");
          ("script", PyStr "It began at midnight. Nobody came.");
          ("topic", PyStr "abandoned house")].

(** A duration setting that respects the limit of a Short. *)
Definition at_most_60 (v : pyvalue) : Prop :=
  match v with
  | PyInt z => (z <= 60)%Z
  | PyFloat q => (q <= 60)%Q
  | PyBool _ => True
  | _ => False
  end.

Definition not_slash (c : ascii) : bool := negb (Ascii.eqb c "/").

(** A configuration that asks for a 90 s landscape video. *)
Definition long_landscape_config : pyvalue :=
  PyDict [("video", PyDict [("resolution", PyList [PyInt 1920; PyInt 1080]);
                            ("fps", PyInt 30);
                            ("duration", PyInt 90)])].

(** * Properties *)

(** ** Strings *)

Lemma has_nonspace_rev_onto s acc :
  has_nonspace (rev_onto s acc) = has_nonspace s || has_nonspace acc.
Proof.
  revert acc. induction s as [|c s IH]; intros acc; simpl; [reflexivity|].
  rewrite IH. simpl. destruct (isspace c), (has_nonspace s), (has_nonspace acc); reflexivity.
Qed.

Lemma has_nonspace_flush s : has_nonspace (flush s) = has_nonspace s.
Proof. unfold flush. rewrite has_nonspace_rev_onto. simpl. apply orb_false_r. Qed.

Lemma has_nonspace_lstrip s : has_nonspace (lstrip s) = has_nonspace s.
Proof.
  induction s as [|c s IH]; simpl; [reflexivity|].
  destruct (isspace c) eqn:Hc; simpl; [exact IH | rewrite Hc; reflexivity].
Qed.

Lemma lstrip_nonempty s : nonempty (lstrip s) = has_nonspace s.
Proof.
  induction s as [|c s IH]; simpl; [reflexivity|].
  destruct (isspace c); simpl; [exact IH | reflexivity].
Qed.

Lemma nonempty_rev_onto s acc : nonempty (rev_onto s acc) = nonempty s || nonempty acc.
Proof.
  revert acc. induction s as [|c s IH]; intros acc; simpl; [reflexivity|].
  rewrite IH. simpl. apply orb_true_r.
Qed.

Lemma has_nonspace_strip s : has_nonspace (strip s) = has_nonspace s.
Proof.
  unfold strip, rstrip.
  now rewrite has_nonspace_flush, has_nonspace_lstrip, has_nonspace_flush, has_nonspace_lstrip.
Qed.

(** A stripped string is empty exactly when it has no word. *)
Lemma nonempty_strip s : nonempty (strip s) = has_nonspace s.
Proof.
  unfold strip, rstrip, flush at 1. rewrite nonempty_rev_onto. simpl.
  rewrite orb_false_r, lstrip_nonempty, has_nonspace_flush, has_nonspace_lstrip.
  reflexivity.
Qed.

Lemma has_nonspace_append a b :
  has_nonspace (a +:+ b) = has_nonspace a || has_nonspace b.
Proof.
  induction a as [|c a IH]; simpl; [reflexivity|].
  rewrite IH. apply orb_assoc.
Qed.

Lemma split_ws_aux_cur cur s :
  nonempty cur = true -> 1 <= List.length (split_ws_aux cur s).
Proof.
  revert cur. induction s as [|c s IH]; intros cur Hcur; simpl.
  - rewrite Hcur. simpl. lia.
  - destruct (isspace c).
    + rewrite Hcur. simpl. lia.
    + apply IH. reflexivity.
Qed.

Lemma split_ws_aux_nonspace cur s :
  has_nonspace s = true -> 1 <= List.length (split_ws_aux cur s).
Proof.
  revert cur. induction s as [|c s IH]; intros cur Hs; simpl in *; [discriminate|].
  destruct (isspace c); simpl in Hs.
  - destruct (nonempty cur); simpl; [lia | apply IH; exact Hs].
  - apply split_ws_aux_cur. reflexivity.
Qed.

(** A string with a non-whitespace character has at least one word. *)
Lemma word_count_pos s : has_nonspace s = true -> 1 <= word_count s.
Proof. apply split_ws_aux_nonspace. Qed.

Lemma has_nonspace_join sep l :
  l <> [] -> Forall (fun s => has_nonspace s = true) l -> has_nonspace (join sep l) = true.
Proof.
  intros Hne Hall. destruct Hall as [|x rest Hx Hrest]; [congruence|].
  simpl. destruct rest; [exact Hx|].
  rewrite has_nonspace_append, Hx. reflexivity.
Qed.

(** ** Segmentation *)

Lemma stripped_filter_wordy (keep : string -> bool) (pieces : list string) :
  (forall s, keep s = true -> nonempty (strip s) = true) ->
  Forall wordy (map strip (List.filter keep pieces)).
Proof.
  intros Hkeep. induction pieces as [|p pieces IH]; simpl; [constructor|].
  destruct (keep p) eqn:Hp; simpl; [|exact IH].
  constructor; [|exact IH].
  unfold wordy. rewrite has_nonspace_strip, <- nonempty_strip. now apply Hkeep.
Qed.

Lemma paragraph_segments_wordy script : Forall wordy (paragraph_segments script).
Proof. apply stripped_filter_wordy. auto. Qed.

Lemma line_segments_wordy script : Forall wordy (line_segments script).
Proof.
  apply stripped_filter_wordy. intros s Hs.
  apply andb_true_iff in Hs. tauto.
Qed.

Lemma sentences_of_wordy script : Forall wordy (sentences_of script).
Proof. apply stripped_filter_wordy. auto. Qed.

Lemma group_sentences_wordy sentences segments current_segment current_words :
  Forall wordy sentences -> Forall wordy segments -> Forall wordy current_segment ->
  Forall wordy (group_sentences sentences segments current_segment current_words).
Proof.
  revert segments current_segment current_words.
  induction sentences as [|sentence rest IH];
    intros segments current_segment current_words Hsent Hsegs Hcur; simpl.
  - destruct current_segment as [|c cs]; [exact Hsegs|].
    apply Forall_app. split; [exact Hsegs|].
    constructor; [|constructor].
    apply has_nonspace_join; [discriminate | exact Hcur].
  - inversion Hsent as [|? ? Hs Hrest]; subst.
    assert (Hcur' : Forall wordy (current_segment ++ [sentence])).
    { apply Forall_app. split; [exact Hcur | constructor; [exact Hs | constructor]]. }
    destruct (_ || _).
    + apply IH; [exact Hrest | | constructor].
      apply Forall_app. split; [exact Hsegs|].
      constructor; [|constructor].
      apply has_nonspace_join; [|exact Hcur'].
      destruct current_segment; discriminate.
    + apply IH; assumption.
Qed.

Lemma sentence_segments_wordy script : Forall wordy (sentence_segments script).
Proof.
  apply group_sentences_wordy; [apply sentences_of_wordy | constructor | constructor].
Qed.

(** What [_parse_script_segments] returns: segments that all have a word,
    or the script itself as the only segment. *)
Lemma parse_shape script :
  (_parse_script_segments script <> [] /\ Forall wordy (_parse_script_segments script))
  \/ _parse_script_segments script = [script].
Proof.
  unfold _parse_script_segments.
  pose proof (paragraph_segments_wordy script) as H1.
  pose proof (line_segments_wordy script) as H2.
  pose proof (sentence_segments_wordy script) as H3.
  destruct (List.length (paragraph_segments script) <? 3).
  - destruct (List.length (line_segments script) <? 3).
    + destruct (sentence_segments script); [right; reflexivity | left; split; [discriminate | exact H3]].
    + destruct (line_segments script); [right; reflexivity | left; split; [discriminate | exact H2]].
  - destruct (List.length (paragraph_segments script) <? 3).
    + destruct (sentence_segments script); [right; reflexivity | left; split; [discriminate | exact H3]].
    + destruct (paragraph_segments script); [right; reflexivity | left; split; [discriminate | exact H1]].
Qed.

Lemma parse_nonempty script : _parse_script_segments script <> [].
Proof. destruct (parse_shape script) as [[H _]|H]; [exact H | rewrite H; discriminate]. Qed.

(** C9. For every non-empty script [_parse_script_segments] returns at
    least one segment, and when the paragraph split, the line split and the
    sentence grouping all yield no segment, it returns the whole script as
    the only segment. *)
Theorem parse_minimum_segmentation (script : string) :
  script <> "" ->
  1 <= List.length (_parse_script_segments script)
  /\ (paragraph_segments script = [] -> line_segments script = [] ->
      sentence_segments script = [] -> _parse_script_segments script = [script]).
Proof.
  intros _. split.
  - pose proof (parse_nonempty script) as Hne.
    destruct (_parse_script_segments script); [congruence | simpl; lia].
  - intros H1 H2 H3. unfold _parse_script_segments.
    rewrite H1. simpl. rewrite H2. simpl. rewrite H3. reflexivity.
Qed.

Lemma parse_minimum_segmentation_witness :
  1 <= List.length (_parse_script_segments " ")
  /\ _parse_script_segments " " = [" "].
Proof.
  destruct (parse_minimum_segmentation " ") as [H1 H2]; [discriminate|].
  split; [exact H1 | apply H2; reflexivity].
Defined.

(** ** Binary64 arithmetic *)

Local Open Scope Q_scope.

Lemma pow2_pos (e : Z) : 0 < pow2 e.
Proof. apply Qpower_0_lt. reflexivity. Qed.

Lemma pow2_add (a b : Z) : pow2 (a + b) == pow2 a * pow2 b.
Proof. apply Qpower_plus. discriminate. Qed.

Lemma pow2_sub (a b : Z) : pow2 (a - b) == pow2 a / pow2 b.
Proof. apply Qpower_minus. discriminate. Qed.

Lemma pow2_le (a b : Z) : (a <= b)%Z -> pow2 a <= pow2 b.
Proof. intros H. apply Qpower_le_compat_l; [exact H | discriminate]. Qed.

Lemma pow2_lt (a b : Z) : (a < b)%Z -> pow2 a < pow2 b.
Proof. intros H. apply Qpower_lt_compat_l; [exact H | reflexivity]. Qed.

Lemma pow2_lt_inv (a b : Z) : pow2 a < pow2 b -> (a < b)%Z.
Proof. intros H. apply (Qpower_lt_compat_l_inv 2); [exact H | reflexivity]. Qed.

Lemma pow2_int (a : Z) : (0 <= a)%Z -> pow2 a == inject_Z (2 ^ a).
Proof. intros H. unfold pow2. rewrite (Zpower_Qpower 2 a H). reflexivity. Qed.

Lemma pow2_succ (a : Z) : pow2 (a + 1) == 2 * pow2 a.
Proof. rewrite pow2_add. change (pow2 1) with 2. ring. Qed.

Lemma ilog2_spec (q : Q) : 0 < q -> pow2 (ilog2 q) <= q /\ q < pow2 (ilog2 q + 1).
Proof.
  intros Hq. unfold ilog2.
  assert (Hn : (0 < Qnum q)%Z) by (unfold Qlt in Hq; simpl in Hq; lia).
  destruct (Z.log2_spec (Qnum q) Hn) as [Ha1 Ha2].
  destruct (Z.log2_spec (Z.pos (Qden q)) ltac:(lia)) as [Hb1 Hb2].
  pose proof (Z.log2_nonneg (Qnum q)) as Ha0.
  pose proof (Z.log2_nonneg (Z.pos (Qden q))) as Hb0.
  set (a := Z.log2 (Qnum q)) in *. set (b := Z.log2 (Z.pos (Qden q))) in *.
  assert (Hqd : q * inject_Z (Z.pos (Qden q)) == inject_Z (Qnum q)).
  { destruct q as [n d]. simpl. unfold Qeq, Qmult, inject_Z. simpl. lia. }
  rewrite Zle_Qle in Ha1, Hb1. rewrite Zlt_Qlt in Ha2, Hb2.
  replace (Z.succ a) with (a + 1)%Z in Ha2 by lia.
  replace (Z.succ b) with (b + 1)%Z in Hb2 by lia.
  rewrite <- !pow2_int in Ha1, Ha2, Hb1, Hb2 by lia.
  rewrite pow2_succ in Ha2, Hb2.
  set (N := inject_Z (Qnum q)) in *. set (Dn := inject_Z (Z.pos (Qden q))) in *.
  pose proof (pow2_pos a) as HA. pose proof (pow2_pos b) as HB.
  pose proof (pow2_pos (a - b)) as HP.
  assert (HPB : pow2 (a - b) * pow2 b == pow2 a).
  { rewrite <- pow2_add. replace (a - b + b)%Z with a by lia. reflexivity. }
  set (A := pow2 a) in *. set (B := pow2 b) in *. set (P := pow2 (a - b)) in *.
  assert (Hup : q < pow2 (a - b + 1)).
  { rewrite pow2_succ. fold P. nra. }
  assert (Hlow : pow2 (a - b - 1) <= q).
  { assert (Hh : pow2 (a - b - 1) * 2 == P).
    { unfold P. replace (a - b)%Z with (a - b - 1 + 1)%Z at 2 by lia.
      rewrite pow2_succ. ring. }
    set (P' := pow2 (a - b - 1)) in *. nra. }
  destruct (Qle_bool P q) eqn:Hc.
  - apply Qle_bool_iff in Hc. split; [exact Hc | exact Hup].
  - split; [exact Hlow|]. replace (a - b - 1 + 1)%Z with (a - b)%Z by lia.
    apply Qnot_le_lt. intros H. apply Qle_bool_iff in H. fold P in H. congruence.
Qed.

Lemma ilog2_unique (q : Q) (k : Z) : pow2 k <= q -> q < pow2 (k + 1) -> ilog2 q = k.
Proof.
  intros H1 H2.
  assert (Hq : 0 < q) by (eapply Qlt_le_trans; [apply pow2_pos | exact H1]).
  destruct (ilog2_spec q Hq) as [H3 H4].
  assert (Ha : (ilog2 q < k + 1)%Z)
    by (apply pow2_lt_inv; eapply Qle_lt_trans; eassumption).
  assert (Hb : (k < ilog2 q + 1)%Z)
    by (apply pow2_lt_inv; eapply Qle_lt_trans; eassumption).
  lia.
Qed.

Lemma ilog2_comp (p q : Q) : 0 < p -> p == q -> ilog2 p = ilog2 q.
Proof.
  intros Hp Heq. destruct (ilog2_spec p Hp) as [H1 H2].
  symmetry. apply ilog2_unique; rewrite <- Heq; assumption.
Qed.

Lemma ilog2_le (p q : Q) : 0 < p -> p <= q -> (ilog2 p <= ilog2 q)%Z.
Proof.
  intros Hp Hle.
  assert (Hq : 0 < q) by (eapply Qlt_le_trans; eassumption).
  destruct (ilog2_spec p Hp) as [H1 _]. destruct (ilog2_spec q Hq) as [_ H2].
  assert (H : (ilog2 p < ilog2 q + 1)%Z).
  { apply pow2_lt_inv. eapply Qle_lt_trans; [exact H1|]. eapply Qle_lt_trans; eassumption. }
  lia.
Qed.

Lemma rne_cases (x : Q) :
  (rne x = Qfloor x /\ x - inject_Z (Qfloor x) <= 1 # 2)
  \/ (rne x = (Qfloor x + 1)%Z /\ 1 # 2 <= x - inject_Z (Qfloor x)).
Proof.
  unfold rne. destruct (Qcompare_spec (x - inject_Z (Qfloor x)) (1 # 2)) as [H|H|H].
  - destruct (Z.even (Qfloor x)); [left | right]; (split; [reflexivity | rewrite H; apply Qle_refl]).
  - left. split; [reflexivity | apply Qlt_le_weak; exact H].
  - right. split; [reflexivity | apply Qlt_le_weak; exact H].
Qed.

Lemma floor_bounds (x : Q) : inject_Z (Qfloor x) <= x /\ x < inject_Z (Qfloor x) + 1.
Proof.
  split; [apply Qfloor_le|]. pose proof (Qlt_floor x) as H.
  rewrite inject_Z_plus in H. exact H.
Qed.

Lemma rne_error (x : Q) : x - (1 # 2) <= inject_Z (rne x) /\ inject_Z (rne x) <= x + (1 # 2).
Proof.
  destruct (floor_bounds x) as [H1 H2].
  destruct (rne_cases x) as [[-> H]|[-> H]]; [|rewrite inject_Z_plus; change (inject_Z 1) with 1];
    split; lra.
Qed.

Lemma rne_comp (x y : Q) : x == y -> rne x = rne y.
Proof.
  intros H. unfold rne. rewrite (Qfloor_comp _ _ H).
  assert (Hc : Qcompare (x - inject_Z (Qfloor y)) (1 # 2)
               = Qcompare (y - inject_Z (Qfloor y)) (1 # 2)) by (rewrite H; reflexivity).
  rewrite Hc. reflexivity.
Qed.

Lemma rne_int (z : Z) : rne (inject_Z z) = z.
Proof.
  unfold rne. rewrite Qfloor_Z.
  assert (Hc : Qcompare (inject_Z z - inject_Z z) (1 # 2) = Lt).
  { apply Qlt_alt. assert (H : inject_Z z - inject_Z z == 0) by ring.
    rewrite H. reflexivity. }
  rewrite Hc. reflexivity.
Qed.

Lemma rne_ge_int (x : Q) (n : Z) : inject_Z n <= x -> (n <= rne x)%Z.
Proof.
  intros H. assert (Hf : (n <= Qfloor x)%Z).
  { rewrite <- (Qfloor_Z n). apply Qfloor_resp_le. exact H. }
  destruct (rne_cases x) as [[-> _]|[-> _]]; lia.
Qed.

Lemma rne_le_int (x : Q) (n : Z) : x <= inject_Z n -> (rne x <= n)%Z.
Proof.
  intros H. assert (Hf : (Qfloor x <= n)%Z).
  { rewrite <- (Qfloor_Z n). apply Qfloor_resp_le. exact H. }
  destruct (floor_bounds x) as [H1 H2].
  destruct (rne_cases x) as [[-> _]|[-> Hr]]; [lia|].
  destruct (Z.eq_dec (Qfloor x) n) as [He|Hne]; [|lia].
  rewrite He in *. lra.
Qed.

Lemma rne_monotone (x y : Q) : x <= y -> (rne x <= rne y)%Z.
Proof.
  intros H. assert (Hf : (Qfloor x <= Qfloor y)%Z) by (apply Qfloor_resp_le; exact H).
  destruct (Z.eq_dec (Qfloor x) (Qfloor y)) as [He|Hne].
  - unfold rne. rewrite He.
    destruct (Qcompare_spec (x - inject_Z (Qfloor y)) (1 # 2)) as [Hx|Hx|Hx];
      destruct (Qcompare_spec (y - inject_Z (Qfloor y)) (1 # 2)) as [Hy|Hy|Hy];
      try destruct (Z.even (Qfloor y)); try lia; exfalso; lra.
  - assert (Hx : (rne x <= Qfloor x + 1)%Z)
      by (destruct (rne_cases x) as [[-> _]|[-> _]]; lia).
    assert (Hy : (Qfloor y <= rne y)%Z)
      by (destruct (rne_cases y) as [[-> _]|[-> _]]; lia).
    lia.
Qed.

Lemma exponent_low (q : Q) : (-1074 <= exponent q)%Z.
Proof. unfold exponent. lia. Qed.

Lemma exponent_comp (p q : Q) : 0 < p -> p == q -> exponent p = exponent q.
Proof. intros Hp H. unfold exponent. rewrite (ilog2_comp p q Hp H). reflexivity. Qed.

Lemma exponent_le (p q : Q) : 0 < p -> p <= q -> (exponent p <= exponent q)%Z.
Proof. intros Hp H. unfold exponent. pose proof (ilog2_le p q Hp H). lia. Qed.

Lemma round_pos_value (q : Q) :
  round_pos q == inject_Z (rne (q / pow2 (exponent q))) * pow2 (exponent q).
Proof. unfold round_pos. apply Qred_correct. Qed.

Lemma round_pos_comp (p q : Q) : 0 < p -> p == q -> round_pos p = round_pos q.
Proof.
  intros Hp H. unfold round_pos. apply Qred_complete.
  rewrite (exponent_comp p q Hp H).
  rewrite (rne_comp (p / pow2 (exponent q)) (q / pow2 (exponent q))) by (rewrite H; reflexivity).
  reflexivity.
Qed.

Lemma div_pow2 (q : Q) (e : Z) : q / pow2 e * pow2 e == q.
Proof. field. pose proof (pow2_pos e). lra. Qed.

(** Half an ulp. *)
Lemma round_pos_error (q : Q) :
  0 < q ->
  q - pow2 (exponent q) / 2 <= round_pos q /\ round_pos q <= q + pow2 (exponent q) / 2.
Proof.
  intros Hq. rewrite round_pos_value.
  destruct (rne_error (q / pow2 (exponent q))) as [H1 H2].
  pose proof (div_pow2 q (exponent q)) as Hd.
  pose proof (pow2_pos (exponent q)) as Hp.
  set (x := q / pow2 (exponent q)) in *. set (P := pow2 (exponent q)) in *.
  set (r := inject_Z (rne x)) in *.
  assert (Ha : (x - (1 # 2)) * P <= r * P)
    by (apply Qmult_le_compat_r; [exact H1 | apply Qlt_le_weak; exact Hp]).
  assert (Hb : r * P <= (x + (1 # 2)) * P)
    by (apply Qmult_le_compat_r; [exact H2 | apply Qlt_le_weak; exact Hp]).
  assert (Hc : (x - (1 # 2)) * P == q - P / 2) by (rewrite <- Hd; field).
  assert (Hc' : (x + (1 # 2)) * P == q + P / 2) by (rewrite <- Hd; field).
  rewrite Hc in Ha. rewrite Hc' in Hb. split; assumption.
Qed.

Lemma round_pos_nonneg (q : Q) : 0 < q -> 0 <= round_pos q.
Proof.
  intros Hq. rewrite round_pos_value.
  apply Qmult_le_0_compat; [|apply Qlt_le_weak, pow2_pos].
  change 0 with (inject_Z 0). rewrite <- Zle_Qle. apply rne_ge_int.
  apply Qle_shift_div_l; [apply pow2_pos|]. change (inject_Z 0) with 0. lra.
Qed.

(** Rounding does not cross a power of two that the format holds. *)
Lemma round_pos_ge_pow2 (q : Q) (m : Z) :
  (exponent q <= m)%Z -> pow2 m <= q -> pow2 m <= round_pos q.
Proof.
  intros Hm Hq. rewrite round_pos_value.
  assert (Hint : pow2 m == inject_Z (2 ^ (m - exponent q)) * pow2 (exponent q)).
  { rewrite <- pow2_int by lia. rewrite <- pow2_add. f_equiv. lia. }
  rewrite Hint. apply Qmult_le_compat_r; [|apply Qlt_le_weak, pow2_pos].
  rewrite <- Zle_Qle. apply rne_ge_int.
  apply Qle_shift_div_l; [apply pow2_pos|]. rewrite <- Hint. exact Hq.
Qed.

Lemma round_pos_le_pow2 (q : Q) (m : Z) :
  (exponent q <= m)%Z -> q <= pow2 m -> round_pos q <= pow2 m.
Proof.
  intros Hm Hq. rewrite round_pos_value.
  assert (Hint : pow2 m == inject_Z (2 ^ (m - exponent q)) * pow2 (exponent q)).
  { rewrite <- pow2_int by lia. rewrite <- pow2_add. f_equiv. lia. }
  rewrite Hint. apply Qmult_le_compat_r; [|apply Qlt_le_weak, pow2_pos].
  rewrite <- Zle_Qle. apply rne_le_int.
  apply Qle_shift_div_r; [apply pow2_pos|]. rewrite <- Hint. exact Hq.
Qed.

Lemma round_pos_monotone (p q : Q) : 0 < p -> p <= q -> round_pos p <= round_pos q.
Proof.
  intros Hp Hle.
  assert (Hq : 0 < q) by (eapply Qlt_le_trans; eassumption).
  pose proof (exponent_le p q Hp Hle) as He.
  destruct (Z.eq_dec (exponent p) (exponent q)) as [Heq|Hne].
  - rewrite !round_pos_value, Heq.
    apply Qmult_le_compat_r; [|apply Qlt_le_weak, pow2_pos].
    rewrite <- Zle_Qle. apply rne_monotone.
    apply Qmult_le_compat_r; [exact Hle|].
    apply Qlt_le_weak, Qinv_lt_0_compat, pow2_pos.
  - pose proof (ilog2_le p q Hp Hle) as Hk.
    destruct (ilog2_spec p Hp) as [_ Hp2]. destruct (ilog2_spec q Hq) as [Hq1 _].
    assert (Hkk : (ilog2 p < ilog2 q)%Z) by (unfold exponent in *; lia).
    apply Qle_trans with (pow2 (ilog2 q)).
    + apply round_pos_le_pow2; [unfold exponent in *; lia|].
      apply Qle_trans with (pow2 (ilog2 p + 1)); [apply Qlt_le_weak; exact Hp2|].
      apply pow2_le. lia.
    + apply round_pos_ge_pow2; [unfold exponent in *; lia | exact Hq1].
Qed.

Lemma round64_pos (q : Q) : 0 < q -> round64 q = round_pos q.
Proof.
  intros H. unfold round64. destruct (Qcompare_spec q 0) as [Hc|Hc|Hc];
    [rewrite Hc in H; discriminate | exfalso; lra | reflexivity].
Qed.

Lemma round64_neg (q : Q) : q < 0 -> round64 q = - round_pos (- q).
Proof.
  intros H. unfold round64. destruct (Qcompare_spec q 0) as [Hc|Hc|Hc];
    [rewrite Hc in H; discriminate | reflexivity | exfalso; lra].
Qed.

Lemma round64_zero (q : Q) : q == 0 -> round64 q = 0.
Proof.
  intros H. unfold round64. destruct (Qcompare_spec q 0) as [Hc|Hc|Hc];
    [reflexivity | exfalso; lra | exfalso; lra].
Qed.

Lemma round64_comp (p q : Q) : p == q -> round64 p = round64 q.
Proof.
  intros H. destruct (Q_dec p 0) as [[Hn|Hp]|Hz].
  - rewrite (round64_neg p Hn), (round64_neg q) by (rewrite <- H; exact Hn).
    f_equal. apply round_pos_comp; [lra | rewrite H; reflexivity].
  - rewrite (round64_pos p Hp), (round64_pos q) by (rewrite <- H; exact Hp).
    apply round_pos_comp; assumption.
  - rewrite (round64_zero p Hz), (round64_zero q) by (rewrite <- H; exact Hz). reflexivity.
Qed.

#[global] Instance round64_proper : Proper (Qeq ==> Qeq) round64.
Proof. intros p q H. rewrite (round64_comp p q H). reflexivity. Qed.

Lemma round64_opp (q : Q) : round64 (- q) == - round64 q.
Proof.
  destruct (Q_dec q 0) as [[Hn|Hp]|Hz].
  - rewrite (round64_neg q Hn), (round64_pos (- q)) by lra. ring.
  - rewrite (round64_pos q Hp), (round64_neg (- q)) by lra.
    rewrite (round_pos_comp (- - q) q) by (try lra; ring). reflexivity.
  - rewrite (round64_zero q Hz), (round64_zero (- q)) by lra. reflexivity.
Qed.

Lemma round64_nonneg (q : Q) : 0 <= q -> 0 <= round64 q.
Proof.
  intros H. destruct (Qle_lt_or_eq _ _ H) as [Hp|Hz].
  - rewrite (round64_pos q Hp). apply round_pos_nonneg. exact Hp.
  - rewrite (round64_zero q) by (symmetry; exact Hz). apply Qle_refl.
Qed.

Lemma round64_monotone (p q : Q) : p <= q -> round64 p <= round64 q.
Proof.
  intros H. destruct (Q_dec p 0) as [[Hn|Hp]|Hz].
  - rewrite (round64_neg p Hn).
    destruct (Qlt_le_dec q 0) as [Hqn|Hq].
    + rewrite (round64_neg q Hqn).
      pose proof (round_pos_monotone (- q) (- p) ltac:(lra) ltac:(lra)). lra.
    + pose proof (round64_nonneg q Hq). pose proof (round_pos_nonneg (- p) ltac:(lra)). lra.
  - rewrite (round64_pos p Hp), (round64_pos q) by lra.
    apply round_pos_monotone; assumption.
  - rewrite (round64_zero p Hz). apply round64_nonneg. lra.
Qed.

Lemma half_ulp_bound (q : Q) : 0 < q -> pow2 (exponent q) / 2 <= q * u + eta.
Proof.
  intros Hq. destruct (ilog2_spec q Hq) as [H1 _].
  pose proof (pow2_pos (-1075)) as He. fold eta in He.
  pose proof (pow2_pos (-53)) as Hu. fold u in Hu.
  unfold exponent. destruct (Z.max_spec (ilog2 q - 52) (-1074)) as [[_ ->]|[_ ->]].
  - assert (H : pow2 (-1074) / 2 == eta).
    { unfold eta. change (-1074)%Z with (-1075 + 1)%Z. rewrite pow2_succ. field. }
    rewrite H. nra.
  - assert (H : pow2 (ilog2 q - 52) / 2 == pow2 (ilog2 q) * u).
    { unfold u. replace (ilog2 q - 52)%Z with (ilog2 q + -53 + 1)%Z by lia.
      rewrite pow2_succ, pow2_add. field. }
    rewrite H. nra.
Qed.

(** The standard model of rounding, for a non-negative number. *)
Lemma round64_error (q : Q) :
  0 <= q -> q * (1 - u) - eta <= round64 q /\ round64 q <= q * (1 + u) + eta.
Proof.
  intros H. destruct (Qle_lt_or_eq _ _ H) as [Hp|Hz].
  - rewrite (round64_pos q Hp).
    destruct (round_pos_error q Hp) as [H1 H2]. pose proof (half_ulp_bound q Hp). split; lra.
  - rewrite (round64_zero q) by (symmetry; exact Hz).
    pose proof (pow2_pos (-1075)) as He. fold eta in He. rewrite <- Hz. split; lra.
Qed.

(** Numbers that the format holds are not changed: [m * 2^e] with
    [e] at least the exponent the format gives to the number. *)
Lemma round_pos_exact (q : Q) (m : Z) (e : Z) :
  0 < q -> q == inject_Z m * pow2 e -> (exponent q <= e)%Z -> round_pos q == q.
Proof.
  intros Hq Hv He. rewrite round_pos_value.
  set (E := exponent q) in *.
  assert (Hx : q / pow2 E == inject_Z (m * 2 ^ (e - E))).
  { rewrite inject_Z_mult, <- pow2_int by lia. rewrite Hv, pow2_sub. field.
    pose proof (pow2_pos E). lra. }
  rewrite (rne_comp _ _ Hx), rne_int, <- Hx. apply div_pow2.
Qed.

Lemma ilog2_int (n : Z) : (0 < n)%Z -> ilog2 (inject_Z n) = Z.log2 n.
Proof.
  intros Hn. destruct (Z.log2_spec n Hn) as [H1 H2]. pose proof (Z.log2_nonneg n).
  apply ilog2_unique.
  - rewrite pow2_int by lia. rewrite <- Zle_Qle. exact H1.
  - rewrite pow2_int by lia. rewrite <- Zlt_Qlt.
    replace (Z.log2 n + 1)%Z with (Z.succ (Z.log2 n)) by lia. exact H2.
Qed.

(** Integers below 2^53 are floats. *)
Lemma round64_int (n : Z) : (Z.abs n < 2 ^ 53)%Z -> round64 (inject_Z n) == inject_Z n.
Proof.
  assert (Hpos : forall n, (0 < n < 2 ^ 53)%Z -> round_pos (inject_Z n) == inject_Z n).
  { intros k Hk. apply (round_pos_exact _ k 0).
    - change 0 with (inject_Z 0). rewrite <- Zlt_Qlt. lia.
    - change (pow2 0) with 1. ring.
    - unfold exponent. rewrite ilog2_int by lia.
      assert (Z.log2 k < 53)%Z by (apply Z.log2_lt_pow2; lia). lia. }
  intros Hn. destruct (Z.lt_trichotomy n 0) as [Hneg|[->|Hp]].
  - rewrite round64_neg by (change 0 with (inject_Z 0); rewrite <- Zlt_Qlt; lia).
    rewrite (round_pos_comp (- inject_Z n) (inject_Z (- n))).
    + rewrite Hpos by lia. rewrite inject_Z_opp. ring.
    + rewrite <- inject_Z_opp. change 0 with (inject_Z 0). rewrite <- Zlt_Qlt. lia.
    + rewrite inject_Z_opp. reflexivity.
  - reflexivity.
  - rewrite round64_pos by (change 0 with (inject_Z 0); rewrite <- Zlt_Qlt; lia).
    apply Hpos. lia.
Qed.

(** ** Durations *)

Lemma u_value : u == 1 # 9007199254740992.
Proof. reflexivity. Qed.

Lemma eta_small : 0 < eta /\ eta <= 1 # 1267650600228229401496703205376.
Proof. split; [apply pow2_pos | vm_compute; discriminate]. Qed.

Lemma round64_1 : round64 1 = 1.
Proof. vm_compute. reflexivity. Qed.

Lemma round64_0 : round64 0 = 0.
Proof. reflexivity. Qed.

(** A rounded ratio stays a ratio. *)
Lemma round64_unit (q : Q) : 0 <= q -> q <= 1 -> 0 <= round64 q /\ round64 q <= 1.
Proof.
  intros H0 H1. split; [apply round64_nonneg; exact H0|].
  rewrite <- round64_1. apply round64_monotone. exact H1.
Qed.

Lemma Qmult_le_l' (a b c : Q) : a <= b -> 0 <= c -> c * a <= c * b.
Proof. intros H Hc. rewrite !(Qmult_comm c). apply Qmult_le_compat_r; assumption. Qed.

(** One share: the rounded product of the duration and the rounded ratio. *)
Lemma share_error (D rho : Q) :
  0 <= D -> 0 <= rho -> rho <= 1 ->
  D * rho - (2 * u * D + (D + 1) * eta) <= fmul D (round64 rho)
  /\ fmul D (round64 rho) <= D * rho + (2 * u * D + (D + 1) * eta)
  /\ 0 <= fmul D (round64 rho).
Proof.
  intros HD H0 H1. unfold fmul.
  destruct (round64_unit rho H0 H1) as [Hr0 Hr1].
  destruct (round64_error rho H0) as [Hr2 Hr3].
  assert (Hp : 0 <= D * round64 rho) by (apply Qmult_le_0_compat; assumption).
  destruct (round64_error _ Hp) as [Hx1 Hx2].
  pose proof (round64_nonneg _ Hp) as Hx0.
  destruct eta_small as [He _]. pose proof u_value as Hu.
  set (r := round64 rho) in *. set (x := round64 (D * r)) in *.
  assert (Hu0 : 0 < u) by (rewrite Hu; reflexivity).
  assert (Hu1 : u <= 1) by (rewrite Hu; discriminate).
  assert (A1 : D * (rho * (1 - u) - eta) <= D * r) by (apply Qmult_le_l'; assumption).
  assert (A2 : D * r <= D * (rho * (1 + u) + eta)) by (apply Qmult_le_l'; assumption).
  assert (A3 : D * r <= D * 1) by (apply Qmult_le_l'; assumption).
  assert (A4 : D * rho <= D * 1) by (apply Qmult_le_l'; assumption).
  assert (A5 : u * (D * r) <= u * (D * 1))
    by (apply Qmult_le_l'; [exact A3 | apply Qlt_le_weak; exact Hu0]).
  assert (A6 : u * (D * rho) <= u * (D * 1))
    by (apply Qmult_le_l'; [exact A4 | apply Qlt_le_weak; exact Hu0]).
  split; [|split; [|exact Hx0]]; lra.
Qed.

Lemma fold_left_Qplus_acc (l : list Q) (a : Q) :
  fold_left Qplus l a == a + sum_Q l.
Proof.
  unfold sum_Q. revert a. induction l as [|x l IH]; intros a; simpl.
  - ring.
  - rewrite (IH (a + x)), (IH (0 + x)). ring.
Qed.

Lemma sum_Q_cons (x : Q) (l : list Q) : sum_Q (x :: l) == x + sum_Q l.
Proof.
  unfold sum_Q at 1. simpl. rewrite fold_left_Qplus_acc. ring.
Qed.

Lemma sum_Q_app (l1 l2 : list Q) : sum_Q (l1 ++ l2) == sum_Q l1 + sum_Q l2.
Proof.
  induction l1 as [|x l1 IH]; simpl.
  - unfold sum_Q at 2. simpl. ring.
  - rewrite !sum_Q_cons, IH. ring.
Qed.

Lemma Q_of_nat_add (a b : nat) : Q_of_nat (a + b) == Q_of_nat a + Q_of_nat b.
Proof. unfold Q_of_nat. rewrite Nat2Z.inj_add, inject_Z_plus. reflexivity. Qed.

Lemma Q_of_nat_pos (n : nat) : (0 < n)%nat -> 0 < Q_of_nat n.
Proof.
  intros H. unfold Q_of_nat. replace 0 with (inject_Z 0) by reflexivity.
  rewrite <- Zlt_Qlt. lia.
Qed.

Lemma sum_Q_ratios (f : string -> nat) (l : list string) (d t : Q) :
  sum_Q (map (fun s => d * (Q_of_nat (f s) / t)) l)
  == d * (Q_of_nat (list_sum (map f l)) / t).
Proof.
  induction l as [|s l IH]; simpl.
  - unfold sum_Q, Q_of_nat, Qdiv. simpl. ring.
  - rewrite sum_Q_cons, IH, Q_of_nat_add. unfold Qdiv. ring.
Qed.

Lemma sum_Q_constant {A} (l : list A) (c : Q) :
  sum_Q (map (fun _ => c) l) == Q_of_nat (List.length l) * c.
Proof.
  induction l as [|x l IH]; simpl.
  - unfold sum_Q, Q_of_nat. simpl. ring.
  - rewrite sum_Q_cons, IH. change (S (List.length l)) with (1 + List.length l)%nat.
    rewrite Q_of_nat_add. unfold Q_of_nat at 2. simpl. ring.
Qed.
Lemma Qgtb_false (a b : Q) : a <= b -> Qgtb a b = false.
Proof. intros H. unfold Qgtb. apply Qle_bool_iff in H. rewrite H. reflexivity. Qed.

Lemma Qgtb_true (a b : Q) : b < a -> Qgtb a b = true.
Proof.
  intros H. unfold Qgtb. destruct (Qle_bool a b) eqn:E; [|reflexivity].
  apply Qle_bool_iff in E. exfalso. apply (Qlt_irrefl b). eapply Qlt_le_trans; eassumption.
Qed.

Lemma Qgtb_spec (a b : Q) : Qgtb a b = true <-> b < a.
Proof.
  split; [|apply Qgtb_true].
  unfold Qgtb. intros H. destruct (Qle_bool a b) eqn:E; [discriminate|].
  apply Qnot_le_lt. intros Hle. apply Qle_bool_iff in Hle. congruence.
Qed.

Lemma Q_of_nat_S (n : nat) : Q_of_nat (S n) == Q_of_nat n + 1.
Proof. change (S n) with (1 + n)%nat. rewrite Q_of_nat_add. unfold Q_of_nat at 1. simpl. ring. Qed.

Lemma Q_of_nat_nonneg (n : nat) : 0 <= Q_of_nat n.
Proof. unfold Q_of_nat. change 0 with (inject_Z 0). rewrite <- Zle_Qle. lia. Qed.

Lemma sum_Q_nonneg (l : list Q) : Forall (fun x => 0 <= x) l -> 0 <= sum_Q l.
Proof.
  induction 1 as [|x l Hx _ IH]; [apply Qle_refl|]. rewrite sum_Q_cons. lra.
Qed.

(** Sums of values that are near each other are near each other. *)
Lemma sum_Q_near {A} (f g : A -> Q) (c : Q) (l : list A) :
  (forall s, In s l -> g s - c <= f s /\ f s <= g s + c) ->
  sum_Q (map g l) - Q_of_nat (List.length l) * c <= sum_Q (map f l)
  /\ sum_Q (map f l) <= sum_Q (map g l) + Q_of_nat (List.length l) * c.
Proof.
  induction l as [|s l IH]; intros H.
  - cbn [map List.length]. change (Q_of_nat 0) with 0. split; lra.
  - cbn [map List.length]. rewrite !sum_Q_cons, Q_of_nat_S.
    destruct (H s (or_introl eq_refl)) as [H1 H2].
    destruct IH as [I1 I2]; [intros t Ht; apply H; right; exact Ht|].
    split; lra.
Qed.

(** The error of a left-to-right float sum of non-negative terms whose
    partial sums stay below [B]: at most [u * B + eta] for each term. *)
Lemma float_sum_error (B : Q) (l : list Q) :
  0 <= B ->
  forall a,
    Forall (fun x => 0 <= x) l -> 0 <= a ->
    a + sum_Q l + Q_of_nat (List.length l) * (u * B + eta) <= B ->
    a + sum_Q l - Q_of_nat (List.length l) * (u * B + eta) <= fold_left fadd l a
    /\ fold_left fadd l a <= a + sum_Q l + Q_of_nat (List.length l) * (u * B + eta).
Proof.
  intros HB. destruct eta_small as [He _].
  assert (Hu0 : 0 < u) by (rewrite u_value; reflexivity).
  induction l as [|x l IH]; intros a Hall Ha Hb.
  - cbn [fold_left List.length]. change (Q_of_nat 0) with 0.
    change (sum_Q []) with 0. split; lra.
  - inversion Hall as [|? ? Hx Hl]; subst.
    cbn [fold_left List.length] in *. rewrite sum_Q_cons, Q_of_nat_S in *.
    pose proof (sum_Q_nonneg l Hl) as Hs. pose proof (Q_of_nat_nonneg (List.length l)) as Hn.
    assert (Hd : 0 <= u * B + eta) by nra.
    assert (Hnd : 0 <= Q_of_nat (List.length l) * (u * B + eta))
      by (apply Qmult_le_0_compat; assumption).
    assert (Hax : 0 <= a + x) by lra.
    unfold fadd at 2 4.
    destruct (round64_error (a + x) Hax) as [E1 E2].
    pose proof (round64_nonneg (a + x) Hax) as E0.
    assert (Haxb : u * (a + x) <= u * B)
      by (apply Qmult_le_l'; [lra | apply Qlt_le_weak; exact Hu0]).
    set (a' := round64 (a + x)) in *.
    destruct (IH a' Hl E0) as [I1 I2]; [lra|].
    split; lra.
Qed.

Lemma of_Z_small (n : Z) : (Z.abs n < 2 ^ 53)%Z -> of_Z n == inject_Z n.
Proof. apply round64_int. Qed.

Lemma word_ratio_exact (wc W n : nat) :
  (Z.of_nat n < 2 ^ 53)%Z -> word_ratio wc W n = round64 (exact_ratio wc W n).
Proof.
  intros Hn. unfold word_ratio, exact_ratio. destruct (0 <? W)%nat; [reflexivity|].
  unfold fdiv. apply round64_comp. rewrite of_Z_small by lia. reflexivity.
Qed.

Lemma word_count_le_total (segments : list string) (s : string) :
  In s segments -> (word_count s <= list_sum (map word_count segments))%nat.
Proof.
  induction segments as [|x l IH]; intros H; [contradiction|].
  simpl. destruct H as [->|H]; [lia|]. specialize (IH H). lia.
Qed.

Lemma Q_of_nat_le (a b : nat) : (a <= b)%nat -> Q_of_nat a <= Q_of_nat b.
Proof. intros H. unfold Q_of_nat. rewrite <- Zle_Qle. lia. Qed.

Lemma exact_ratio_unit (segments : list string) (s : string) :
  In s segments ->
  0 <= exact_ratio (word_count s) (list_sum (map word_count segments)) (List.length segments)
  /\ exact_ratio (word_count s) (list_sum (map word_count segments)) (List.length segments) <= 1.
Proof.
  intros Hin. unfold exact_ratio.
  destruct (Nat.ltb_spec 0 (list_sum (map word_count segments))) as [HW|HW].
  - pose proof (Q_of_nat_pos _ HW) as HWq.
    pose proof (Q_of_nat_nonneg (word_count s)) as Hw.
    pose proof (Q_of_nat_le _ _ (word_count_le_total _ _ Hin)) as Hle.
    split.
    + apply Qle_shift_div_l; [exact HWq | rewrite Qmult_0_l; exact Hw].
    + apply Qle_shift_div_r; [exact HWq | rewrite Qmult_1_l; exact Hle].
  - assert (Hn : (0 < List.length segments)%nat) by (destruct segments; [contradiction | simpl; lia]).
    pose proof (Q_of_nat_pos _ Hn) as Hnq.
    assert (H1 : 1 <= Q_of_nat (List.length segments)).
    { change 1 with (Q_of_nat 1). apply Q_of_nat_le. lia. }
    split.
    + apply Qle_shift_div_l; [exact Hnq | rewrite Qmult_0_l; discriminate].
    + apply Qle_shift_div_r; [exact Hnq | rewrite Qmult_1_l; exact H1].
Qed.

(** The shares before rounding add up to the duration. *)
Lemma exact_shares_sum (segments : list string) (D : Q) :
  segments <> [] ->
  sum_Q (map (fun s => D * exact_ratio (word_count s) (list_sum (map word_count segments))
                             (List.length segments)) segments) == D.
Proof.
  intros Hne. unfold exact_ratio.
  destruct (Nat.ltb_spec 0 (list_sum (map word_count segments))) as [HW|HW].
  - rewrite sum_Q_ratios. pose proof (Q_of_nat_pos _ HW) as Ht.
    field. intros Heq. rewrite Heq in Ht. apply (Qlt_irrefl 0). exact Ht.
  - rewrite sum_Q_constant.
    assert (Hlen : 0 < Q_of_nat (List.length segments)).
    { apply Q_of_nat_pos. destruct segments; [congruence | simpl; lia]. }
    field. intros Heq. rewrite Heq in Hlen. apply (Qlt_irrefl 0). exact Hlen.
Qed.

Lemma proportional_durations_rounded (segments : list string) (D : Q) :
  (Z.of_nat (List.length segments) < 2 ^ 53)%Z ->
  proportional_durations segments D
  = map (fun s => fmul D (round64 (exact_ratio (word_count s)
                                     (list_sum (map word_count segments))
                                     (List.length segments)))) segments.
Proof.
  intros Hn. unfold proportional_durations. apply map_ext. intros s.
  rewrite word_ratio_exact by exact Hn. reflexivity.
Qed.

(** For at most 2^20 segments and at most 2^25 seconds the shares are
    non-negative and their sum, exact or as Python computes it, is within
    1/32 s of the duration. *)
Lemma shares_accurate (segments : list string) (D : Q) :
  segments <> [] ->
  (Z.of_nat (List.length segments) <= 2 ^ 20)%Z ->
  0 <= D -> D <= 33554432 ->
  Forall (fun x => 0 <= x) (proportional_durations segments D)
  /\ D - (1 # 64) <= sum_Q (proportional_durations segments D)
  /\ sum_Q (proportional_durations segments D) <= D + (1 # 64)
  /\ D - (1 # 32) <= float_sum (proportional_durations segments D)
  /\ float_sum (proportional_durations segments D) <= D + (1 # 32).
Proof.
  intros Hne Hn HD0 HD1.
  rewrite proportional_durations_rounded by lia.
  set (rho := fun s => exact_ratio (word_count s) (list_sum (map word_count segments))
                         (List.length segments)).
  set (c := 2 * u * D + (D + 1) * eta).
  destruct eta_small as [He0 He1]. pose proof u_value as Hu.
  assert (HDe : D * eta <= 33554432 * eta)
    by (apply Qmult_le_compat_r; [exact HD1 | apply Qlt_le_weak; exact He0]).
  assert (HDe0 : 0 <= D * eta) by (apply Qmult_le_0_compat; lra).
  assert (Hc0 : 0 <= c) by (unfold c; rewrite Hu; lra).
  assert (Hc1 : c <= 1 # 100000000) by (unfold c; rewrite Hu; lra).
  assert (Hshare : forall s, In s segments ->
            D * rho s - c <= fmul D (round64 (rho s))
            /\ fmul D (round64 (rho s)) <= D * rho s + c
            /\ 0 <= fmul D (round64 (rho s))).
  { intros s Hs. destruct (exact_ratio_unit segments s Hs) as [H0 H1].
    apply share_error; assumption. }
  assert (Hpos : Forall (fun x => 0 <= x) (map (fun s => fmul D (round64 (rho s))) segments)).
  { apply List.Forall_map. apply List.Forall_forall. intros s Hs. apply (Hshare s Hs). }
  destruct (sum_Q_near (fun s => fmul D (round64 (rho s))) (fun s => D * rho s) c segments)
    as [S1 S2].
  { intros s Hs. destruct (Hshare s Hs) as (H1 & H2 & _). split; assumption. }
  assert (Hsum : sum_Q (map (fun s => D * rho s) segments) == D)
    by (apply exact_shares_sum; exact Hne).
  rewrite Hsum in S1, S2.
  pose proof (Q_of_nat_nonneg (List.length segments)) as HN0.
  assert (HN1 : Q_of_nat (List.length segments) <= 1048576).
  { unfold Q_of_nat. change 1048576 with (inject_Z (2 ^ 20)). rewrite <- Zle_Qle. exact Hn. }
  set (N := Q_of_nat (List.length segments)) in *.
  assert (HNc : N * c <= 1048576 * (1 # 100000000)).
  { apply Qle_trans with (1048576 * c).
    - apply Qmult_le_compat_r; assumption.
    - apply Qmult_le_l'; [exact Hc1 | discriminate]. }
  assert (HNc0 : 0 <= N * c) by (apply Qmult_le_0_compat; assumption).
  set (xs := map (fun s => fmul D (round64 (rho s))) segments) in *.
  set (B := 67108864).
  assert (Hd0 : 0 <= u * B + eta) by (unfold B; rewrite Hu; lra).
  assert (Hd1 : u * B + eta <= 1 # 100000000) by (unfold B; rewrite Hu; lra).
  assert (HNd : N * (u * B + eta) <= 1048576 * (1 # 100000000)).
  { apply Qle_trans with (1048576 * (u * B + eta)).
    - apply Qmult_le_compat_r; assumption.
    - apply Qmult_le_l'; [exact Hd1 | discriminate]. }
  assert (HNd0 : 0 <= N * (u * B + eta)) by (apply Qmult_le_0_compat; assumption).
  assert (Hlen : List.length xs = List.length segments) by (unfold xs; apply length_map).
  destruct (float_sum_error B xs ltac:(discriminate) 0 Hpos (Qle_refl 0)) as [F1 F2].
  { rewrite Hlen. fold N. set (P := N * c) in *. set (R := N * (u * B + eta)) in *.
    unfold B. clearbody P R. lra. }
  rewrite Hlen in F1, F2. fold N in F1, F2.
  change (fold_left fadd xs 0) with (float_sum xs) in F1, F2.
  set (P := N * c) in *. set (R := N * (u * B + eta)) in *. clearbody P R.
  split; [exact Hpos|]. clear - S1 S2 F1 F2 HNc HNd HNc0 HNd0. subst xs rho. cbv beta in *.
  repeat split; lra.
Qed.

Lemma Qabs_le_iff (x c : Q) : Qabs x <= c <-> - c <= x /\ x <= c.
Proof. apply Qabs_Qle_condition. Qed.

Lemma round64_small (x c : Q) :
  round64 c = c -> round64 (- c) = - c -> - c <= x -> x <= c ->
  - c <= round64 x /\ round64 x <= c.
Proof.
  intros Hc Hn H1 H2. split.
  - rewrite <- Hn. apply round64_monotone. exact H1.
  - rewrite <- Hc. apply round64_monotone. exact H2.
Qed.

(** A drift of at most 1/32 s is not corrected. *)
Lemma correct_drift_idle (ds : list Q) (D : Q) :
  D - (1 # 32) <= float_sum ds -> float_sum ds <= D + (1 # 32) ->
  correct_drift ds D = Ok ds.
Proof.
  intros H1 H2. unfold correct_drift, fsub.
  destruct (round64_small (D - float_sum ds) (1 # 32)) as [R1 R2];
    [reflexivity | reflexivity | lra | lra |].
  rewrite Qgtb_false; [reflexivity|].
  apply Qle_trans with (1 # 32); [apply Qabs_le_iff; split; assumption|].
  vm_compute. discriminate.
Qed.

(** For at most 2^20 segments and at most 2^25 seconds, no correction is
    made: the durations are the shares. *)
Lemma segment_durations_in_range (segments : list string) (D : Q) :
  segments <> [] ->
  (Z.of_nat (List.length segments) <= 2 ^ 20)%Z ->
  0 <= D -> D <= 33554432 ->
  segment_durations segments D = Ok (proportional_durations segments D).
Proof.
  intros Hne Hn H0 H1.
  destruct (shares_accurate segments D Hne Hn H0 H1) as (_ & _ & _ & F1 & F2).
  apply correct_drift_idle; assumption.
Qed.

(** The correction keeps the number of durations. *)
Lemma correct_drift_length (ds ds' : list Q) (D : Q) :
  correct_drift ds D = Ok ds' -> List.length ds' = List.length ds.
Proof.
  unfold correct_drift, add_to_last.
  destruct (Qgtb _ _); [|intros H; injection H as <-; reflexivity].
  destruct (rev ds) as [|x before] eqn:Hrev; [discriminate|].
  intros H. injection H as <-.
  rewrite <- (length_rev ds), Hrev, length_app, length_rev. simpl. lia.
Qed.

Lemma correct_drift_nonempty (ds : list Q) (D : Q) :
  ds <> [] -> exists ds', correct_drift ds D = Ok ds'.
Proof.
  intros Hne. unfold correct_drift, add_to_last.
  destruct (Qgtb _ _); [|eexists; reflexivity].
  destruct (rev ds) as [|x before] eqn:Hrev; [|eexists; reflexivity].
  apply (f_equal (@rev Q)) in Hrev. rewrite rev_involutive in Hrev. simpl in Hrev. congruence.
Qed.

(** For at least one segment the durations are computed, one per segment. *)
Lemma segment_durations_nonempty (segments : list string) (duration : Q) :
  segments <> [] ->
  exists ds, segment_durations segments duration = Ok ds
             /\ List.length ds = List.length segments.
Proof.
  intros Hne. unfold segment_durations.
  destruct (correct_drift_nonempty (proportional_durations segments duration) duration)
    as [ds Hds].
  { unfold proportional_durations. destruct segments; [congruence | discriminate]. }
  exists ds. split; [exact Hds|].
  rewrite (correct_drift_length _ _ _ Hds). unfold proportional_durations. apply length_map.
Qed.

Lemma round64_ge_float (x c : Q) : round64 c = c -> c <= x -> c <= round64 x.
Proof. intros Hc H. rewrite <- Hc. apply round64_monotone. exact H. Qed.

(** A share is positive when the segment has a word, for at most 2^20 words
    and at least 2^-20 seconds. *)
Lemma share_positive (D : Q) (wc W n : nat) :
  (1 <= wc)%nat -> (wc <= W)%nat -> (Z.of_nat W <= 2 ^ 20)%Z -> 1 # 1048576 <= D ->
  0 < fmul D (word_ratio wc W n).
Proof.
  intros Hwc HW Hb HD. unfold word_ratio.
  destruct (Nat.ltb_spec 0 W) as [_|]; [|lia].
  assert (Hr : 1 # 1048576 <= true_div (Z.of_nat wc) (Z.of_nat W)).
  { unfold true_div. apply round64_ge_float; [reflexivity|].
    fold (Q_of_nat wc). fold (Q_of_nat W).
    assert (HWq : 0 < Q_of_nat W) by (apply Q_of_nat_pos; lia).
    apply Qle_shift_div_l; [exact HWq|].
    assert (H1 : Q_of_nat W <= 1048576).
    { unfold Q_of_nat. change 1048576 with (inject_Z (2 ^ 20)). rewrite <- Zle_Qle. exact Hb. }
    assert (H2 : 1 <= Q_of_nat wc).
    { change 1 with (Q_of_nat 1). apply Q_of_nat_le. exact Hwc. }
    set (a := Q_of_nat W) in *. set (b := Q_of_nat wc) in *. clearbody a b. lra. }
  set (r := true_div (Z.of_nat wc) (Z.of_nat W)) in *. clearbody r.
  apply Qlt_le_trans with (1 # 1099511627776); [reflexivity|].
  unfold fmul. apply round64_ge_float; [reflexivity|].
  assert (H : (1 # 1048576) * (1 # 1048576) <= D * r).
  { apply Qle_trans with (D * (1 # 1048576)).
    - apply Qmult_le_compat_r; [exact HD | discriminate].
    - apply Qmult_le_l'; [exact Hr | lra]. }
  exact H.
Qed.

Lemma parse_word_counts (script : string) :
  Forall (fun s => (1 <= word_count s)%nat) (_parse_script_segments script)
  \/ (_parse_script_segments script = [script] /\ word_count script = 0%nat).
Proof.
  destruct (parse_shape script) as [[_ Hall]|Hone].
  - left. eapply List.Forall_impl; [|exact Hall]. intros s Hs. apply word_count_pos. exact Hs.
  - destruct (Nat.eq_dec (word_count script) 0%nat) as [Hz|Hnz].
    + right. split; assumption.
    + left. rewrite Hone. constructor; [lia | constructor].
Qed.

Lemma length_le_total (segments : list string) :
  Forall (fun s => (1 <= word_count s)%nat) segments ->
  (List.length segments <= total_words segments)%nat.
Proof.
  unfold total_words. induction 1 as [|s l Hs _ IH]; simpl; lia.
Qed.

(** C1. For every narration text of at most 2^20 words and every audio
    duration [D] between 2^-20 s and 2^25 s, the durations computed for the
    parsed segments (proportional allocation, then the correction of the last
    one, in binary64) sum to within 0.1 s of [D], both exactly and as Python
    sums them, and each of them is positive. *)
Theorem duration_sum_invariant (script : string) (D : Q) :
  (Z.of_nat (total_words (_parse_script_segments script)) <= 2 ^ 20)%Z ->
  1 # 1048576 <= D -> D <= 33554432 ->
  exists ds,
    segment_durations (_parse_script_segments script) D = Ok ds
    /\ List.length ds = List.length (_parse_script_segments script)
    /\ Qabs (sum_Q ds - D) < 1 # 10
    /\ Qabs (float_sum ds - D) < 1 # 10
    /\ Forall (fun d => 0 < d) ds.
Proof.
  intros HW HD0 HD1. pose proof (parse_nonempty script) as Hne.
  set (segments := _parse_script_segments script) in *.
  assert (Hn : (Z.of_nat (List.length segments) <= 2 ^ 20)%Z).
  { destruct (parse_word_counts script) as [Hall|[Hone _]].
    - pose proof (length_le_total _ Hall). fold segments in H. lia.
    - fold segments in Hone. rewrite Hone. simpl. lia. }
  exists (proportional_durations segments D).
  split; [apply segment_durations_in_range; [exact Hne | exact Hn | lra | exact HD1]|].
  split; [unfold proportional_durations; apply length_map|].
  destruct (shares_accurate segments D Hne Hn ltac:(lra) HD1) as (_ & S1 & S2 & F1 & F2).
  split; [|split].
  - apply Qle_lt_trans with (1 # 64); [apply Qabs_le_iff; split; lra | reflexivity].
  - apply Qle_lt_trans with (1 # 32); [apply Qabs_le_iff; split; lra | reflexivity].
  - unfold proportional_durations. apply List.Forall_map.
    destruct (parse_word_counts script) as [Hall|[Hone Hz]].
    + fold segments in Hall. apply List.Forall_forall. intros s Hs.
      apply share_positive; [|apply word_count_le_total; exact Hs | exact HW | exact HD0].
      rewrite List.Forall_forall in Hall. apply Hall. exact Hs.
    + fold segments in Hone. rewrite Hone. constructor; [|constructor].
      assert (Ht : list_sum (map word_count [script]) = 0%nat) by (simpl; lia).
      rewrite Ht, Hz.
      assert (Hr : word_ratio 0 0 (List.length [script]) = 1) by (vm_compute; reflexivity).
      rewrite Hr.
      apply Qlt_le_trans with (1 # 1048576); [reflexivity|].
      unfold fmul. apply round64_ge_float; [reflexivity|]. lra.
Qed.

Lemma duration_sum_invariant_witness :
  exists ds,
    segment_durations
      (_parse_script_segments "The door creaked. Nobody was there! Or so I thought. Then it spoke.")
      (round64 (124 # 10)) = Ok ds
    /\ List.length ds
       = List.length
           (_parse_script_segments
              "The door creaked. Nobody was there! Or so I thought. Then it spoke.")
    /\ Qabs (sum_Q ds - round64 (124 # 10)) < 1 # 10
    /\ Qabs (float_sum ds - round64 (124 # 10)) < 1 # 10
    /\ Forall (fun d => 0 < d) ds.
Proof.
  apply (duration_sum_invariant
           "The door creaked. Nobody was there! Or so I thought. Then it spoke."
           (round64 (124 # 10))); vm_compute; discriminate.
Defined.

(** C1 does not hold for every duration: for the smallest positive float
    every share of three one-word paragraphs rounds to zero, and for
    2^50 + 1/4 seconds the corrected durations still sum to more than 0.1 s
    away from the duration. *)
Theorem duration_sum_not_universal :
  binary64 tiny_duration /\ 0 < tiny_duration
  /\ binary64 huge_duration
  /\ segment_durations (_parse_script_segments three_paragraphs) tiny_duration = Ok [0; 0; 0]
  /\ exists ds,
       segment_durations (_parse_script_segments three_paragraphs) huge_duration = Ok ds
       /\ 1 # 10 < Qabs (sum_Q ds - huge_duration)
       /\ 1 # 10 < Qabs (float_sum ds - huge_duration).
Proof.
  split; [split; vm_compute; reflexivity|].
  split; [reflexivity|].
  split; [split; vm_compute; reflexivity|].
  split; [vm_compute; reflexivity|].
  eexists. split; [vm_compute; reflexivity|].
  split; vm_compute; reflexivity.
Qed.


(** C6. When the total word count is positive each segment is allocated
    [audio_duration * (segment_word_count / total_word_count)], the quotient
    and the product each rounded to binary64; when it is zero the duration is
    shared equally; for at most 2^20 segments and 2^25 seconds the allocated
    durations are the final ones (no correction is made); for word counts 10,
    20, 30 and 60 s the durations are exactly 10, 20 and 30 s. *)
Theorem proportional_allocation (segments : list string) (duration : Q) :
  ((0 < total_words segments)%nat ->
   proportional_durations segments duration
   = map (fun segment =>
            fmul duration
              (true_div (Z.of_nat (word_count segment)) (Z.of_nat (total_words segments))))
         segments)
  /\ (total_words segments = 0%nat ->
      proportional_durations segments duration
      = map (fun _ => fmul duration (fdiv 1 (of_Z (Z.of_nat (List.length segments)))))
            segments)
  /\ (segments <> [] -> (Z.of_nat (List.length segments) <= 2 ^ 20)%Z ->
      0 <= duration -> duration <= 33554432 ->
      segment_durations segments duration = Ok (proportional_durations segments duration))
  /\ (map word_count segments = [10; 20; 30]%nat ->
      segment_durations segments 60 = Ok [10; 20; 30]).
Proof.
  split; [|split; [|split]].
  - intros Hpos. unfold proportional_durations, word_ratio, total_words in *.
    apply Nat.ltb_lt in Hpos. rewrite Hpos. reflexivity.
  - intros Hz. unfold proportional_durations, word_ratio, total_words in *.
    rewrite Hz. reflexivity.
  - apply segment_durations_in_range.
  - intros Hwc.
    destruct segments as [|a [|b [|c [|]]]]; try discriminate.
    injection Hwc as Ha Hb Hc.
    unfold segment_durations, proportional_durations. cbn [map List.length list_sum fold_right].
    rewrite Ha, Hb, Hc. vm_compute. reflexivity.
Qed.

Lemma proportional_allocation_witness :
  proportional_durations [ten_words; twenty_words; thirty_words] (round64 (124 # 10))
  = [fmul (round64 (124 # 10)) (true_div 10 60);
     fmul (round64 (124 # 10)) (true_div 20 60);
     fmul (round64 (124 # 10)) (true_div 30 60)]
  /\ proportional_durations [""; " "] (round64 (124 # 10))
     = [fmul (round64 (124 # 10)) (fdiv 1 (of_Z 2));
        fmul (round64 (124 # 10)) (fdiv 1 (of_Z 2))]
  /\ segment_durations [ten_words; twenty_words; thirty_words] (round64 (124 # 10))
     = Ok (proportional_durations [ten_words; twenty_words; thirty_words] (round64 (124 # 10)))
  /\ segment_durations [ten_words; twenty_words; thirty_words] 60 = Ok [10; 20; 30].
Proof.
  split; [|split; [|split]].
  - apply (proj1 (proportional_allocation [ten_words; twenty_words; thirty_words]
                    (round64 (124 # 10)))).
    vm_compute. lia.
  - apply (proj1 (proj2 (proportional_allocation [""; " "] (round64 (124 # 10))))).
    reflexivity.
  - apply (proj1 (proj2 (proj2 (proportional_allocation
                                  [ten_words; twenty_words; thirty_words]
                                  (round64 (124 # 10)))))).
    + discriminate.
    + vm_compute. discriminate.
    + vm_compute. discriminate.
    + vm_compute. discriminate.
  - apply (proj2 (proj2 (proj2 (proportional_allocation
                                  [ten_words; twenty_words; thirty_words] 0)))).
    reflexivity.
Defined.

Local Close Scope Q_scope.

(** ** Images and backgrounds *)

Lemma fetch_fails (E : env) (url path : string) (create : M unit) (w : world) :
  match media_get E url with
  | ConnectionFailed => True
  | Response status body => is_error_status status = true \/ body = None
  end ->
  exists e w', fetch E url path create w = (Raise e, w').
Proof.
  unfold fetch, bind, log. simpl.
  destruct (media_get E url) as [|status body]; intros H.
  - eexists _, _. reflexivity.
  - destruct (is_error_status status) eqn:Hs.
    + eexists _, _. reflexivity.
    + destruct H as [H|H]; [discriminate|]. subst body.
      destruct (create _) as [[[]|e] w']; eexists _, _; reflexivity.
Qed.

Lemma download_photos_fails (E : env) (photos : list pexels_photo) :
  existsb (photo_download_fails E) photos = true ->
  forall i image_paths w, exists e w',
    download_photos E i photos image_paths w = (Raise e, w').
Proof.
  induction photos as [|photo rest IH]; simpl; [discriminate|].
  intros H i image_paths w.
  unfold photo_download_fails in H at 1.
  destruct (ph_large2x photo) as [img_url|] eqn:Hurl.
  - unfold bind.
    destruct (fetch E img_url _ _ w) as [[[]|e] w1] eqn:Hfetch.
    + apply orb_true_iff in H. destruct H as [H|H]; [|apply IH; exact H].
      exfalso.
      destruct (fetch_fails E img_url
                  (path_join "assets/images" ("pexels_" +:+ str_of_nat i +:+ ".jpg"))
                  (add_image_file ("pexels_" +:+ str_of_nat i +:+ ".jpg")) w) as (e & w' & He).
      * destruct (media_get E img_url) as [|status body]; [exact I|].
        apply orb_true_iff in H. destruct H as [H|H]; [left; exact H|].
        right. destruct body; [discriminate | reflexivity].
      * rewrite He in Hfetch. discriminate.
    + eexists _, _. reflexivity.
  - eexists _, _. reflexivity.
Qed.

(** [_download_pexels_images] never raises. *)
Lemma download_pexels_images_total (self : VideoGenerator) (E : env) (topic : string)
    (count : nat) (w : world) :
  exists image_paths w',
    _download_pexels_images self E topic count w = (Ok image_paths, w').
Proof.
  unfold _download_pexels_images.
  destruct (configured (pexels_api_key self)); simpl.
  - unfold catch. destruct (pexels_try E topic count w) as [[paths|e] w'];
      eexists _, _; reflexivity.
  - eexists _, _. reflexivity.
Qed.

Lemma download_pexels_images_failure (self : VideoGenerator) (E : env) (topic : string)
    (count : nat) (w : world) :
  image_acquisition_fails self E topic count ->
  fst (_download_pexels_images self E topic count w) = Ok [].
Proof.
  intros Hfail. unfold _download_pexels_images.
  destruct (configured (pexels_api_key self)) eqn:Hkey; simpl; [|reflexivity].
  unfold catch, pexels_try, bind, log. simpl.
  destruct Hfail as [Hk|Hreq|status body Hreq Hst|status Hreq|status Hreq|status photos Hreq Hdl].
  - congruence.
  - rewrite Hreq. reflexivity.
  - rewrite Hreq, Hst. reflexivity.
  - rewrite Hreq. destruct (is_error_status status); reflexivity.
  - rewrite Hreq. destruct (is_error_status status); reflexivity.
  - rewrite Hreq. destruct (is_error_status status); [reflexivity|].
    destruct photos as [|photo rest]; [reflexivity|].
    match goal with
    | |- context [download_photos E 0 ?ps [] ?w0] =>
        destruct (download_photos_fails E ps Hdl 0 [] w0) as (e & w' & He); rewrite He
    end.
    reflexivity.
Qed.

Lemma random_choice_in {A} (E : env) (l : list A) (w : world) :
  l <> [] ->
  exists x w', random_choice E l w = (Ok x, w') /\ List.In x l /\ trace w' = trace w.
Proof.
  intros Hne. destruct l as [|a l]; [congruence|].
  unfold random_choice, bind, draw, ret.
  eexists _, _. split; [reflexivity|]. split; [|reflexivity].
  apply nth_In. apply Nat.mod_upper_bound. simpl. lia.
Qed.

(** With no image path every clip of the loop gets a generated background. *)
Lemma clip_loop_fallback (self : VideoGenerator) (E : env) (durations : list Q)
    (title : string) (segments : list string) :
  forall i w, i + List.length segments <= List.length durations ->
  exists clips w',
    clip_loop self E durations [] title i segments w = (Ok clips, w')
    /\ List.length clips = List.length segments
    /\ Forall (fun c => procedural self (cc_background c)) clips.
Proof.
  induction segments as [|text rest IH]; intros i w Hlen; simpl in *.
  - eexists _, _. split; [reflexivity|]. split; [reflexivity | constructor].
  - destruct (nth_error durations i) as [seg_duration|] eqn:Hnth.
    2:{ apply nth_error_None in Hnth. lia. }
    assert (Hnone : nth_error (@nil string) i = None) by (destruct i; reflexivity).
    rewrite Hnone. unfold bind at 1. unfold _create_fallback_background, bind at 1.
    destruct (random_choice_in E fallback_colors w) as (color & w1 & Hc & Hin & _);
      [discriminate|].
    rewrite Hc. unfold ret at 1. unfold bind at 1.
    destruct (IH (S i) w1) as (clips & w2 & Hloop & Hl & Hall); [lia|].
    rewrite Hloop. eexists _, _. split; [reflexivity|].
    split; [simpl; lia|].
    constructor; [|exact Hall]. simpl. split; [exact Hin | reflexivity].
Qed.

(** C5. Image acquisition never raises and returns the empty list on every
    failure; and with an empty image list the clip loop makes one clip per
    segment, each on a generated dark background. *)
Theorem graceful_image_degradation (self : VideoGenerator) (E : env) (topic : string)
    (count : nat) (w : world) :
  (exists image_paths w',
     _download_pexels_images self E topic count w = (Ok image_paths, w'))
  /\ (image_acquisition_fails self E topic count ->
      fst (_download_pexels_images self E topic count w) = Ok [])
  /\ (forall script duration title,
      exists clips w',
        _create_clips_with_typewriter self E (_parse_script_segments script) []
          duration title w = (Ok clips, w')
        /\ List.length clips = List.length (_parse_script_segments script)
        /\ Forall (fun c => procedural self (cc_background c)) clips).
Proof.
  split; [apply download_pexels_images_total|].
  split; [apply download_pexels_images_failure|].
  intros script duration title. unfold _create_clips_with_typewriter.
  destruct (segment_durations_nonempty (_parse_script_segments script) duration
              (parse_nonempty script)) as (ds & Hds & Hlen).
  rewrite Hds. apply clip_loop_fallback. simpl. lia.
Qed.

Lemma graceful_image_degradation_witness :
  fst (_download_pexels_images (example_generator offline_env 1920 1080) offline_env
         "lighthouse" 3 empty_world) = Ok []
  /\ fst (_download_pexels_images
            (example_generator
               (example_env (Some "px") None None ConnectionFailed ConnectionFailed
                  (fun _ => 0) current_api) 1920 1080)
            (example_env (Some "px") None None ConnectionFailed ConnectionFailed
               (fun _ => 0) current_api)
            "lighthouse" 3 empty_world) = Ok [].
Proof.
  split.
  - apply (proj1 (proj2 (graceful_image_degradation
                           (example_generator offline_env 1920 1080) offline_env
                           "lighthouse" 3 empty_world))).
    apply MissingCredential. reflexivity.
  - apply (proj1 (proj2 (graceful_image_degradation _ _ "lighthouse" 3 empty_world))).
    apply SearchRequestFails. reflexivity.
Defined.

(** ** Captions *)

Local Open Scope Q_scope.

Lemma Qmax_lower (a b : Q) : a <= Qmax a b.
Proof.
  unfold Qmax. destruct (Qle_bool a b) eqn:E.
  - apply Qle_bool_iff. exact E.
  - apply Qle_refl.
Qed.

(** The left margin always holds. *)
Lemma caption_x_left_margin (width : Z) (text_width : Q) :
  150 <= caption_x width text_width.
Proof.
  unfold caption_x. destruct (Qgtb _ _); [apply Qle_refl | apply Qmax_lower].
Qed.

(** The right margin holds exactly for the lines that fit between the two
    margins; the reclamping to 150 never moves a line. *)
Lemma caption_x_right_margin (width : Z) (text_width : Q) :
  caption_x width text_width + text_width <= inject_Z width - 150
  <-> text_width <= inject_Z width - 300.
Proof.
  unfold caption_x.
  destruct (Qgtb (Qmax 150 ((inject_Z width - text_width) / 2) + text_width)
              (inject_Z width - 150)) eqn:Hover.
  - apply Qgtb_spec in Hover. unfold Qmax in Hover.
    destruct (Qle_bool 150 ((inject_Z width - text_width) / 2)) eqn:Hc.
    + apply Qle_bool_iff in Hc.
      assert (H1 : 150 * 2 <= (inject_Z width - text_width) / 2 * 2)
        by (apply Qmult_le_compat_r; [exact Hc | discriminate]).
      assert (H2 : (inject_Z width - text_width) / 2 * 2 == inject_Z width - text_width)
        by field.
      rewrite H2 in H1.
      assert (H3 : (inject_Z width - text_width) / 2 + text_width
                   == (inject_Z width + text_width) / 2) by field.
      rewrite H3 in Hover.
      assert (H4 : (inject_Z width - 150) * 2 < (inject_Z width + text_width) / 2 * 2)
        by (apply Qmult_lt_compat_r; [reflexivity | exact Hover]).
      assert (H5 : (inject_Z width + text_width) / 2 * 2 == inject_Z width + text_width)
        by field.
      rewrite H5 in H4. split; intros; lra.
    + split; intros; lra.
  - assert (Hle : Qmax 150 ((inject_Z width - text_width) / 2) + text_width
                  <= inject_Z width - 150).
    { apply Qnot_lt_le. intros Hlt. apply Qgtb_true in Hlt. congruence. }
    split; intros _; [|exact Hle].
    pose proof (Qmax_lower 150 ((inject_Z width - text_width) / 2)). lra.
Qed.

(** C2. On a 1080 px wide frame (the Shorts format) a 30-character line
    measured at 35 px per character is 1050 px wide: it is placed at x = 150,
    so its right edge, at 1200, is beyond the right margin at 930 and beyond
    the frame itself. *)
Theorem caption_right_margin_overflow :
  let self := example_generator offline_env 1080 1920 in
  let line := "The old house stood in silence"%string in
  let text_width := text_width_of offline_env (load_font offline_env fonts_to_try) line in
  text_width == 1050
  /\ placed_lines (_create_text_image_clip self offline_env line 5 true (Some "The House"%string))
     = [(line, 150)]
  /\ caption_x (fst (resolution self)) text_width = 150
  /\ ~ (caption_x (fst (resolution self)) text_width + text_width
        <= inject_Z (fst (resolution self)) - 150)
  /\ inject_Z (fst (resolution self)) < caption_x (fst (resolution self)) text_width + text_width.
Proof.
  cbv zeta. split; [reflexivity|]. split; [vm_compute; reflexivity|].
  split; [reflexivity|]. split; [|reflexivity].
  intros H. vm_compute in H. apply H. reflexivity.
Qed.

(** The caption does not depend on [is_title] and [title]. *)
Lemma text_image_clip_ignores_title (self : VideoGenerator) (E : env) (text : string)
    (duration : Q) (is_title : bool) (title : option string) :
  _create_typewriter_text self E text duration is_title title
  = _create_typewriter_text self E text duration false None.
Proof. reflexivity. Qed.

Lemma clip_loop_ignores_title (self : VideoGenerator) (E : env) (durations : list Q)
    (image_paths : list string) (title1 title2 : string) (segments : list string) :
  forall i w,
    clip_loop self E durations image_paths title1 i segments w
    = clip_loop self E durations image_paths title2 i segments w.
Proof.
  induction segments as [|text rest IH]; intros i w; simpl; [reflexivity|].
  destruct (nth_error durations i); [|reflexivity].
  unfold bind at 1 3.
  match goal with
  | |- context [match ?c w with _ => _ end] => destruct (c w) as [[bg|e] w1]
  end; [|reflexivity].
  unfold bind. rewrite IH. reflexivity.
Qed.

(** C3. The clips are the same whatever the title: the caption of the first
    segment carries the body text only, and the title is drawn nowhere. *)
Theorem title_not_rendered (self : VideoGenerator) (E : env) (segments image_paths : list string)
    (duration : Q) (title1 title2 : string) (w : world) :
  _create_clips_with_typewriter self E segments image_paths duration title1 w
  = _create_clips_with_typewriter self E segments image_paths duration title2 w.
Proof.
  unfold _create_clips_with_typewriter.
  destruct (segment_durations segments duration); [|reflexivity].
  apply clip_loop_ignores_title.
Qed.

(** The lines drawn on the first clip of a one-segment video. *)
Lemma first_caption_lines :
  match fst (_create_clips_with_typewriter (example_generator offline_env 1920 1080)
               offline_env ["It began at midnight."] [] 10 "The House" empty_world) with
  | Ok [clip] =>
      placed_lines (cc_text clip) = [("It began at midnight."%string, (1185 # 2))]
      /\ nodup string_dec (map dt_line (cv_draws (ic_image (cc_text clip))))
         = ["It began at midnight."%string]
  | _ => False
  end.
Proof. vm_compute. split; reflexivity. Qed.

(** ** The legibility overlay *)

(** What [__init__] fixes whatever the configuration says. *)
Lemma init_inv (E : env) (cfg : pyvalue) (self : VideoGenerator) :
  __init__ E cfg = Ok self ->
  text_overlay_opacity self = 7 # 10
  /\ music_dir self = "assets/music"%string
  /\ pixabay_api_key self = getenv_PIXABAY_API_KEY E
  /\ pexels_api_key self = getenv_PEXELS_API_KEY E
  /\ exists video, getitem cfg "video" = Ok video
                   /\ getitem video "resolution"
                      = Ok (PyList [PyInt (fst (resolution self));
                                    PyInt (snd (resolution self))]).
Proof.
  unfold __init__, result_bind. intros H.
  destruct (getitem cfg "video") as [video|]; [|discriminate].
  destruct (getitem video "resolution") as [res|] eqn:Hres; [|discriminate].
  destruct (getitem video "fps"); [|discriminate].
  destruct (dict_get cfg "assets" (PyDict [])) as [assets|]; [|discriminate].
  destruct (dict_get assets "background_music" (PyBool true)); [|discriminate].
  destruct (dict_get assets "music_volume" _); [|discriminate].
  destruct res as [| | | | |l|]; try discriminate.
  destruct l as [|[| |width| | | |] [|[| |height| | | |] [|]]]; try discriminate.
  injection H as <-. simpl. repeat split. exists video. auto.
Qed.

Lemma overlay_of_opacity (self : VideoGenerator) (duration : Q) :
  text_overlay_opacity self = 7 # 10 ->
  _create_dark_overlay self duration
  = {| ic_image := {| cv_size := resolution self; cv_fill := (0, 0, 0, 178)%Z; cv_draws := [] |};
       ic_duration := duration |}.
Proof. intros H. unfold _create_dark_overlay. rewrite H. reflexivity. Qed.

(** C10, as stated, fails: two configurations with different resolutions
    give overlays of different sizes. *)
Lemma overlay_depends_on_resolution :
  exists g1 g2,
    __init__ offline_env (example_config 1920 1080 []) = Ok g1
    /\ __init__ offline_env (example_config 1080 1920 []) = Ok g2
    /\ _create_dark_overlay g1 5 <> _create_dark_overlay g2 5.
Proof.
  eexists _, _. split; [reflexivity|]. split; [reflexivity|].
  unfold _create_dark_overlay. simpl. intros H. discriminate H.
Qed.

(** C10, amended. For every configuration the overlay is the uniform
    full-frame layer (0, 0, 0, 178), and two configurations with the same
    resolution give identical overlays whatever else they say. *)
Theorem overlay_fixed_alpha (E1 E2 : env) (cfg1 cfg2 : pyvalue) (g1 g2 : VideoGenerator)
    (duration : Q) :
  __init__ E1 cfg1 = Ok g1 -> __init__ E2 cfg2 = Ok g2 ->
  _create_dark_overlay g1 duration
  = {| ic_image := {| cv_size := resolution g1; cv_fill := (0, 0, 0, 178)%Z; cv_draws := [] |};
       ic_duration := duration |}
  /\ (resolution g1 = resolution g2 ->
      _create_dark_overlay g1 duration = _create_dark_overlay g2 duration).
Proof.
  intros H1 H2.
  apply init_inv in H1. apply init_inv in H2.
  destruct H1 as (Ho1 & _). destruct H2 as (Ho2 & _).
  rewrite !overlay_of_opacity by assumption.
  split; [reflexivity|]. intros ->. reflexivity.
Qed.

Lemma overlay_fixed_alpha_witness :
  exists g1 g2,
    __init__ offline_env
      (example_config 1080 1920 [("overlay_opacity", PyFloat (3 # 10))]%string) = Ok g1
    /\ __init__ (example_env (Some "px") (Some "pb") None ConnectionFailed ConnectionFailed
                   (fun _ => 0%nat) legacy_api)
         (example_config 1080 1920
            [("overlay_opacity", PyFloat (9 # 10));
             ("assets", PyDict [("music_volume", PyFloat (1 # 2))])]%string) = Ok g2
    /\ cv_fill (ic_image (_create_dark_overlay g1 5)) = (0, 0, 0, 178)%Z
    /\ _create_dark_overlay g1 5 = _create_dark_overlay g2 5.
Proof.
  eexists _, _. split; [reflexivity|]. split; [reflexivity|].
  pose proof (overlay_fixed_alpha offline_env
                (example_env (Some "px") (Some "pb") None ConnectionFailed ConnectionFailed
                   (fun _ => 0%nat) legacy_api)
                (example_config 1080 1920 [("overlay_opacity", PyFloat (3 # 10))]%string)
                (example_config 1080 1920
                   [("overlay_opacity", PyFloat (9 # 10));
                    ("assets", PyDict [("music_volume", PyFloat (1 # 2))])]%string)
                _ _ 5 eq_refl eq_refl) as [Hfill Hsame].
  split.
  - rewrite Hfill. reflexivity.
  - apply Hsame. reflexivity.
Defined.

Lemma init_example (E : env) (width height : Z) :
  __init__ E (example_config width height []) = Ok (example_generator E width height).
Proof. reflexivity. Qed.

(** ** Music normalization *)

Lemma int_of_Q_floor (q : Q) : 0 <= q -> int_of_Q q = Qfloor q.
Proof.
  destruct q as [n d]. unfold Qle, int_of_Q, Qfloor. simpl. intros H.
  apply Z.quot_div_nonneg; lia.
Qed.

Lemma Qfloor_ge_int (q : Q) (k : Z) : inject_Z k <= q -> (k <= Qfloor q)%Z.
Proof. intros H. rewrite <- (Qfloor_Z k). apply Qfloor_resp_le. exact H. Qed.

Lemma not_overflows (q : Q) : 0 <= q -> q <= 4503599627370496 -> overflows q = false.
Proof.
  intros H0 H1. unfold overflows. rewrite Qabs_pos by exact H0.
  assert (H : Qle_bool q max_float = true).
  { apply Qle_bool_iff. eapply Qle_trans; [exact H1|]. vm_compute. discriminate. }
  rewrite H. reflexivity.
Qed.

(** The quotient of the loop, for fewer than 2^52 copies: it is a finite
    float, and one more copy than its integer part covers the target. *)
Lemma loops_cover (target track : Q) :
  0 < track -> 0 <= target -> target < 4503599627370496 * track ->
  overflows (fdiv target track) = false
  /\ 0 <= fdiv target track
  /\ target < inject_Z (int_of_Q (fdiv target track) + 1) * track.
Proof.
  intros Htrack Htarget Hbound.
  assert (Hx0 : 0 <= target / track).
  { unfold Qdiv. apply Qmult_le_0_compat; [exact Htarget|].
    apply Qlt_le_weak, Qinv_lt_0_compat. exact Htrack. }
  assert (Hx1 : target / track <= 4503599627370496).
  { apply Qle_shift_div_r; [exact Htrack | apply Qlt_le_weak; exact Hbound]. }
  assert (Heq : target / track * track == target).
  { field. intros Hz. rewrite Hz in Htrack. apply (Qlt_irrefl 0). exact Htrack. }
  unfold fdiv. set (x := target / track) in *.
  pose proof (round64_nonneg x Hx0) as Hq0.
  assert (Hq1 : round64 x <= 4503599627370496).
  { change 4503599627370496 with (round64 4503599627370496).
    apply round64_monotone. exact Hx1. }
  split; [apply not_overflows; assumption|]. split; [exact Hq0|].
  rewrite (int_of_Q_floor _ Hq0).
  set (k := (Qfloor (round64 x) + 1)%Z).
  assert (Hk0 : (0 <= Qfloor (round64 x))%Z) by (apply (Qfloor_ge_int _ 0); exact Hq0).
  assert (Hk1 : (Qfloor (round64 x) <= 4503599627370496)%Z).
  { rewrite <- (Qfloor_Z 4503599627370496). apply Qfloor_resp_le. exact Hq1. }
  assert (Hlt : x < inject_Z k).
  { apply Qnot_le_lt. intros Hle.
    assert (Hr : inject_Z k <= round64 x).
    { rewrite <- (round64_int k) by (unfold k; lia). apply round64_monotone. exact Hle. }
    apply Qfloor_ge_int in Hr. unfold k in Hr. lia. }
  rewrite <- Heq. apply Qmult_lt_compat_r; assumption.
Qed.

Lemma loops_needed_positive (target track : Q) :
  0 < track -> 0 <= target -> target < 4503599627370496 * track ->
  (0 < int_of_Q (fdiv target track) + 1)%Z.
Proof.
  intros Htrack Htarget Hbound.
  destruct (loops_cover target track Htrack Htarget Hbound) as (_ & Hq0 & _).
  rewrite (int_of_Q_floor _ Hq0).
  assert (H : (0 <= Qfloor (fdiv target track))%Z) by (apply (Qfloor_ge_int _ 0); exact Hq0).
  lia.
Qed.

(** C8, as stated, fails: where the clips of the audio library have no
    [audio_fadein] / [audio_fadeout], the track comes back without fades. *)
Lemma fades_skipped_when_unsupported :
  match prepare_music (example_generator offline_env 1920 1080) offline_env
          "assets/music/old.mp3" 60 with
  | Ok music => ac_duration music = 60 /\ ac_copies music = 2%Z /\ ac_fades music = []
  | Raise _ => False
  end.
Proof. vm_compute. repeat split. Qed.

(** C8, amended. Whichever tier chose the path: a track of positive length
    shorter than the target (by a factor below 2^52) is repeated
    [int(target / length) + 1] times, the quotient being rounded to binary64
    before it is truncated, which covers the target; the result is trimmed
    to the target exactly and scaled by [music_volume]; the 2 s fade-in and
    3 s fade-out are applied when the clips have both fade methods, and
    skipped otherwise. *)
Theorem music_normalization (self : VideoGenerator) (E : env) (music_path : string)
    (target track : Q) :
  audio_file_duration E music_path = Some track ->
  0 < track -> 0 < target -> target < 4503599627370496 * track ->
  has_concatenate_audioclips (moviepy E) = true ->
  has_subclipped (moviepy E) || has_subclip (moviepy E) = true ->
  has_with_volume_scaled (moviepy E) || has_volumex (moviepy E) = true ->
  exists music,
    prepare_music self E music_path target = Ok music
    /\ ac_path music = music_path
    /\ ac_copies music
       = (if Qgtb target track then int_of_Q (fdiv target track) + 1 else 1)%Z
    /\ target <= inject_Z (ac_copies music) * track
    /\ ac_duration music = target
    /\ ac_volume_scales music = [music_volume self]
    /\ ac_fades music
       = if has_audio_fadein (moviepy E) && has_audio_fadeout (moviepy E)
         then [AudioFadeIn 2; AudioFadeOut 3] else [].
Proof.
  intros Hload Htrack Htarget Hbound Hcat Htrim Hvol.
  unfold prepare_music, load_audio. rewrite Hload. simpl result_bind.
  unfold loop_music, int_of_float. simpl ac_duration.
  assert (Hnz : Qeq_bool track 0 = false).
  { destruct (Qeq_bool track 0) eqn:Hz; [|reflexivity].
    apply Qeq_bool_iff in Hz. rewrite Hz in Htrack. discriminate. }
  destruct (loops_cover target track Htrack (Qlt_le_weak _ _ Htarget) Hbound)
    as (Hfinite & _ & Hcover).
  pose proof (loops_needed_positive target track Htrack (Qlt_le_weak _ _ Htarget) Hbound)
    as Hpos.
  assert (Hfades : forall m,
             ac_fades m = [] ->
             ac_fades (add_fades (moviepy E) m)
             = if has_audio_fadein (moviepy E) && has_audio_fadeout (moviepy E)
               then [AudioFadeIn 2; AudioFadeOut 3] else []).
  { intros m Hm. unfold add_fades, fade_in_out.
    destruct (has_with_effects (moviepy E)),
      (has_audio_fadein (moviepy E) && has_audio_fadeout (moviepy E));
      simpl; rewrite ?Hm; reflexivity. }
  assert (Hkeep : forall m,
             ac_path (add_fades (moviepy E) m) = ac_path m
             /\ ac_copies (add_fades (moviepy E) m) = ac_copies m
             /\ ac_duration (add_fades (moviepy E) m) = ac_duration m
             /\ ac_volume_scales (add_fades (moviepy E) m) = ac_volume_scales m).
  { intros m. unfold add_fades, fade_in_out.
    destruct (has_with_effects (moviepy E)),
      (has_audio_fadein (moviepy E) && has_audio_fadeout (moviepy E));
      simpl; auto. }
  assert (Htrim' : forall m, ac_duration m = track \/ target <= ac_duration m ->
             Qgtb target track = false \/ target <= ac_duration m ->
             trim_music (moviepy E) m target
             = Ok {| ac_path := ac_path m; ac_copies := ac_copies m; ac_duration := target;
                     ac_volume_scales := ac_volume_scales m; ac_fades := ac_fades m |}).
  { intros m H1 H2.
    assert (Hle : target <= ac_duration m).
    { destruct H2 as [H2|H2]; [|exact H2].
      destruct H1 as [H1|H1]; [|exact H1]. rewrite H1.
      apply Qnot_lt_le. intros Hlt. apply Qgtb_true in Hlt. congruence. }
    unfold trim_music, subclip_to. rewrite (Qgtb_false _ _ Hle).
    destruct (has_subclipped (moviepy E)); [reflexivity|].
    simpl in Htrim. rewrite Htrim. reflexivity. }
  unfold scale_volume. 
  destruct (Qgtb target track) eqn:Hshort.
  - rewrite Hnz, Hfinite, Hcat. simpl negb. cbv iota. simpl result_bind.
    destruct (int_of_Q (fdiv target track) + 1 <=? 0)%Z eqn:Hle; [lia|].
    simpl result_bind. rewrite Htrim'; simpl; [| right; apply Qlt_le_weak; exact Hcover ..].
    rewrite Hvol. simpl result_bind.
    eexists. split; [reflexivity|].
    destruct (Hkeep {| ac_path := music_path; ac_copies := int_of_Q (fdiv target track) + 1;
                       ac_duration := target; ac_volume_scales := [music_volume self];
                       ac_fades := [] |}) as (K1 & K2 & K3 & K4).
    rewrite K1, K2, K3, K4, Hfades by reflexivity. simpl.
    repeat split; try reflexivity. apply Qlt_le_weak. exact Hcover.
  - simpl result_bind. rewrite Htrim'; simpl; [| left; reflexivity ..].
    rewrite Hvol. simpl result_bind.
    eexists. split; [reflexivity|].
    destruct (Hkeep {| ac_path := music_path; ac_copies := 1;
                       ac_duration := target; ac_volume_scales := [music_volume self];
                       ac_fades := [] |}) as (K1 & K2 & K3 & K4).
    rewrite K1, K2, K3, K4, Hfades by reflexivity. simpl.
    repeat split; try reflexivity.
    assert (Hle : target <= track).
    { apply Qnot_lt_le. intros Hlt. apply Qgtb_true in Hlt. congruence. }
    assert (H1 : inject_Z 1 * track == track) by (unfold inject_Z; ring).
    rewrite H1. exact Hle.
Qed.

Lemma music_normalization_witness :
  exists music,
    prepare_music
      (example_generator
         (example_env None None None ConnectionFailed ConnectionFailed (fun _ => 0%nat)
            legacy_api) 1920 1080)
      (example_env None None None ConnectionFailed ConnectionFailed (fun _ => 0%nat) legacy_api)
      "assets/music/old.mp3" 60 = Ok music
    /\ ac_path music = "assets/music/old.mp3"%string
    /\ ac_copies music = 2%Z
    /\ 60 <= inject_Z (ac_copies music) * 45
    /\ ac_duration music = 60
    /\ ac_volume_scales music = [PyFloat (15 # 100)]
    /\ ac_fades music = [AudioFadeIn 2; AudioFadeOut 3].
Proof.
  apply (music_normalization
           (example_generator
              (example_env None None None ConnectionFailed ConnectionFailed (fun _ => 0%nat)
                 legacy_api) 1920 1080)
           (example_env None None None ConnectionFailed ConnectionFailed (fun _ => 0%nat)
              legacy_api)
           "assets/music/old.mp3" 60 45); reflexivity.
Defined.

(** The normalization is the same whichever tier chose the path. *)
Lemma get_background_music_normalizes (self : VideoGenerator) (E : env) (duration : Q)
    (mood music_path : string) (w w' : world) :
  truthy (use_background_music self) = true ->
  choose_music_path self E duration mood w = (Ok (Some music_path), w') ->
  _get_background_music self E duration mood w
  = (match prepare_music self E music_path duration with
     | Ok music => Ok (Some music)
     | Raise _ => Ok None
     end, w').
Proof.
  intros Huse Hpath. unfold _get_background_music. rewrite Huse. simpl.
  unfold bind. rewrite Hpath.
  destruct (prepare_music self E music_path duration); reflexivity.
Qed.

Local Close Scope Q_scope.

(** ** Traces of the effectful code *)

Section Post.
Context {A B : Type}.

Lemma post_ret (a : A) (Phi : list event -> result A -> Prop) :
  Phi [] (Ok a) -> post (ret a) Phi.
Proof. intros H w. exists []. simpl. rewrite app_nil_r. auto. Qed.

Lemma post_raise (e : exn) (Phi : list event -> result A -> Prop) :
  Phi [] (Raise e) -> post (raise e) Phi.
Proof. intros H w. exists []. simpl. rewrite app_nil_r. auto. Qed.

Lemma post_conseq (c : M A) (Phi Psi : list event -> result A -> Prop) :
  post c Phi -> (forall evs r, Phi evs r -> Psi evs r) -> post c Psi.
Proof. intros Hc Himp w. destruct (Hc w) as (evs & Ht & Hp). eauto. Qed.

Lemma post_bind (c : M A) (k : A -> M B) (Phi1 : list event -> result A -> Prop)
    (Phi : list event -> result B -> Prop) :
  post c Phi1 ->
  (forall e1 a, Phi1 e1 (Ok a) -> post (k a) (fun e2 r => Phi (e1 ++ e2) r)) ->
  (forall e1 e, Phi1 e1 (Raise e) -> Phi e1 (Raise e)) ->
  post (bind c k) Phi.
Proof.
  intros Hc Hk He w. unfold bind.
  destruct (Hc w) as (e1 & Ht & Hp).
  destruct (c w) as [[a|e] w1]; simpl in *.
  - destruct (Hk e1 a Hp w1) as (e2 & Ht2 & Hp2).
    exists (e1 ++ e2). rewrite Ht2, Ht, app_assoc. auto.
  - exists e1. auto.
Qed.

Lemma post_catch (c : M A) (h : exn -> M A) (Phi1 Phi : list event -> result A -> Prop) :
  post c Phi1 ->
  (forall e1 a, Phi1 e1 (Ok a) -> Phi e1 (Ok a)) ->
  (forall e1 e, Phi1 e1 (Raise e) -> post (h e) (fun e2 r => Phi (e1 ++ e2) r)) ->
  post (catch c h) Phi.
Proof.
  intros Hc Hok Hh w. unfold catch.
  destruct (Hc w) as (e1 & Ht & Hp).
  destruct (c w) as [[a|e] w1]; simpl in *.
  - exists e1. auto.
  - destruct (Hh e1 e Hp w1) as (e2 & Ht2 & Hp2).
    exists (e1 ++ e2). rewrite Ht2, Ht, app_assoc. auto.
Qed.
End Post.

Lemma post_ret_exact {A} (a : A) : post (ret a) (fun evs r => evs = [] /\ r = Ok a).
Proof. apply post_ret. auto. Qed.

Lemma post_raise_exact {A} (e : exn) :
  post (@raise A e) (fun evs r => evs = [] /\ r = Raise e).
Proof. apply post_raise. auto. Qed.

Lemma post_log (e : event) : post (log e) (fun evs r => evs = [e] /\ r = Ok tt).
Proof. intros w. exists [e]. simpl. auto. Qed.

Lemma post_get_world : post get_world silent.
Proof. intros w. exists []. simpl. rewrite app_nil_r. unfold silent. eauto. Qed.

Lemma post_add_music_file (name : string) : post (add_music_file name) silent.
Proof. intros w. exists []. simpl. rewrite app_nil_r. unfold silent. eauto. Qed.

Lemma post_draw (E : env) : post (draw E) silent.
Proof. intros w. exists []. simpl. rewrite app_nil_r. unfold silent. eauto. Qed.

Lemma post_random_choice {A} (E : env) (l : list A) :
  post (random_choice E l)
    (fun evs r => evs = [] /\ ((l = [] /\ r = Raise IndexError)
                               \/ exists x, List.In x l /\ r = Ok x)).
Proof.
  intros w. exists []. rewrite app_nil_r.
  destruct l as [|a l].
  - simpl. auto.
  - destruct (random_choice_in E (a :: l) w) as (x & w' & Hc & Hin & Ht); [discriminate|].
    rewrite Hc. simpl. split; [exact Ht|]. split; [reflexivity|]. right. eauto.
Qed.

Lemma post_random_randint (E : env) (a b : Z) : post (random_randint E a b) silent.
Proof. intros w. exists []. simpl. rewrite app_nil_r. unfold silent. eauto. Qed.

(** A download is one request, whatever its outcome. *)
Lemma post_fetch (E : env) (url path name : string) :
  post (fetch E url path (add_music_file name))
    (fun evs r => evs = [EvDownload url path]).
Proof.
  intros w. exists [EvDownload url path]. split; [|reflexivity].
  unfold fetch, bind, log. simpl.
  destruct (media_get E url) as [|status body]; [reflexivity|].
  destruct (is_error_status status); [reflexivity|].
  simpl. destruct body; reflexivity.
Qed.

Lemma download_events_nil (path : option string) : download_events path [].
Proof. left. reflexivity. Qed.

Lemma download_events_one (url path : string) :
  download_events (Some path) [EvDownload url path].
Proof. right. exists url, path. auto. Qed.

Lemma download_events_any (path : option string) (dl : list event) :
  download_events path dl -> download_events None dl.
Proof.
  intros [H|(url & p & H & _)]; [left; exact H | right; exists url, p; auto].
Qed.

(** Tier 3 as [_download_from_freesound] runs it. *)
Lemma post_freesound_cache_fallback (self : VideoGenerator) (E : env) :
  post (freesound_cache_fallback self E)
    (fun evs r => exists o, r = Ok o /\ cache_tier evs o).
Proof.
  unfold freesound_cache_fallback.
  eapply post_bind; [apply post_get_world | | intros e1 e [_ [a Ha]]; discriminate].
  intros e1 w [-> _]. simpl.
  destruct (list_music _ w) as [|name names] eqn:Hl.
  - apply post_ret. exists None. split; [reflexivity | constructor].
  - eapply post_bind; [apply (post_random_choice E (name :: names)) | |].
    + intros e1 x [-> _]. simpl.
      eapply post_bind; [apply post_log | | intros e1 e [_ H]; discriminate].
      intros e1 [] [-> _]. apply post_ret. simpl.
      eexists. split; [reflexivity | constructor].
    + intros e1 e [-> [[H _]|(x & _ & H)]]; discriminate.
Qed.

(** One selected track: at most one download, of its own file. *)
Lemma post_freesound_download (self : VideoGenerator) (E : env) (selected : freesound_result)
    (preview_url : string) (id : Z) :
  post (freesound_download self E selected preview_url id)
    (fun evs r =>
       (r = Ok (Some (path_join (music_dir self) (freesound_filename id)))
        \/ exists e, r = Raise e)
       /\ download_events (Some (path_join (music_dir self) (freesound_filename id))) evs).
Proof.
  unfold freesound_download.
  eapply post_bind; [apply post_get_world | | intros e1 e [_ [a Ha]]; discriminate].
  intros e1 w [-> _]. simpl.
  destruct (music_file_exists _ w).
  - eapply post_bind; [apply post_ret_exact | |].
    + intros e1 [] [-> _]. apply post_ret. simpl. split; [left; reflexivity|].
      apply download_events_nil.
    + intros e1 e [_ H]. discriminate.
  - destruct (fr_name selected).
    + eapply post_bind; [apply post_fetch | |].
      * intros e1 [] ->. apply post_ret. simpl. split; [left; reflexivity|].
        apply download_events_one.
      * intros e1 e ->. split; [right; eauto | apply download_events_one].
    + eapply post_bind; [apply post_raise_exact | |].
      * intros e1 [] [_ H]. discriminate.
      * intros e1 e [-> _]. split; [right; eauto | apply download_events_nil].
Qed.

Lemma post_pixabay_download (self : VideoGenerator) (E : env) (query : string)
    (selected : string * Z) :
  post (pixabay_download self E query selected)
    (fun evs r =>
       (r = Ok (Some (path_join (music_dir self) (pixabay_filename query (snd selected))))
        \/ exists e, r = Raise e)
       /\ download_events
            (Some (path_join (music_dir self) (pixabay_filename query (snd selected)))) evs).
Proof.
  unfold pixabay_download.
  eapply post_bind; [apply post_get_world | | intros e1 e [_ [a Ha]]; discriminate].
  intros e1 w [-> _]. simpl.
  destruct (music_file_exists _ w).
  - eapply post_bind; [apply post_ret_exact | |].
    + intros e1 [] [-> _]. apply post_ret. simpl. split; [left; reflexivity|].
      apply download_events_nil.
    + intros e1 e [_ H]. discriminate.
  - eapply post_bind; [apply post_fetch | |].
    + intros e1 [] ->. apply post_ret. simpl. split; [left; reflexivity|].
      apply download_events_one.
    + intros e1 e ->. split; [right; eauto | apply download_events_one].
Qed.

(** Tier 2 alone: one search, then at most one download. *)
Lemma post_freesound_try (self : VideoGenerator) (E : env) (query : string) (min_duration : Q) :
  post (freesound_try self E query min_duration)
    (fun evs r =>
       exists dl, evs = EvFreesoundSearch (query +:+ " ambient loop") :: dl
       /\ ((exists id,
              r = Ok (Some (path_join (music_dir self) (freesound_filename id)))
              /\ download_events
                   (Some (path_join (music_dir self) (freesound_filename id))) dl)
           \/ ((r = Ok None \/ exists e, r = Raise e) /\ download_events None dl))).
Proof.
  unfold freesound_try.
  eapply post_bind; [apply post_log | | intros e1 e [_ H]; discriminate].
  intros e1 [] [-> _]. simpl.
  assert (Hfail : forall e : exn,
             post (@raise (option string) e)
               (fun e2 r =>
                  exists dl, EvFreesoundSearch (query +:+ " ambient loop") :: e2
                             = EvFreesoundSearch (query +:+ " ambient loop") :: dl
                  /\ ((exists id,
                         r = Ok (Some (path_join (music_dir self) (freesound_filename id)))
                         /\ download_events
                              (Some (path_join (music_dir self) (freesound_filename id))) dl)
                      \/ ((r = Ok None \/ exists e, r = Raise e) /\ download_events None dl)))).
  { intros e. apply post_raise. exists []. split; [reflexivity|].
    right. split; [right; eauto | apply download_events_nil]. }
  assert (Hnone : post (@ret (option string) None)
               (fun e2 r =>
                  exists dl, EvFreesoundSearch (query +:+ " ambient loop") :: e2
                             = EvFreesoundSearch (query +:+ " ambient loop") :: dl
                  /\ ((exists id,
                         r = Ok (Some (path_join (music_dir self) (freesound_filename id)))
                         /\ download_events
                              (Some (path_join (music_dir self) (freesound_filename id))) dl)
                      \/ ((r = Ok None \/ exists e, r = Raise e) /\ download_events None dl)))).
  { apply post_ret. exists []. split; [reflexivity|].
    right. split; [left; reflexivity | apply download_events_nil]. }
  destruct (freesound_get E _ min_duration) as [|status body]; [apply Hfail|].
  destruct (is_error_status status); [apply Hfail|].
  destruct body as [[|result results]|]; [exact Hnone | | apply Hfail].
  eapply post_bind; [apply (post_random_choice E (result :: results)) | |].
  - intros e1 selected [-> _]. simpl.
    destruct (fr_preview_hq_mp3 selected) as [preview_url|]; [|exact Hnone].
    destruct (nonempty preview_url); simpl; [|exact Hnone].
    destruct (fr_id selected) as [id|]; [|apply Hfail].
    eapply post_conseq; [apply post_freesound_download|].
    intros evs r [[Hr|[e Hr]] Hdl]; exists evs; (split; [reflexivity|]).
    + left. exists id. auto.
    + right. split; [right; eauto | eapply download_events_any; exact Hdl].
  - intros e1 e [-> _]. exists []. split; [reflexivity|].
    right. split; [right; eauto | apply download_events_nil].
Qed.

(** The [try] of tier 2 with its handler: the exception is absorbed. *)
Lemma post_freesound_caught (self : VideoGenerator) (E : env) (query : string)
    (min_duration : Q) :
  post (catch (freesound_try self E query min_duration) (fun _ => ret None))
    (fun evs r =>
       exists dl, evs = EvFreesoundSearch (query +:+ " ambient loop") :: dl
       /\ ((exists id,
              r = Ok (Some (path_join (music_dir self) (freesound_filename id)))
              /\ download_events
                   (Some (path_join (music_dir self) (freesound_filename id))) dl)
           \/ (r = Ok None /\ download_events None dl))).
Proof.
  eapply post_catch; [apply post_freesound_try | |].
  - intros e1 a (dl & -> & H). exists dl. split; [reflexivity|].
    destruct H as [H|[[Hr|[e Hr]] Hdl]]; [left; exact H | right; auto | discriminate].
  - intros e1 e (dl & -> & H). apply post_ret. rewrite app_nil_r.
    exists dl. split; [reflexivity|]. right. split; [reflexivity|].
    destruct H as [(id & Hr & _)|[_ Hdl]]; [discriminate | exact Hdl].
Qed.

(** [_download_from_freesound] never raises, and runs tier 2 then tier 3. *)
Lemma post_download_from_freesound (self : VideoGenerator) (E : env) (query : string)
    (min_duration : Q) :
  post (_download_from_freesound self E query min_duration)
    (fun evs r => exists o, r = Ok o /\ secondary_tier self E query evs o).
Proof.
  unfold _download_from_freesound.
  destruct (configured (getenv_FREESOUND_API_KEY E)) eqn:Hkey.
  - eapply post_bind; [apply post_freesound_caught | |].
    + intros e1 found (dl & -> & H).
      destruct H as [(id & Hr & Hdl)|[Hr Hdl]].
      * injection Hr as ->. apply post_ret. rewrite app_nil_r.
        eexists. split; [reflexivity|]. apply SecondarySucceeds; assumption.
      * injection Hr as ->.
        eapply post_conseq; [apply post_freesound_cache_fallback|].
        intros evs r (o & -> & Hc). exists o. split; [reflexivity|].
        change ((EvFreesoundSearch (query +:+ " ambient loop") :: dl) ++ evs)
          with (EvFreesoundSearch (query +:+ " ambient loop") :: (dl ++ evs)).
        apply SecondaryFails; assumption.
    + intros e1 e (dl & _ & [(id & Hr & _)|[Hr _]]); discriminate.
  - eapply post_bind; [apply post_ret_exact | |].
    + intros e1 found [-> Hr]. injection Hr as ->. simpl.
      eapply post_conseq; [apply post_freesound_cache_fallback|].
      intros evs r (o & -> & Hc). exists o. split; [reflexivity|].
      apply SecondaryUnconfigured; assumption.
    + intros e1 e [_ H]. discriminate.
Qed.

Lemma post_suitable_tracks (E : env) (hits : list pixabay_track) :
  post (suitable_tracks E hits) silent.
Proof.
  induction hits as [|track rest IH]; simpl.
  - apply post_ret. unfold silent. eauto.
  - destruct (nonempty (audio_url_of track)); [|exact IH].
    eapply post_bind; [apply post_random_randint | | intros e1 e [_ [a H]]; discriminate].
    intros e1 fallback_id [-> _]. simpl.
    eapply post_bind; [exact IH | | intros e1 e [_ [a H]]; discriminate].
    intros e1 others [-> _]. apply post_ret. unfold silent. eauto.
Qed.

(** Tier 1 and, when it finds nothing, what [_download_from_freesound]
    does; or an exception after the search and at most one download. *)
Lemma post_pixabay_try (self : VideoGenerator) (E : env) (query : string) (min_duration : Q) :
  post (pixabay_try self E query min_duration)
    (fun evs r =>
       (exists o, r = Ok o /\ primary_tier self E query evs o)
       \/ (exists e dl, r = Raise e /\ evs = EvPixabaySearch query :: dl
                        /\ download_events None dl)).
Proof.
  unfold pixabay_try.
  eapply post_bind; [apply post_log | | intros e1 e [_ H]; discriminate].
  intros e1 [] [-> _]. simpl.
  assert (Hfail : forall e : exn,
             post (@raise (option string) e)
               (fun e2 r =>
                  (exists o, r = Ok o /\ primary_tier self E query (EvPixabaySearch query :: e2) o)
                  \/ (exists e dl, r = Raise e
                                   /\ EvPixabaySearch query :: e2 = EvPixabaySearch query :: dl
                                   /\ download_events None dl))).
  { intros e. apply post_raise. right. exists e, []. 
    split; [reflexivity|]. split; [reflexivity | apply download_events_nil]. }
  assert (Hsecond :
             post (_download_from_freesound self E query min_duration)
               (fun e2 r =>
                  (exists o, r = Ok o /\ primary_tier self E query (EvPixabaySearch query :: e2) o)
                  \/ (exists e dl, r = Raise e
                                   /\ EvPixabaySearch query :: e2 = EvPixabaySearch query :: dl
                                   /\ download_events None dl))).
  { eapply post_conseq; [apply post_download_from_freesound|].
    intros evs r (o & -> & Hs). left. exists o. split; [reflexivity|].
    apply (PrimaryFails self E query [] evs o); [apply download_events_nil | exact Hs]. }
  destruct (pixabay_get E query) as [|status body]; [apply Hfail|].
  destruct (negb (status =? 200)%Z); [exact Hsecond|].
  destruct body as [[|hit hits]|]; [exact Hsecond | | apply Hfail].
  eapply post_bind; [apply post_suitable_tracks | | intros e1 e [_ [a H]]; discriminate].
  intros e1 tracks [-> _]. simpl.
  destruct tracks as [|t ts]; [exact Hsecond|].
  eapply post_bind; [apply (post_random_choice E (t :: ts)) | |].
  - intros e1 selected [-> _]. simpl.
    eapply post_conseq; [apply post_pixabay_download|].
    intros evs r [[->|[e ->]] Hdl].
    + left. eexists. split; [reflexivity|]. apply PrimarySucceeds. exact Hdl.
    + right. exists e, evs. split; [reflexivity|]. split; [reflexivity|].
      eapply download_events_any. exact Hdl.
  - intros e1 e [-> [[H _]|(x & _ & H)]]; [discriminate|discriminate].
Qed.

(** [_search_pixabay_music] with the primary credential: it never raises,
    and its trace is tier 1, then tier 2, then tier 3. *)
Lemma post_search_pixabay_music (self : VideoGenerator) (E : env) (mood : string)
    (min_duration : Q) :
  configured (pixabay_api_key self) = true ->
  music_search_queries self <> [] ->
  post (_search_pixabay_music self E mood min_duration)
    (fun evs r =>
       exists query o, query_for self mood query /\ r = Ok o
                       /\ primary_tier self E query evs o).
Proof.
  intros Hkey Hqueries. unfold _search_pixabay_music. rewrite Hkey.
  change (negb true) with false. cbv iota.
  assert (Hrun : forall query, query_for self mood query ->
             post (catch (pixabay_try self E query min_duration)
                     (fun _ => _download_from_freesound self E query min_duration))
               (fun evs r =>
                  exists query o, query_for self mood query /\ r = Ok o
                                  /\ primary_tier self E query evs o)).
  { intros query Hq.
    eapply post_catch; [apply post_pixabay_try | |].
    - intros e1 a [(o & Hr & Hp)|(e & dl & Hr & _)]; [|discriminate].
      exists query, o. auto.
    - intros e1 e [(o & Hr & _)|(e' & dl & _ & -> & Hdl)]; [discriminate|].
      eapply post_conseq; [apply post_download_from_freesound|].
      intros evs r (o & -> & Hs). exists query, o.
      split; [exact Hq|]. split; [reflexivity|].
      change ((EvPixabaySearch query :: dl) ++ evs)
        with (EvPixabaySearch query :: (dl ++ evs)).
      apply PrimaryFails; assumption. }
  unfold query_for in *.
  destruct (existsb (String.eqb (lower mood)) horror_moods).
  - eapply post_bind; [apply (post_random_choice E (music_search_queries self)) | |].
    + intros e1 query [-> [[Hnil _]|(x & Hin & Hx)]]; [congruence|].
      injection Hx as ->. simpl. apply Hrun. exact Hin.
    + intros e1 e [-> [[Hnil _]|(x & _ & H)]]; [congruence | discriminate].
  - eapply post_bind; [apply post_ret_exact | |].
    + intros e1 query [-> Hr]. injection Hr as ->. simpl. apply Hrun. reflexivity.
    + intros e1 e [_ H]. discriminate.
Qed.

(** The chain of [_get_background_music]: it never raises and its trace
    follows the tiers in order, stopping at the first one that yields a
    path. *)
Lemma post_choose_music_path (self : VideoGenerator) (E : env) (duration : Q) (mood : string) :
  music_search_queries self <> [] ->
  post (choose_music_path self E duration mood)
    (fun evs r => exists o, r = Ok o /\ music_chain self E mood evs o).
Proof.
  intros Hqueries. unfold choose_music_path.
  eapply post_bind; [apply post_get_world | | intros e1 e [_ [a Ha]]; discriminate].
  intros e1 w [-> _]. simpl.
  assert (Hlast : forall existing : list string,
             post (match existing with
                   | [] => ret None
                   | _ :: _ =>
                       bind (random_choice E existing)
                         (fun p => bind (log (EvUseCached p)) (fun _ => ret (Some p)))
                   end)
               (fun evs r => exists o, r = Ok o /\ cache_tier evs o)).
  { intros [|name names].
    - apply post_ret. exists None. split; [reflexivity | constructor].
    - eapply post_bind; [apply (post_random_choice E (name :: names)) | |].
      + intros e1 p [-> _]. simpl.
        eapply post_bind; [apply post_log | | intros e1 e [_ H]; discriminate].
        intros e1 [] [-> _]. apply post_ret. simpl.
        eexists. split; [reflexivity | constructor].
      + intros e1 e [-> [[H _]|(x & _ & H)]]; discriminate. }
  destruct (configured (pixabay_api_key self)) eqn:Hkey.
  - eapply post_bind; [apply post_search_pixabay_music; assumption | |].
    + intros e1 music_path (query & o & Hq & Hr & Hp). injection Hr as ->.
      destruct o as [p|].
      * assert (Hfound : post (@ret (option string) (Some p))
                           (fun e2 r => exists o, r = Ok o
                                                  /\ music_chain self E mood (e1 ++ e2) o)).
        { apply post_ret. rewrite app_nil_r. eexists. split; [reflexivity|].
          eapply ChainFound; eassumption. }
        exact Hfound.
      * eapply post_conseq; [apply (Hlast (map (path_join (music_dir self))
                                             (list_music [".mp3"; ".wav"; ".ogg"; ".m4a"] w)))|].
        intros evs r (o & -> & Hc). exists o. split; [reflexivity|].
        eapply ChainLastResort; eassumption.
    + intros e1 e (query & o & _ & H & _). discriminate.
  - eapply post_bind; [apply post_ret_exact | |].
    + intros e1 music_path [-> Hr]. injection Hr as ->. simpl.
      eapply post_conseq; [apply (Hlast (map (path_join (music_dir self))
                                           (list_music [".mp3"; ".wav"; ".ogg"; ".m4a"] w)))|].
      intros evs r (o & -> & Hc). exists o. split; [reflexivity|].
      apply ChainWithoutPrimary; assumption.
    + intros e1 e [_ H]. discriminate.
Qed.

(** ** The music fallback chain *)

(** A chain stops at the first tier that yields a path. *)
Lemma first_success_run (tier next : M (option string)) (w : world) :
  first_success tier next w
  = match tier w with
    | (Ok (Some path), w1) => (Ok (Some path), w1)
    | (Ok None, w1) => next w1
    | (Raise e, w1) => (Raise e, w1)
    end.
Proof. unfold first_success, bind. destruct (tier w) as [[[p|]|e] w1]; reflexivity. Qed.

Lemma first_success_assoc (a b c : M (option string)) (w : world) :
  first_success (first_success a b) c w = first_success a (first_success b c) w.
Proof.
  rewrite !first_success_run. destruct (a w) as [[[p|]|e] w1]; try reflexivity.
  rewrite first_success_run. reflexivity.
Qed.

(** [_download_from_freesound] is tier 2, then the cache. *)
Lemma download_from_freesound_tiers (self : VideoGenerator) (E : env) (query : string)
    (min_duration : Q) (w : world) :
  _download_from_freesound self E query min_duration w
  = first_success (secondary_search self E query min_duration)
      (freesound_cache_fallback self E) w.
Proof. reflexivity. Qed.

Lemma download_from_freesound_returns (self : VideoGenerator) (E : env) (query : string)
    (min_duration : Q) (w : world) :
  exists o w', _download_from_freesound self E query min_duration w = (Ok o, w').
Proof.
  destruct (post_download_from_freesound self E query min_duration w) as (evs & _ & o & Hr & _).
  destruct (_download_from_freesound self E query min_duration w) as [r w'].
  simpl in Hr. subst r. eauto.
Qed.

(** The download of a selected track yields its path or raises. *)
Lemma pixabay_download_found (self : VideoGenerator) (E : env) (query : string)
    (selected : string * Z) (next : M (option string)) (w : world) :
  first_success (pixabay_download self E query selected) next w
  = pixabay_download self E query selected w.
Proof.
  rewrite first_success_run. unfold pixabay_download, bind, get_world. cbv beta iota.
  destruct (music_file_exists _ w); [reflexivity|].
  destruct (fetch E _ _ _ w) as [[[]|e] w1]; reflexivity.
Qed.

(** The [try] of [_search_pixabay_music] is tier 1, then
    [_download_from_freesound] where tier 1 finds nothing. *)
Lemma pixabay_try_tiers (self : VideoGenerator) (E : env) (query : string)
    (min_duration : Q) (w : world) :
  pixabay_try self E query min_duration w
  = first_success (primary_attempt self E query)
      (_download_from_freesound self E query min_duration) w.
Proof.
  rewrite first_success_run. unfold pixabay_try, primary_attempt.
  cbv beta iota zeta delta [bind log].
  set (w1 := {| music_dir_files := music_dir_files w; image_dir_files := image_dir_files w;
                trace := trace w ++ [EvPixabaySearch query]; draws_used := draws_used w |}).
  destruct (pixabay_get E query) as [|status body]; [reflexivity|].
  destruct (negb (status =? 200)%Z); [reflexivity|].
  destruct body as [[|hit hits]|]; [reflexivity | | reflexivity].
  destruct (suitable_tracks E (hit :: hits) w1) as [[tracks|e] w2]; [|reflexivity].
  destruct tracks as [|t ts]; [reflexivity|].
  destruct (random_choice E (t :: ts) w2) as [[selected|e] w3]; [|reflexivity].
  rewrite <- (first_success_run (pixabay_download self E query selected)
                (_download_from_freesound self E query min_duration) w3).
  symmetry. apply pixabay_download_found.
Qed.

Lemma search_tiers (self : VideoGenerator) (E : env) (query : string)
    (min_duration : Q) (w : world) :
  catch (pixabay_try self E query min_duration)
    (fun _ => _download_from_freesound self E query min_duration) w
  = first_success (primary_search self E query)
      (_download_from_freesound self E query min_duration) w.
Proof.
  unfold catch at 1. rewrite pixabay_try_tiers, !first_success_run.
  unfold primary_search, catch.
  destruct (primary_attempt self E query w) as [[[p|]|e] w1]; try reflexivity.
  destruct (download_from_freesound_returns self E query min_duration w1) as (o & w2 & ->).
  reflexivity.
Qed.

Lemma bind_run {A B} (c : M A) (k : A -> M B) (w : world) :
  bind c k w = match c w with
               | (Ok a, w') => k a w'
               | (Raise e, w') => (Raise e, w')
               end.
Proof. reflexivity. Qed.

(** [_get_background_music] chooses its track by the amended chain. *)
Lemma choose_music_path_tiers (self : VideoGenerator) (E : env) (duration : Q)
    (mood : string) (w : world) :
  choose_music_path self E duration mood w = tiered_music_path self E duration mood w.
Proof.
  unfold choose_music_path, tiered_music_path.
  rewrite !(bind_run get_world). unfold get_world. cbv beta iota zeta.
  fold (existing_music_of self w).
  destruct (configured (pixabay_api_key self)) eqn:Hkey.
  - rewrite (bind_run (_search_pixabay_music self E mood duration)).
    unfold _search_pixabay_music. rewrite Hkey.
    change (negb true) with false. cbv iota.
    fold (music_query self E mood).
    rewrite !(bind_run (music_query self E mood)).
    destruct (music_query self E mood w) as [[query|e] w0]; [|reflexivity].
    rewrite search_tiers.
    rewrite <- !first_success_assoc.
    rewrite (first_success_run _ (cached_track E (existing_music_of self w))).
    assert (Hin : first_success
                    (first_success (primary_search self E query)
                       (secondary_search self E query duration))
                    (freesound_cache_fallback self E) w0
                  = first_success (primary_search self E query)
                      (_download_from_freesound self E query duration) w0).
    { rewrite first_success_assoc, !first_success_run.
      destruct (primary_search self E query w0) as [[[p|]|e] w1]; reflexivity. }
    rewrite Hin.
    destruct (first_success (primary_search self E query)
                (_download_from_freesound self E query duration) w0) as [[found|e] w1];
      [|reflexivity].
    destruct found; reflexivity.
  - reflexivity.
Qed.

(** A tier never raises. *)
Lemma primary_search_returns (self : VideoGenerator) (E : env) (query : string) (w : world) :
  exists r w1, primary_search self E query w = (Ok r, w1).
Proof.
  unfold primary_search, catch.
  destruct (primary_attempt self E query w) as [[r|e] w1]; eexists _, _; reflexivity.
Qed.

Lemma secondary_search_returns (self : VideoGenerator) (E : env) (query : string)
    (min_duration : Q) (w : world) :
  exists r w1, secondary_search self E query min_duration w = (Ok r, w1).
Proof.
  unfold secondary_search, catch.
  destruct (configured (getenv_FREESOUND_API_KEY E)); [|eexists _, _; reflexivity].
  destruct (freesound_try self E query min_duration w) as [[r|e] w1]; eexists _, _; reflexivity.
Qed.

Lemma freesound_cache_fallback_returns (self : VideoGenerator) (E : env) (w : world) :
  exists r w1, freesound_cache_fallback self E w = (Ok r, w1).
Proof.
  destruct (post_freesound_cache_fallback self E w) as (evs & _ & o & Hr & _).
  destruct (freesound_cache_fallback self E w) as [r w1]. simpl in Hr. subst r. eauto.
Qed.

(** Tier 3: one of the listed files when there is one, nothing otherwise. *)
Lemma cached_track_run (E : env) (existing_music : list string) (w : world) :
  exists r w1,
    cached_track E existing_music w = (Ok r, w1)
    /\ match r with
       | Some p => In p existing_music /\ trace w1 = trace w ++ [EvUseCached p]
       | None => existing_music = [] /\ w1 = w
       end.
Proof.
  destruct existing_music as [|name names].
  - exists None, w. split; [reflexivity | split; reflexivity].
  - destruct (random_choice_in E (name :: names) w) as (p & w1 & Hc & Hin & Ht);
      [discriminate|].
    unfold cached_track. rewrite bind_run, Hc.
    eexists (Some p), _. split; [reflexivity|]. split; [exact Hin|].
    simpl. rewrite Ht. reflexivity.
Qed.

(** With a file in the cache the chain ends with a path. *)
Lemma tiered_music_path_found (self : VideoGenerator) (E : env) (duration : Q)
    (mood : string) (w w' : world) (o : option string) :
  existing_music_of self w <> [] ->
  tiered_music_path self E duration mood w = (Ok o, w') ->
  exists p, o = Some p.
Proof.
  intros Hne. unfold tiered_music_path. rewrite bind_run. unfold get_world. cbv beta iota.
  assert (Hlast : forall w2 o2 w3,
             cached_track E (existing_music_of self w) w2 = (Ok o2, w3) -> exists p, o2 = Some p).
  { intros w2 o2 w3 H.
    destruct (cached_track_run E (existing_music_of self w) w2) as (r & w4 & Hr & Hm).
    rewrite Hr in H. injection H as <- _.
    destruct r as [p|]; [eauto | destruct Hm; congruence]. }
  destruct (configured (pixabay_api_key self)); [|apply Hlast].
  rewrite bind_run.
  destruct (music_query self E mood w) as [[query|e] w0]; [|discriminate].
  rewrite first_success_run.
  destruct (primary_search self E query w0) as [[[p|]|e] w1]; [| |discriminate].
  { intros H. injection H as <- _. eauto. }
  rewrite first_success_run.
  destruct (secondary_search self E query duration w1) as [[[p|]|e] w2]; [| |discriminate].
  { intros H. injection H as <- _. eauto. }
  rewrite first_success_run.
  destruct (freesound_cache_fallback self E w2) as [[[p|]|e] w3]; [| |discriminate].
  { intros H. injection H as <- _. eauto. }
  apply Hlast.
Qed.

Lemma init_queries (E : env) (cfg : pyvalue) (self : VideoGenerator) :
  __init__ E cfg = Ok self -> music_search_queries self <> [].
Proof.
  unfold __init__, result_bind. intros H.
  destruct (getitem cfg "video") as [video|]; [|discriminate].
  destruct (getitem video "resolution") as [res|]; [|discriminate].
  destruct (getitem video "fps"); [|discriminate].
  destruct (dict_get cfg "assets" (PyDict [])) as [assets|]; [|discriminate].
  destruct (dict_get assets "background_music" (PyBool true)); [|discriminate].
  destruct (dict_get assets "music_volume" _); [|discriminate].
  destruct res as [| | | | |l|]; try discriminate.
  destruct l as [|[| |width| | | |] [|[| |height| | | |] [|]]]; try discriminate.
  injection H as <-. discriminate.
Qed.

(** C4, as stated, fails: with no primary credential the secondary tier is
    not attempted, although its credential is configured and its search would
    succeed; the chain goes to the cache, and to "no music" when the cache is
    empty. The chain of the claim would have returned the secondary track. *)
Lemma secondary_tier_skipped_without_primary :
  let E :=
    example_env None None (Some "fs-key") ConnectionFailed
      (Response 200
         (Some [{| fr_id := Some 42%Z; fr_name := Some "wind";
                   fr_preview_hq_mp3 := Some "https://cdn.freesound.org/previews/42.mp3" |}]))
      (fun _ => 0) current_api in
  let self := example_generator E 1920 1080 in
  __init__ E (example_config 1920 1080 []) = Ok self
  /\ configured (getenv_FREESOUND_API_KEY E) = true
  /\ fst (_download_from_freesound self E "horror" 60 empty_world)
     = Ok (Some "assets/music/freesound_42.mp3")
  /\ fst (choose_music_path self E 60 "horror" (world_with_music ["old.mp3"]))
     = Ok (Some "assets/music/old.mp3")
  /\ trace (snd (choose_music_path self E 60 "horror" (world_with_music ["old.mp3"])))
     = [EvUseCached "assets/music/old.mp3"]
  /\ fst (choose_music_path self E 60 "horror" empty_world) = Ok None
  /\ trace (snd (choose_music_path self E 60 "horror" empty_world)) = []
  /\ fst (claimed_music_path self E 60 "horror" (world_with_music ["old.mp3"]))
     = Ok (Some "assets/music/freesound_42.mp3")
  /\ fst (claimed_music_path self E 60 "horror" empty_world)
     = Ok (Some "assets/music/freesound_42.mp3").
Proof. vm_compute. repeat split. Qed.

(** C4, amended. The chain never raises and runs its tiers in order,
    stopping at the first that yields a path: with the primary credential,
    the primary search; when it yields nothing, the secondary search, with
    query "<query> ambient loop", when the secondary credential is
    configured; when that yields nothing, a track of the cache chosen at
    random; else nothing. With no primary credential only the cache is
    tried. What a later tier would have answered has no effect once a tier
    has yielded a path, and with a file in the cache the chain always ends
    with a path. The requests appear in the trace in the order of the
    tiers. *)
Theorem music_fallback_chain (E : env) (cfg : pyvalue) (self : VideoGenerator)
    (duration : Q) (mood : string) (w : world) :
  __init__ E cfg = Ok self ->
  exists o w' evs,
    choose_music_path self E duration mood w = (Ok o, w')
    /\ trace w' = trace w ++ evs
    /\ music_chain self E mood evs o
    /\ (configured (getenv_PIXABAY_API_KEY E) = false ->
        cache_tier evs o /\ forallb (fun e => negb (is_freesound_search e)) evs = true)
    /\ choose_music_path self E duration mood w = tiered_music_path self E duration mood w
    /\ (configured (getenv_PIXABAY_API_KEY E) = false ->
        choose_music_path self E duration mood w
        = cached_track E (existing_music_of self w) w)
    /\ (forall query w0,
        configured (getenv_PIXABAY_API_KEY E) = true ->
        music_query self E mood w = (Ok query, w0) ->
        (forall p w1,
            primary_search self E query w0 = (Ok (Some p), w1) ->
            choose_music_path self E duration mood w = (Ok (Some p), w1))
        /\ (forall w1 p w2,
            primary_search self E query w0 = (Ok None, w1) ->
            secondary_search self E query duration w1 = (Ok (Some p), w2) ->
            choose_music_path self E duration mood w = (Ok (Some p), w2))
        /\ (forall w1 w2 p w3,
            primary_search self E query w0 = (Ok None, w1) ->
            secondary_search self E query duration w1 = (Ok None, w2) ->
            freesound_cache_fallback self E w2 = (Ok (Some p), w3) ->
            choose_music_path self E duration mood w = (Ok (Some p), w3))
        /\ (forall w1 w2 w3,
            primary_search self E query w0 = (Ok None, w1) ->
            secondary_search self E query duration w1 = (Ok None, w2) ->
            freesound_cache_fallback self E w2 = (Ok None, w3) ->
            choose_music_path self E duration mood w
            = cached_track E (existing_music_of self w) w3))
    /\ (forall w2, exists r w3,
        cached_track E (existing_music_of self w) w2 = (Ok r, w3)
        /\ match r with
           | Some p => In p (existing_music_of self w) /\ trace w3 = trace w2 ++ [EvUseCached p]
           | None => existing_music_of self w = [] /\ w3 = w2
           end)
    /\ (existing_music_of self w <> [] -> exists p, o = Some p).
Proof.
  intros Hinit.
  pose proof (init_queries _ _ _ Hinit) as Hqueries.
  destruct (init_inv _ _ _ Hinit) as (_ & _ & Hpix & _).
  destruct (post_choose_music_path self E duration mood Hqueries w) as (evs & Ht & o & Hr & Hc).
  destruct (choose_music_path self E duration mood w) as [r w'] eqn:Hrun.
  simpl in Ht, Hr. subst r.
  exists o, w', evs. split; [reflexivity|]. split; [exact Ht|]. split; [exact Hc|].
  rewrite <- Hpix.
  split.
  { intros Hkey.
    destruct Hc as [evs r _ Hcache|query evs p Hk _ _|query evs evs' r Hk _ _ _];
      [|congruence|congruence].
    split; [exact Hcache|]. destruct Hcache; reflexivity. }
  pose proof (choose_music_path_tiers self E duration mood w) as Htiers.
  rewrite Hrun in Htiers.
  split; [exact Htiers|].
  split.
  { intros Hkey. rewrite Htiers. unfold tiered_music_path.
    rewrite bind_run. unfold get_world. cbv beta iota. rewrite Hkey. reflexivity. }
  split.
  { intros query w0 Hkey Hq.
    assert (Hchain : (Ok o, w')
                     = first_success (primary_search self E query)
                         (first_success (secondary_search self E query duration)
                            (first_success (freesound_cache_fallback self E)
                               (cached_track E (existing_music_of self w)))) w0).
    { rewrite Htiers. unfold tiered_music_path.
      rewrite bind_run. unfold get_world. cbv beta iota. rewrite Hkey.
      rewrite bind_run, Hq. reflexivity. }
    rewrite Hchain.
    split; [|split; [|split]].
    - intros p w1 H1. rewrite first_success_run, H1. reflexivity.
    - intros w1 p w2 H1 H2. rewrite first_success_run, H1, first_success_run, H2. reflexivity.
    - intros w1 w2 p w3 H1 H2 H3.
      rewrite first_success_run, H1, first_success_run, H2, first_success_run, H3. reflexivity.
    - intros w1 w2 w3 H1 H2 H3.
      rewrite first_success_run, H1, first_success_run, H2, first_success_run, H3. reflexivity. }
  split; [intros w2; apply cached_track_run|].
  intros Hne. apply (tiered_music_path_found self E duration mood w w' o Hne).
  symmetry. exact Htiers.
Qed.

Lemma music_fallback_chain_witness :
  let E1 := example_env None (Some "pb-key") (Some "fs-key") (Response 503 None)
              ConnectionFailed (fun _ => 0) current_api in
  let E2 := example_env None None (Some "fs-key") ConnectionFailed
              (Response 200
                 (Some [{| fr_id := Some 42%Z; fr_name := Some "wind";
                           fr_preview_hq_mp3 :=
                             Some "https://cdn.freesound.org/previews/42.mp3" |}]))
              (fun _ => 0) current_api in
  (exists o w' evs,
      choose_music_path (example_generator E1 1920 1080) E1 60 "calm"
        (world_with_music ["old.mp3"]) = (Ok o, w')
      /\ trace w' = trace (world_with_music ["old.mp3"]) ++ evs
      /\ music_chain (example_generator E1 1920 1080) E1 "calm" evs o
      /\ choose_music_path (example_generator E1 1920 1080) E1 60 "calm"
           (world_with_music ["old.mp3"])
         = tiered_music_path (example_generator E1 1920 1080) E1 60 "calm"
             (world_with_music ["old.mp3"])
      /\ exists p, o = Some p)
  /\ (exists o w' evs,
      choose_music_path (example_generator E2 1920 1080) E2 60 "horror"
        (world_with_music ["old.mp3"]) = (Ok o, w')
      /\ trace w' = trace (world_with_music ["old.mp3"]) ++ evs
      /\ cache_tier evs o
      /\ forallb (fun e => negb (is_freesound_search e)) evs = true
      /\ choose_music_path (example_generator E2 1920 1080) E2 60 "horror"
           (world_with_music ["old.mp3"])
         = cached_track E2
             (existing_music_of (example_generator E2 1920 1080) (world_with_music ["old.mp3"]))
             (world_with_music ["old.mp3"])).
Proof.
  intros E1 E2. split.
  - destruct (music_fallback_chain E1 (example_config 1920 1080 [])
                (example_generator E1 1920 1080) 60 "calm" (world_with_music ["old.mp3"])
                eq_refl)
      as (o & w' & evs & H1 & H2 & H3 & _ & H5 & _ & _ & _ & H9).
    exists o, w', evs. split; [exact H1|]. split; [exact H2|]. split; [exact H3|].
    split; [exact H5|]. apply H9. vm_compute. discriminate.
  - destruct (music_fallback_chain E2 (example_config 1920 1080 [])
                (example_generator E2 1920 1080) 60 "horror" (world_with_music ["old.mp3"])
                eq_refl)
      as (o & w' & evs & H1 & H2 & _ & H4 & _ & H6 & _).
    exists o, w', evs. split; [exact H1|]. split; [exact H2|].
    destruct (H4 eq_refl) as [H4a H4b].
    split; [exact H4a|]. split; [exact H4b|].
    apply H6. reflexivity.
Defined.

(** The three tiers in order on the first input, and the path that the
    first tier yields when the primary search answers. *)
Lemma three_tiers_in_order :
  let E := example_env None (Some "pb-key") (Some "fs-key") (Response 503 None)
             ConnectionFailed (fun _ => 0) current_api in
  trace (snd (choose_music_path (example_generator E 1920 1080) E 60 "calm"
                (world_with_music ["old.mp3"])))
  = [EvPixabaySearch "calm"; EvFreesoundSearch "calm ambient loop";
     EvUseCached "assets/music/old.mp3"].
Proof. vm_compute. reflexivity. Qed.

(** A tier that yields a path ends the chain: no later request is sent,
    and the cache is not used. *)
Lemma first_tier_that_answers :
  let hit := {| pt_audio := Some "https://cdn.pixabay.com/audio/7.mp3"; pt_music := None;
                pt_id := Some 7%Z |} in
  let preview := {| fr_id := Some 42%Z; fr_name := Some "wind";
                    fr_preview_hq_mp3 :=
                      Some "https://cdn.freesound.org/previews/42.mp3" |} in
  let E1 := example_env None (Some "pb-key") (Some "fs-key") (Response 200 (Some [hit]))
              (Response 200 (Some [preview])) (fun _ => 0) current_api in
  let E2 := example_env None (Some "pb-key") (Some "fs-key") (Response 503 None)
              (Response 200 (Some [preview])) (fun _ => 0) current_api in
  choose_music_path (example_generator E1 1920 1080) E1 60 "calm" (world_with_music ["old.mp3"])
  = primary_search (example_generator E1 1920 1080) E1 "calm" (world_with_music ["old.mp3"])
  /\ fst (choose_music_path (example_generator E1 1920 1080) E1 60 "calm"
            (world_with_music ["old.mp3"]))
     = Ok (Some "assets/music/pixabay_calm_7.mp3")
  /\ trace (snd (choose_music_path (example_generator E1 1920 1080) E1 60 "calm"
                   (world_with_music ["old.mp3"])))
     = [EvPixabaySearch "calm";
        EvDownload "https://cdn.pixabay.com/audio/7.mp3" "assets/music/pixabay_calm_7.mp3"]
  /\ fst (choose_music_path (example_generator E2 1920 1080) E2 60 "calm"
            (world_with_music ["old.mp3"]))
     = Ok (Some "assets/music/freesound_42.mp3")
  /\ trace (snd (choose_music_path (example_generator E2 1920 1080) E2 60 "calm"
                   (world_with_music ["old.mp3"])))
     = [EvPixabaySearch "calm"; EvFreesoundSearch "calm ambient loop";
        EvDownload "https://cdn.freesound.org/previews/42.mp3" "assets/music/freesound_42.mp3"].
Proof. vm_compute. repeat split. Qed.

(** ** The music cache *)

Lemma downloads_app (t1 t2 : list event) :
  downloads (t1 ++ t2) = downloads t1 + downloads t2.
Proof. unfold downloads. rewrite List.filter_app, length_app. reflexivity. Qed.

(** A download that returns has created the file, with one request. *)
Lemma fetch_ok (E : env) (url path name : string) (w w1 : world) :
  fetch E url path (add_music_file name) w = (Ok tt, w1) ->
  name ∈ music_dir_files w1 /\ trace w1 = trace w ++ [EvDownload url path].
Proof.
  unfold fetch, bind, log. simpl.
  destruct (media_get E url) as [|status body]; [discriminate|].
  destruct (is_error_status status); [discriminate|].
  simpl. destruct body; [|discriminate].
  intros H. injection H as <-. simpl. split; [set_solver | reflexivity].
Qed.

Lemma music_file_exists_true (name : string) (w : world) :
  name ∈ music_dir_files w -> music_file_exists name w = true.
Proof. intros H. unfold music_file_exists. apply bool_decide_eq_true_2. exact H. Qed.

(** A cached file is returned without a request and without a change. *)
Lemma pixabay_download_cached (self : VideoGenerator) (E : env) (query url : string) (id : Z)
    (w : world) :
  pixabay_filename query id ∈ music_dir_files w ->
  pixabay_download self E query (url, id) w
  = (Ok (Some (path_join (music_dir self) (pixabay_filename query id))), w).
Proof.
  intros H. unfold pixabay_download, bind, get_world. simpl.
  rewrite (music_file_exists_true _ _ H). reflexivity.
Qed.

Lemma freesound_download_cached (self : VideoGenerator) (E : env)
    (selected : freesound_result) (url : string) (id : Z) (w : world) :
  freesound_filename id ∈ music_dir_files w ->
  freesound_download self E selected url id w
  = (Ok (Some (path_join (music_dir self) (freesound_filename id))), w).
Proof.
  intros H. unfold freesound_download, bind, get_world. simpl.
  rewrite (music_file_exists_true _ _ H). reflexivity.
Qed.

Lemma pixabay_download_ok (self : VideoGenerator) (E : env) (query url : string) (id : Z)
    (w w1 : world) (r : option string) :
  pixabay_download self E query (url, id) w = (Ok r, w1) ->
  r = Some (path_join (music_dir self) (pixabay_filename query id))
  /\ pixabay_filename query id ∈ music_dir_files w1
  /\ downloads (trace w1) <= downloads (trace w) + 1.
Proof.
  unfold pixabay_download, bind, get_world. simpl.
  destruct (music_file_exists (pixabay_filename query id) w) eqn:Hex.
  - intros H. injection H as <- <-. split; [reflexivity|].
    split; [|lia]. unfold music_file_exists in Hex. apply bool_decide_eq_true_1 in Hex. exact Hex.
  - destruct (fetch E url _ _ w) as [[[]|e] w2] eqn:Hf; [|discriminate].
    intros H. injection H as <- <-. apply fetch_ok in Hf. destruct Hf as [Hin Ht].
    split; [reflexivity|]. split; [exact Hin|].
    rewrite Ht, downloads_app.
    change (downloads [EvDownload url (path_join (music_dir self) (pixabay_filename query id))])
      with 1. lia.
Qed.

Lemma freesound_download_ok (self : VideoGenerator) (E : env) (selected : freesound_result)
    (url : string) (id : Z) (w w1 : world) (r : option string) :
  freesound_download self E selected url id w = (Ok r, w1) ->
  r = Some (path_join (music_dir self) (freesound_filename id))
  /\ freesound_filename id ∈ music_dir_files w1
  /\ downloads (trace w1) <= downloads (trace w) + 1.
Proof.
  unfold freesound_download, bind, get_world. simpl.
  destruct (music_file_exists (freesound_filename id) w) eqn:Hex.
  - intros H. injection H as <- <-. split; [reflexivity|].
    split; [|lia]. unfold music_file_exists in Hex. apply bool_decide_eq_true_1 in Hex. exact Hex.
  - destruct (fr_name selected); [|discriminate].
    destruct (fetch E url _ _ w) as [[[]|e] w2] eqn:Hf; [|discriminate].
    intros H. injection H as <- <-. apply fetch_ok in Hf. destruct Hf as [Hin Ht].
    split; [reflexivity|]. split; [exact Hin|].
    rewrite Ht, downloads_app.
    change (downloads [EvDownload url (path_join (music_dir self) (freesound_filename id))])
      with 1. lia.
Qed.

(** C7, as stated, fails: the track is chosen at random among the hits, so
    the same query resolved twice against a populated cache can select two
    tracks and download both. *)
Lemma same_query_two_downloads :
  let hits :=
    [{| pt_audio := Some "https://cdn.pixabay.com/audio/1.mp3"; pt_music := None;
        pt_id := Some 1%Z |};
     {| pt_audio := Some "https://cdn.pixabay.com/audio/2.mp3"; pt_music := None;
        pt_id := Some 2%Z |}] in
  let E := example_env None (Some "pb-key") None (Response 200 (Some hits)) ConnectionFailed
             (fun n => if n =? 5 then 1 else 0) current_api in
  let self := example_generator E 1920 1080 in
  let first := _search_pixabay_music self E "calm" 60 (world_with_music ["pixabay_calm_7.mp3"]) in
  let second := _search_pixabay_music self E "calm" 60 (snd first) in
  fst first = Ok (Some "assets/music/pixabay_calm_1.mp3")
  /\ fst second = Ok (Some "assets/music/pixabay_calm_2.mp3")
  /\ downloads (trace (snd second)) = 2
  /\ ~ downloads (trace (snd second)) <= 1.
Proof. vm_compute. repeat split. lia. Qed.

(** C7, amended. The cache file name is a function of the query and the
    track id (primary) or of the track id (secondary); a file of that name
    already in the cache is returned with no download and no change; hence
    when the first resolution of a selected track returns, it has made at
    most one download, and the second resolution of the same track makes none
    and returns the same path. *)
Theorem music_cache_idempotent (self : VideoGenerator) (E : env) (query url : string)
    (selected : freesound_result) (id : Z) (w : world) :
  (pixabay_filename query id ∈ music_dir_files w ->
   pixabay_download self E query (url, id) w
   = (Ok (Some (path_join (music_dir self) (pixabay_filename query id))), w))
  /\ (freesound_filename id ∈ music_dir_files w ->
      freesound_download self E selected url id w
      = (Ok (Some (path_join (music_dir self) (freesound_filename id))), w))
  /\ (forall r w1,
      pixabay_download self E query (url, id) w = (Ok r, w1) ->
      r = Some (path_join (music_dir self) (pixabay_filename query id))
      /\ pixabay_download self E query (url, id) w1 = (Ok r, w1)
      /\ downloads (trace w1) <= downloads (trace w) + 1)
  /\ (forall r w1,
      freesound_download self E selected url id w = (Ok r, w1) ->
      r = Some (path_join (music_dir self) (freesound_filename id))
      /\ freesound_download self E selected url id w1 = (Ok r, w1)
      /\ downloads (trace w1) <= downloads (trace w) + 1).
Proof.
  split; [apply pixabay_download_cached|].
  split; [apply freesound_download_cached|].
  split.
  - intros r w1 H. apply pixabay_download_ok in H. destruct H as (-> & Hin & Hd).
    split; [reflexivity|]. split; [apply pixabay_download_cached; exact Hin | exact Hd].
  - intros r w1 H. apply freesound_download_ok in H. destruct H as (-> & Hin & Hd).
    split; [reflexivity|]. split; [apply freesound_download_cached; exact Hin | exact Hd].
Qed.

Lemma music_cache_idempotent_witness :
  pixabay_download (example_generator offline_env 1920 1080) offline_env "dark ambient"
    ("https://cdn.pixabay.com/audio/7.mp3", 7%Z)
    (world_with_music ["pixabay_dark_ambient_7.mp3"])
  = (Ok (Some "assets/music/pixabay_dark_ambient_7.mp3"),
     world_with_music ["pixabay_dark_ambient_7.mp3"])
  /\ (let first :=
        pixabay_download (example_generator offline_env 1920 1080) offline_env "dark ambient"
          ("https://cdn.pixabay.com/audio/7.mp3", 7%Z) empty_world in
      pixabay_download (example_generator offline_env 1920 1080) offline_env "dark ambient"
        ("https://cdn.pixabay.com/audio/7.mp3", 7%Z) (snd first)
      = (Ok (Some "assets/music/pixabay_dark_ambient_7.mp3"), snd first)
      /\ downloads (trace (snd first)) <= 1).
Proof.
  split.
  - apply (proj1 (music_cache_idempotent (example_generator offline_env 1920 1080) offline_env
                    "dark ambient" "https://cdn.pixabay.com/audio/7.mp3"
                    {| fr_id := None; fr_name := None; fr_preview_hq_mp3 := None |} 7
                    (world_with_music ["pixabay_dark_ambient_7.mp3"]))).
    vm_compute. set_solver.
  - cbv zeta.
    destruct (proj1 (proj2 (proj2 (music_cache_idempotent
                (example_generator offline_env 1920 1080) offline_env
                "dark ambient" "https://cdn.pixabay.com/audio/7.mp3"
                {| fr_id := None; fr_name := None; fr_preview_hq_mp3 := None |} 7
                empty_world)))
                (Some "assets/music/pixabay_dark_ambient_7.mp3")
                (snd (pixabay_download (example_generator offline_env 1920 1080) offline_env
                        "dark ambient" ("https://cdn.pixabay.com/audio/7.mp3", 7%Z)
                        empty_world)))
      as (_ & H2 & H3).
    + vm_compute. reflexivity.
    + split; [exact H2 | exact H3].
Defined.

(** * Further properties of the generator *)

(** ** Segmentation, continued *)

Lemma filter_none {A} (f : A -> bool) (l : list A) :
  Forall (fun x => f x = false) l -> List.filter f l = [].
Proof.
  induction 1 as [|x l Hx _ IH]; simpl; [reflexivity|]. rewrite Hx. exact IH.
Qed.

Lemma has_nonspace_flush_false (cur : string) :
  has_nonspace cur = false -> has_nonspace (flush cur) = false.
Proof. intros H. rewrite has_nonspace_flush. exact H. Qed.

(** The pieces of a blank string are blank. *)
Lemma split_aux_blank (sep : string) (s : string) :
  forall skip cur, has_nonspace cur = false -> has_nonspace s = false ->
  Forall (fun p => has_nonspace p = false) (split_aux sep skip cur s).
Proof.
  induction s as [|c s IH]; intros skip cur Hcur Hs; simpl in *.
  - constructor; [apply has_nonspace_flush_false; exact Hcur | constructor].
  - apply orb_false_iff in Hs. destruct Hs as [Hc Hs].
    destruct skip as [|k]; [|apply IH; assumption].
    destruct (starts_with sep (String c s)).
    + constructor; [apply has_nonspace_flush_false; exact Hcur|]. apply IH; [reflexivity | exact Hs].
    + apply IH; [simpl; rewrite Hc, Hcur; reflexivity | exact Hs].
Qed.

Lemma re_split_aux_blank (s : string) :
  forall after_end in_sep cur, has_nonspace cur = false -> has_nonspace s = false ->
  Forall (fun p => has_nonspace p = false) (re_split_aux after_end in_sep cur s).
Proof.
  induction s as [|c s IH]; intros after_end in_sep cur Hcur Hs; simpl in *.
  - constructor; [apply has_nonspace_flush_false; exact Hcur | constructor].
  - apply orb_false_iff in Hs. destruct Hs as [Hc Hs].
    destruct (isspace c) eqn:Hsp; [|discriminate].
    destruct in_sep; [apply IH; assumption|].
    destruct after_end.
    + constructor; [apply has_nonspace_flush_false; exact Hcur|]. apply IH; [reflexivity | exact Hs].
    + apply IH; [simpl; rewrite Hsp, Hcur; reflexivity | exact Hs].
Qed.

Lemma blank_pieces_dropped (keep : string -> bool) (pieces : list string) :
  (forall s, keep s = true -> nonempty (strip s) = true) ->
  Forall (fun p => has_nonspace p = false) pieces ->
  map strip (List.filter keep pieces) = [].
Proof.
  intros Hkeep Hblank. rewrite filter_none; [reflexivity|].
  eapply List.Forall_impl; [|exact Hblank]. intros p Hp. cbv beta in *.
  destruct (keep p) eqn:Hk; [|reflexivity].
  apply Hkeep in Hk. rewrite nonempty_strip in Hk. congruence.
Qed.

(** X1. A script with at least one word is cut into segments that each have
    at least one word; a script with none (empty or blank) comes back whole,
    as the only segment. *)
Theorem segments_have_words (script : string) :
  (has_nonspace script = true ->
   Forall (fun segment => 1 <= word_count segment) (_parse_script_segments script))
  /\ (has_nonspace script = false -> _parse_script_segments script = [script]).
Proof.
  split.
  - intros Hs. destruct (parse_shape script) as [[_ Hall]|Hone].
    + eapply List.Forall_impl; [|exact Hall]. intros seg Hseg. apply word_count_pos. exact Hseg.
    + rewrite Hone. constructor; [apply word_count_pos; exact Hs | constructor].
  - intros Hs. unfold _parse_script_segments.
    assert (H1 : paragraph_segments script = []).
    { apply blank_pieces_dropped; [auto|]. apply split_aux_blank; [reflexivity | exact Hs]. }
    assert (H2 : line_segments script = []).
    { apply blank_pieces_dropped.
      - intros s H. apply andb_true_iff in H. tauto.
      - apply split_aux_blank; [reflexivity | exact Hs]. }
    assert (H3 : sentence_segments script = []).
    { unfold sentence_segments, sentences_of.
      rewrite blank_pieces_dropped; [reflexivity | auto |].
      apply re_split_aux_blank; [reflexivity | exact Hs]. }
    rewrite H1. simpl. rewrite H2. simpl. rewrite H3. reflexivity.
Qed.

Lemma segments_have_words_witness :
  Forall (fun segment => 1 <= word_count segment)
    (_parse_script_segments "It was late. Nobody came.")
  /\ _parse_script_segments "   " = ["   "].
Proof.
  split.
  - apply (proj1 (segments_have_words "It was late. Nobody came.")). reflexivity.
  - apply (proj2 (segments_have_words "   ")). reflexivity.
Defined.

Lemma append_assoc' (a b c : string) : (a +:+ b) +:+ c = a +:+ (b +:+ c).
Proof.
  induction a as [|x a IH]; [reflexivity|].
  change (String x ((a +:+ b) +:+ c) = String x (a +:+ (b +:+ c))).
  f_equal. exact IH.
Qed.

Lemma join_cons (sep x : string) (l : list string) :
  l <> [] -> join sep (x :: l) = x +:+ sep +:+ join sep l.
Proof. destruct l; [congruence | reflexivity]. Qed.

Lemma join_app (sep : string) (l1 l2 : list string) :
  l1 <> [] -> l2 <> [] ->
  join sep (l1 ++ l2) = join sep l1 +:+ sep +:+ join sep l2.
Proof.
  intros H1 H2. induction l1 as [|x l1 IH]; [congruence|].
  destruct l1 as [|y l1].
  - simpl app. rewrite join_cons by exact H2. reflexivity.
  - change ((x :: y :: l1) ++ l2) with (x :: ((y :: l1) ++ l2)).
    rewrite join_cons by discriminate. rewrite IH by discriminate.
    rewrite (join_cons sep x (y :: l1)) by discriminate.
    rewrite !append_assoc'. reflexivity.
Qed.

(** Closing a group keeps the text: the joined group stands for its sentences. *)
Lemma join_group (sep : string) (segments group : list string) :
  group <> [] ->
  join sep (segments ++ [join sep group]) = join sep (segments ++ group).
Proof.
  intros Hg. destruct segments as [|s segments]; [reflexivity|].
  rewrite !join_app by (discriminate || exact Hg). reflexivity.
Qed.

Lemma join_group_rest (sep : string) (segments group rest : list string) :
  group <> [] ->
  join sep (segments ++ join sep group :: rest) = join sep (segments ++ group ++ rest).
Proof.
  intros Hg. destruct rest as [|r rest].
  - rewrite app_nil_r. apply join_group. exact Hg.
  - change (segments ++ join sep group :: r :: rest)
      with (segments ++ [join sep group] ++ r :: rest).
    rewrite !app_assoc.
    rewrite (join_app sep (segments ++ [join sep group])) by (try discriminate; destruct segments; discriminate).
    rewrite (join_app sep (segments ++ group))
      by (try discriminate; destruct segments, group; try discriminate; congruence).
    rewrite join_group by exact Hg. reflexivity.
Qed.

Lemma group_sentences_text (sentences : list string) :
  forall segments current_segment current_words,
    join " " (group_sentences sentences segments current_segment current_words)
    = join " " (segments ++ current_segment ++ sentences).
Proof.
  induction sentences as [|sentence rest IH]; intros segments cur words; simpl.
  - rewrite app_nil_r. destruct cur as [|c cur]; [rewrite app_nil_r; reflexivity|].
    apply join_group. discriminate.
  - destruct (_ || _).
    + rewrite IH. simpl app. rewrite <- app_assoc. simpl app.
      rewrite join_group_rest by (destruct cur; discriminate).
      rewrite <- app_assoc. reflexivity.
    + rewrite IH. rewrite <- app_assoc. reflexivity.
Qed.

(** X2. The sentence grouping loses and reorders nothing: the segments
    joined by single spaces are the sentences joined by single spaces. *)
Theorem sentence_grouping_keeps_text (script : string) :
  join " " (sentence_segments script) = join " " (sentences_of script).
Proof. unfold sentence_segments. rewrite group_sentences_text. reflexivity. Qed.

Lemma group_sentences_partition (sentences : list string) :
  forall segments current_segment current_words,
    List.length current_segment <= 2 ->
    exists groups,
      group_sentences sentences segments current_segment current_words
      = segments ++ map (join " ") groups
      /\ concat groups = current_segment ++ sentences
      /\ Forall (fun g => 1 <= List.length g <= 3) groups.
Proof.
  induction sentences as [|sentence rest IH]; intros segments cur words Hcur;
    cbn [group_sentences]; cbv zeta.
  - destruct cur as [|c cur].
    + exists []. simpl. rewrite app_nil_r. auto.
    + exists [c :: cur]. simpl. rewrite !app_nil_r. split; [reflexivity|].
      split; [reflexivity|]. constructor; [simpl in *; lia | constructor].
  - destruct (3 <=? List.length (cur ++ [sentence])) eqn:Hlen.
    + rewrite orb_true_r.
      destruct (IH (segments ++ [join " " (cur ++ [sentence])]) [] 0) as (groups & Hr & Hc & Hall);
        [simpl; lia|].
      exists ((cur ++ [sentence]) :: groups). rewrite Hr. simpl.
      rewrite <- app_assoc. simpl. split; [reflexivity|].
      split; [rewrite Hc; simpl; rewrite <- app_assoc; reflexivity|].
      constructor; [|exact Hall]. rewrite length_app in *. simpl in *. lia.
    + apply Nat.leb_gt in Hlen. rewrite length_app in Hlen. simpl in Hlen.
      rewrite orb_false_r.
      destruct (30 <=? words + word_count sentence).
      * destruct (IH (segments ++ [join " " (cur ++ [sentence])]) [] 0)
          as (groups & Hr & Hc & Hall); [simpl; lia|].
        exists ((cur ++ [sentence]) :: groups). rewrite Hr. simpl.
        rewrite <- app_assoc. simpl. split; [reflexivity|].
        split; [rewrite Hc; simpl; rewrite <- app_assoc; reflexivity|].
        constructor; [|exact Hall]. rewrite length_app. simpl. lia.
      * destruct (IH segments (cur ++ [sentence]) (words + word_count sentence))
          as (groups & Hr & Hc & Hall); [rewrite length_app; simpl; lia|].
        exists groups. rewrite Hr. split; [reflexivity|].
        split; [rewrite Hc, <- app_assoc; reflexivity | exact Hall].
Qed.

(** X3. The sentence strategy cuts the sentences, in order, into consecutive
    groups of one to three sentences, and each segment is one group joined by
    single spaces. *)
Theorem sentence_segments_are_small_groups (script : string) :
  exists groups,
    sentence_segments script = map (join " ") groups
    /\ concat groups = sentences_of script
    /\ Forall (fun g => 1 <= List.length g <= 3) groups.
Proof.
  destruct (group_sentences_partition (sentences_of script) [] [] 0) as (groups & Hr & Hc & Hall);
    [simpl; lia|].
  exists groups. auto.
Qed.

Local Open Scope Q_scope.

(** X5. With no segment at all [_create_clips_with_typewriter] raises
    IndexError when the duration, a float, is farther from zero than the
    float 0.1, and returns no clip otherwise; it makes no request and no
    random draw. *)
Theorem no_segments_edge (self : VideoGenerator) (E : env) (image_paths : list string)
    (duration : Q) (title : string) (w : world) :
  binary64 duration ->
  (lit_0_1 < Qabs duration ->
   _create_clips_with_typewriter self E [] image_paths duration title w = (Raise IndexError, w))
  /\ (Qabs duration <= lit_0_1 ->
      _create_clips_with_typewriter self E [] image_paths duration title w = (Ok [], w)).
Proof.
  intros [Hfloat _].
  assert (Hd : fsub duration (float_sum []) == duration).
  { unfold fsub, float_sum. cbn [fold_left].
    rewrite (round64_comp (duration - 0) duration) by ring. exact Hfloat. }
  unfold _create_clips_with_typewriter, segment_durations, correct_drift.
  change (proportional_durations [] duration) with (@nil Q).
  split; intros H.
  - rewrite Qgtb_true by (rewrite Hd; exact H). reflexivity.
  - rewrite Qgtb_false by (rewrite Hd; exact H). reflexivity.
Qed.

Lemma no_segments_edge_witness :
  _create_clips_with_typewriter (example_generator offline_env 1920 1080) offline_env
    [] [] 30 "The House" empty_world = (Raise IndexError, empty_world)
  /\ _create_clips_with_typewriter (example_generator offline_env 1920 1080) offline_env
       [] [] lit_0_1 "The House" empty_world = (Ok [], empty_world).
Proof.
  split.
  - apply (proj1 (no_segments_edge (example_generator offline_env 1920 1080) offline_env
                    [] 30 "The House" empty_world ltac:(split; reflexivity))).
    reflexivity.
  - apply (proj2 (no_segments_edge (example_generator offline_env 1920 1080) offline_env
                    [] lit_0_1 "The House" empty_world ltac:(split; reflexivity))).
    vm_compute. discriminate.
Defined.

Local Close Scope Q_scope.

(** ** Clips *)

Lemma skipn_nth_error {A} (l : list A) (i : nat) (x : A) :
  nth_error l i = Some x -> skipn i l = x :: skipn (S i) l.
Proof.
  revert i. induction l as [|a l IH]; intros [|i] H; simpl in *; try discriminate.
  - injection H as ->. reflexivity.
  - apply IH. exact H.
Qed.

Lemma background_step_duration (self : VideoGenerator) (E : env) (image_paths : list string)
    (i : nat) (d : Q) (w w1 : world) (bg : background_clip) :
  (match nth_error image_paths i with
   | Some image_path => _create_image_clip_with_effects self E image_path d
   | None => _create_fallback_background self E d
   end) w = (Ok bg, w1) ->
  background_duration bg = d /\ background_matches self image_paths i bg.
Proof.
  unfold background_matches. destruct (nth_error image_paths i) as [p|].
  - unfold _create_image_clip_with_effects. destruct (image_opens E p); [|discriminate].
    intros H. injection H as <- <-. simpl. eauto.
  - unfold _create_fallback_background, bind.
    destruct (random_choice_in E fallback_colors w) as (color & w2 & Hc & Hin & _);
      [discriminate|].
    rewrite Hc. intros H. injection H as <- <-. simpl. auto.
Qed.

Lemma clip_loop_layers (self : VideoGenerator) (E : env) (durations : list Q)
    (image_paths : list string) (title : string) (segments : list string) :
  forall i w clips w',
    clip_loop self E durations image_paths title i segments w = (Ok clips, w') ->
    map layer_durations clips
    = map (fun d => (d, d, d)) (firstn (List.length segments) (skipn i durations))
    /\ List.length clips = List.length segments
    /\ (forall k clip, nth_error clips k = Some clip ->
        background_matches self image_paths (i + k) (cc_background clip)).
Proof.
  induction segments as [|text rest IH]; intros i w clips w' H; simpl in H.
  - injection H as <- <-. simpl. split; [reflexivity|]. split; [reflexivity|].
    intros [|k] clip Hk; discriminate.
  - destruct (nth_error durations i) as [d|] eqn:Hd; [|discriminate].
    unfold bind at 1 in H.
    match type of H with
    | context [match ?c w with _ => _ end] => destruct (c w) as [[bg|e] w1] eqn:Hbg
    end; [|discriminate].
    apply background_step_duration in Hbg. destruct Hbg as [Hbd Hbm].
    unfold bind at 1 in H.
    destruct (clip_loop self E durations image_paths title (S i) rest w1) as [[more|e] w2] eqn:Hrest;
      [|discriminate].
    injection H as <- <-.
    destruct (IH _ _ _ _ Hrest) as (Hl & Hlen & Hb).
    split; [|split].
    + rewrite (skipn_nth_error _ _ _ Hd). simpl. rewrite Hl.
      unfold layer_durations at 1. simpl. rewrite Hbd. reflexivity.
    + simpl. rewrite Hlen. reflexivity.
    + intros [|k] clip Hk; simpl in Hk.
      * injection Hk as <-. simpl. rewrite Nat.add_0_r. exact Hbm.
      * rewrite <- Nat.add_succ_comm. apply Hb. exact Hk.
Qed.

Local Open Scope Q_scope.

(** X6. When [_create_clips_with_typewriter] returns for at least one
    segment, there is one clip per segment, and the background, overlay and
    caption of each clip last exactly the duration computed for its segment;
    for at most 2^20 segments and at most 2^25 seconds these durations are
    the proportional shares, and the clips add up to the audio duration
    within 1/64 s. *)
Theorem clips_carry_segment_durations (self : VideoGenerator) (E : env)
    (segments image_paths : list string) (duration : Q) (title : string)
    (w w' : world) (clips : list composite_clip) :
  segments <> [] ->
  _create_clips_with_typewriter self E segments image_paths duration title w = (Ok clips, w') ->
  exists ds,
    segment_durations segments duration = Ok ds
    /\ List.length clips = List.length segments
    /\ map layer_durations clips = map (fun d => (d, d, d)) ds
    /\ ((Z.of_nat (List.length segments) <= 2 ^ 20)%Z ->
        0 <= duration -> duration <= 33554432 ->
        ds = proportional_durations segments duration
        /\ Qabs (sum_Q (map (fun clip => ic_duration (cc_overlay clip)) clips) - duration)
           <= 1 # 64).
Proof.
  intros Hne Hrun. unfold _create_clips_with_typewriter in Hrun.
  destruct (segment_durations_nonempty segments duration Hne) as (ds & Hds & Hdlen).
  rewrite Hds in Hrun. exists ds. split; [exact Hds|].
  apply clip_loop_layers in Hrun. destruct Hrun as (Hl & Hlen & _).
  assert (Hfirst : firstn (List.length segments) (skipn 0 ds) = ds).
  { simpl. apply firstn_all2. lia. }
  rewrite Hfirst in Hl.
  split; [exact Hlen|]. split; [exact Hl|].
  intros Hn H0 H1.
  rewrite (segment_durations_in_range segments duration Hne Hn H0 H1) in Hds.
  injection Hds as <-. split; [reflexivity|].
  assert (Hov : map (fun clip => ic_duration (cc_overlay clip)) clips
                = proportional_durations segments duration).
  { apply (f_equal (map (fun t : Q * Q * Q => snd (fst t)))) in Hl.
    rewrite !map_map in Hl. simpl in Hl. rewrite map_id in Hl. exact Hl. }
  rewrite Hov.
  destruct (shares_accurate segments duration Hne Hn H0 H1) as (_ & S1 & S2 & _).
  apply Qabs_le_iff. split; lra.
Qed.

Lemma clips_carry_segment_durations_witness :
  exists clips w',
    _create_clips_with_typewriter (example_generator offline_env 1920 1080) offline_env
      ["One two."; "Three."] ["a.jpg"] 9 "T" empty_world = (Ok clips, w')
    /\ List.length clips = 2%nat
    /\ Qabs (sum_Q (map (fun clip => ic_duration (cc_overlay clip)) clips) - 9) <= 1 # 64.
Proof.
  destruct (_create_clips_with_typewriter (example_generator offline_env 1920 1080) offline_env
              ["One two."; "Three."]%string ["a.jpg"]%string 9 "T" empty_world)
    as [[clips|e] w'] eqn:Hrun.
  - exists clips, w'. split; [reflexivity|].
    assert (Hne : ["One two."; "Three."]%string <> []) by discriminate.
    destruct (clips_carry_segment_durations _ _ _ _ _ _ _ _ _ Hne Hrun)
      as (ds & _ & H1 & _ & H3).
    split; [exact H1|].
    apply H3; vm_compute; discriminate.
  - vm_compute in Hrun. discriminate.
Defined.

Local Close Scope Q_scope.

Lemma clip_loop_runs (self : VideoGenerator) (E : env) (durations : list Q)
    (image_paths : list string) (title : string) (segments : list string) :
  forall i w,
    i + List.length segments <= List.length durations ->
    (forall k image_path, i <= k < i + List.length segments ->
       nth_error image_paths k = Some image_path -> image_opens E image_path = true) ->
    exists clips w', clip_loop self E durations image_paths title i segments w = (Ok clips, w').
Proof.
  induction segments as [|text rest IH]; intros i w Hlen Hopen; simpl in *.
  - eexists _, _. reflexivity.
  - destruct (nth_error durations i) as [d|] eqn:Hd.
    2:{ apply nth_error_None in Hd. lia. }
    assert (Hbg : exists bg w1,
               (match nth_error image_paths i with
                | Some image_path => _create_image_clip_with_effects self E image_path d
                | None => _create_fallback_background self E d
                end) w = (Ok bg, w1)).
    { destruct (nth_error image_paths i) as [p|] eqn:Hp.
      - unfold _create_image_clip_with_effects. rewrite (Hopen i p); [|lia|exact Hp].
        eexists _, _. reflexivity.
      - unfold _create_fallback_background, bind.
        destruct (random_choice_in E fallback_colors w) as (color & w2 & Hc & _);
          [discriminate|].
        rewrite Hc. eexists _, _. reflexivity. }
    destruct Hbg as (bg & w1 & Hbg).
    unfold bind at 1. rewrite Hbg. unfold bind at 1.
    destruct (IH (S i) w1) as (clips & w2 & Hrest); [lia | |].
    + intros k p Hk. apply Hopen. lia.
    + rewrite Hrest. eexists _, _. reflexivity.
Qed.

(** X7. When every image assigned to a segment opens,
    [_create_clips_with_typewriter] returns one clip per segment: clip [k]
    shows image [k] when the image list has one at that index, and a
    generated dark background otherwise (a list shorter than the segments is
    completed by generated backgrounds; extra images are ignored). *)
Theorem images_assigned_in_order (self : VideoGenerator) (E : env)
    (segments image_paths : list string) (duration : Q) (title : string) (w : world) :
  segments <> [] ->
  Forall (fun image_path => image_opens E image_path = true)
    (firstn (List.length segments) image_paths) ->
  exists clips w',
    _create_clips_with_typewriter self E segments image_paths duration title w = (Ok clips, w')
    /\ List.length clips = List.length segments
    /\ (forall k clip, nth_error clips k = Some clip ->
        background_matches self image_paths k (cc_background clip)).
Proof.
  intros Hne Hopen. unfold _create_clips_with_typewriter.
  destruct (segment_durations_nonempty segments duration Hne) as (ds & Hds & Hdlen).
  rewrite Hds.
  destruct (clip_loop_runs self E ds image_paths title segments 0 w) as (clips & w' & Hrun).
  - simpl. lia.
  - intros k p Hk Hp. rewrite List.Forall_forall in Hopen. apply Hopen.
    apply nth_error_In with (n := k). rewrite nth_error_firstn.
    destruct (Nat.ltb_spec k (List.length segments)); [exact Hp | lia].
  - exists clips, w'. split; [exact Hrun|].
    apply clip_loop_layers in Hrun. destruct Hrun as (_ & Hlen & Hb).
    split; [exact Hlen | exact Hb].
Qed.

Lemma images_assigned_in_order_witness :
  exists clips w',
    _create_clips_with_typewriter (example_generator offline_env 1920 1080) offline_env
      ["One two."; "Three."] ["assets/images/pexels_0.jpg"] 9 "T" empty_world = (Ok clips, w')
    /\ List.length clips = 2
    /\ (forall k clip, nth_error clips k = Some clip ->
        background_matches (example_generator offline_env 1920 1080)
          ["assets/images/pexels_0.jpg"] k (cc_background clip)).
Proof.
  apply (images_assigned_in_order (example_generator offline_env 1920 1080) offline_env
           ["One two."; "Three."] ["assets/images/pexels_0.jpg"] 9 "T" empty_world).
  - discriminate.
  - repeat constructor.
Defined.

Lemma clip_loop_unopenable (self : VideoGenerator) (E : env) (durations : list Q)
    (image_paths : list string) (title : string) (segments : list string) :
  forall i w k image_path,
    i + List.length segments <= List.length durations ->
    i <= k < i + List.length segments ->
    nth_error image_paths k = Some image_path ->
    image_opens E image_path = false ->
    exists w', clip_loop self E durations image_paths title i segments w = (Raise OSError, w').
Proof.
  induction segments as [|text rest IH]; intros i w k p Hlen Hk Hp Hopen; simpl in *; [lia|].
  destruct (nth_error durations i) as [d|] eqn:Hd.
  2:{ apply nth_error_None in Hd. lia. }
  unfold bind at 1.
  destruct (nth_error image_paths i) as [p0|] eqn:Hp0.
  - unfold _create_image_clip_with_effects at 1.
    destruct (image_opens E p0) eqn:Hopen0.
    + unfold ret at 1. unfold bind at 1.
      assert (Hki : k <> i) by (intros ->; congruence).
      destruct (IH (S i) w k p) as (w' & Hrest); [lia | lia | exact Hp | exact Hopen |].
      rewrite Hrest. eexists. reflexivity.
    + eexists. reflexivity.
  - unfold _create_fallback_background at 1. unfold bind at 1.
    destruct (random_choice_in E fallback_colors w) as (color & w2 & Hc & _); [discriminate|].
    rewrite Hc. unfold ret at 1. unfold bind at 1.
    assert (Hki : k <> i) by (intros ->; congruence).
    destruct (IH (S i) w2 k p) as (w' & Hrest); [lia | lia | exact Hp | exact Hopen |].
    rewrite Hrest. eexists. reflexivity.
Qed.

(** X8. An image assigned to a segment that cannot be opened is fatal:
    [_create_clips_with_typewriter] raises OSError and returns no clip, there
    is no fallback to a generated background for that segment. *)
Theorem unopenable_image_is_fatal (self : VideoGenerator) (E : env)
    (segments image_paths : list string) (duration : Q) (title : string) (w : world)
    (k : nat) (image_path : string) :
  k < List.length segments ->
  nth_error image_paths k = Some image_path ->
  image_opens E image_path = false ->
  exists w',
    _create_clips_with_typewriter self E segments image_paths duration title w
    = (Raise OSError, w').
Proof.
  intros Hk Hp Hopen. unfold _create_clips_with_typewriter.
  destruct (segment_durations_nonempty segments duration) as (ds & Hds & Hdlen);
    [destruct segments; [simpl in Hk; lia | discriminate]|].
  rewrite Hds.
  apply (clip_loop_unopenable self E _ image_paths title segments 0 w k image_path);
    [simpl; lia | lia | exact Hp | exact Hopen].
Qed.

Lemma unopenable_image_is_fatal_witness :
  exists w',
    _create_clips_with_typewriter
      (example_generator offline_env 1920 1080)
      (with_answers offline_env (fun _ => false) ConnectionFailed (fun _ => ConnectionFailed)
         (fun _ => None))
      ["One two."; "Three."] ["assets/images/pexels_0.jpg"] 9 "T" empty_world
    = (Raise OSError, w').
Proof.
  apply (unopenable_image_is_fatal (example_generator offline_env 1920 1080)
           (with_answers offline_env (fun _ => false) ConnectionFailed
              (fun _ => ConnectionFailed) (fun _ => None))
           ["One two."; "Three."] ["assets/images/pexels_0.jpg"] 9 "T" empty_world
           0 "assets/images/pexels_0.jpg"); [simpl; lia | reflexivity | reflexivity].
Defined.

(** ** Images, continued *)

Lemma post_fetch_image (E : env) (url path name : string) (w : world) :
  trace (snd (fetch E url path (add_image_file name) w)) = trace w ++ [EvDownload url path].
Proof.
  unfold fetch, bind, log. simpl.
  destruct (media_get E url) as [|status body]; [reflexivity|].
  destruct (is_error_status status); [reflexivity|].
  simpl. destruct body; reflexivity.
Qed.

Lemma download_photos_result (E : env) (photos : list pexels_photo) :
  forall i image_paths w l w',
    download_photos E i photos image_paths w = (Ok l, w') ->
    l = image_paths ++ map pexels_path (seq i (List.length photos))
    /\ downloads (trace w') = downloads (trace w) + List.length photos.
Proof.
  induction photos as [|photo rest IH]; intros i acc w l w' H; simpl in H.
  - injection H as <- <-. simpl. rewrite app_nil_r. split; [reflexivity | lia].
  - destruct (ph_large2x photo) as [img_url|]; [|discriminate].
    unfold bind at 1 in H.
    destruct (fetch E img_url _ _ w) as [[[]|e] w1] eqn:Hf; [|discriminate].
    apply IH in H. destruct H as [-> Hd].
    split.
    + simpl. rewrite <- app_assoc. reflexivity.
    + rewrite Hd.
      pose proof (post_fetch_image E img_url
                    (path_join "assets/images" ("pexels_" +:+ str_of_nat i +:+ ".jpg"))
                    ("pexels_" +:+ str_of_nat i +:+ ".jpg") w) as Ht.
      rewrite Hf in Ht. simpl in Ht. rewrite Ht, downloads_app.
      change (downloads [EvDownload img_url _]) with 1. simpl. lia.
Qed.

Lemma download_photos_succeeds (E : env) (photos : list pexels_photo) :
  existsb (photo_download_fails E) photos = false ->
  forall i image_paths w, exists l w',
    download_photos E i photos image_paths w = (Ok l, w').
Proof.
  induction photos as [|photo rest IH]; simpl; intros H i acc w.
  - eexists _, _. reflexivity.
  - apply orb_false_iff in H. destruct H as [Hphoto Hrest].
    unfold photo_download_fails in Hphoto.
    destruct (ph_large2x photo) as [img_url|]; [|discriminate].
    unfold bind at 1. unfold fetch, bind, log. simpl.
    destruct (media_get E img_url) as [|status body]; [discriminate|].
    apply orb_false_iff in Hphoto. destruct Hphoto as [Hst Hbody].
    rewrite Hst. simpl. destruct body; [|discriminate].
    apply IH. exact Hrest.
Qed.

Lemma downloads_after_search (t : list event) (query : string) :
  downloads (t ++ [EvPexelsSearch query]) = downloads t.
Proof. rewrite downloads_app. unfold downloads at 2. simpl. lia. Qed.

(** X9. With the credential configured, a search that answers with photos
    and downloads that all succeed, [_download_pexels_images] returns the
    paths assets/images/pexels_0.jpg, pexels_1.jpg, ... in the order of the
    answer, one per photo up to [count], after exactly that many downloads. *)
Theorem pexels_images_downloaded (self : VideoGenerator) (E : env) (topic : string)
    (count : nat) (w : world) (status : Z) (photos : list pexels_photo) :
  configured (pexels_api_key self) = true ->
  pexels_get E (pexels_query topic) count = Response status (Some photos) ->
  is_error_status status = false ->
  existsb (photo_download_fails E) (firstn count photos) = false ->
  fst (_download_pexels_images self E topic count w)
  = Ok (map pexels_path (seq 0 (Nat.min count (List.length photos))))
  /\ downloads (trace (snd (_download_pexels_images self E topic count w)))
     = downloads (trace w) + Nat.min count (List.length photos).
Proof.
  intros Hkey Hget Hst Hok. unfold _download_pexels_images. rewrite Hkey.
  change (negb true) with false. cbv iota.
  unfold catch, pexels_try, bind, log. cbv beta iota. rewrite Hget, Hst.
  destruct photos as [|photo rest].
  - unfold ret. cbn -[downloads Nat.min seq pexels_path].
    rewrite Nat.min_0_r, downloads_after_search.
    split; [reflexivity | lia].
  - remember (photo :: rest) as photos eqn:Hp.
    match goal with
    | |- context [download_photos E 0 ?ps [] ?w0] =>
        destruct (download_photos_succeeds E ps Hok 0 [] w0) as (l & w' & Hrun);
        rewrite Hrun; apply download_photos_result in Hrun
    end.
    destruct Hrun as [-> Hd]. cbn [fst snd].
    rewrite length_firstn in *. split; [reflexivity|].
    rewrite Hd. cbn [trace]. rewrite downloads_after_search. reflexivity.
Qed.

Lemma pexels_images_downloaded_witness :
  fst (_download_pexels_images
         (example_generator (example_env (Some "px") None None ConnectionFailed ConnectionFailed
                               (fun _ => 0) current_api) 1920 1080)
         (with_answers
            (example_env (Some "px") None None ConnectionFailed ConnectionFailed
               (fun _ => 0) current_api)
            (fun _ => true)
            (Response 200 (Some [{| ph_large2x := Some "https://images.pexels.com/1.jpg" |};
                                 {| ph_large2x := Some "https://images.pexels.com/2.jpg" |};
                                 {| ph_large2x := Some "https://images.pexels.com/3.jpg" |}]))
            (fun _ => Response 200 (Some tt)) (fun _ => None))
         "lighthouse" 2 empty_world)
  = Ok ["assets/images/pexels_0.jpg"; "assets/images/pexels_1.jpg"].
Proof.
  apply (proj1 (pexels_images_downloaded
                  (example_generator
                     (example_env (Some "px") None None ConnectionFailed ConnectionFailed
                        (fun _ => 0) current_api) 1920 1080)
                  (with_answers
                     (example_env (Some "px") None None ConnectionFailed ConnectionFailed
                        (fun _ => 0) current_api)
                     (fun _ => true)
                     (Response 200
                        (Some [{| ph_large2x := Some "https://images.pexels.com/1.jpg" |};
                               {| ph_large2x := Some "https://images.pexels.com/2.jpg" |};
                               {| ph_large2x := Some "https://images.pexels.com/3.jpg" |}]))
                     (fun _ => Response 200 (Some tt)) (fun _ => None))
                  "lighthouse" 2 empty_world 200 _ eq_refl eq_refl eq_refl eq_refl)).
Defined.

(** X10. [_download_pexels_images] is all or nothing and never returns more
    than [count] paths: its result is either empty or the complete list
    pexels_0.jpg ... of the photos answered, cut at [count]; an error on any
    single download discards the images already downloaded. *)
Theorem pexels_images_all_or_nothing (self : VideoGenerator) (E : env) (topic : string)
    (count : nat) (w : world) :
  exists image_paths w',
    _download_pexels_images self E topic count w = (Ok image_paths, w')
    /\ List.length image_paths <= count
    /\ (image_paths = []
        \/ exists status photos,
             pexels_get E (pexels_query topic) count = Response status (Some photos)
             /\ image_paths = map pexels_path (seq 0 (Nat.min count (List.length photos)))).
Proof.
  unfold _download_pexels_images.
  destruct (configured (pexels_api_key self)); simpl.
  2:{ eexists _, _. split; [reflexivity|]. split; [simpl; lia | left; reflexivity]. }
  unfold catch, pexels_try, bind, log. simpl.
  destruct (pexels_get E (pexels_query topic) count) as [|status body] eqn:Hget.
  { eexists _, _. split; [reflexivity|]. split; [simpl; lia | left; reflexivity]. }
  destruct (is_error_status status).
  { eexists _, _. split; [reflexivity|]. split; [simpl; lia | left; reflexivity]. }
  destruct body as [[|photo rest]|].
  - eexists _, _. split; [reflexivity|]. split; [simpl; lia | left; reflexivity].
  - match goal with
    | |- context [download_photos E 0 ?ps [] ?w0] =>
        destruct (download_photos E 0 ps [] w0) as [[l|e] w'] eqn:Hrun
    end.
    + apply download_photos_result in Hrun. destruct Hrun as [-> _].
      eexists _, _. split; [reflexivity|]. rewrite length_firstn.
      split; [simpl; rewrite length_map, length_seq; lia|].
      right. exists status, (photo :: rest). split; [reflexivity | reflexivity].
    + eexists _, _. split; [reflexivity|]. split; [simpl; lia | left; reflexivity].
  - eexists _, _. split; [reflexivity|]. split; [simpl; lia | left; reflexivity].
Qed.

(** ** Captions, continued *)

Local Open Scope Q_scope.

Lemma half_ge_150 (width : Z) (text_width : Q) :
  text_width <= inject_Z width - 300 <-> 150 <= (inject_Z width - text_width) / 2.
Proof.
  assert (H2 : (inject_Z width - text_width) / 2 * 2 == inject_Z width - text_width) by field.
  split; intros H.
  - apply Qmult_le_r with (z := 2); [reflexivity|]. rewrite H2. lra.
  - assert (H1 : 150 * 2 <= (inject_Z width - text_width) / 2 * 2)
      by (apply Qmult_le_compat_r; [exact H | discriminate]).
    rewrite H2 in H1. lra.
Qed.

(** X11. A caption line that fits between the two 150 px margins is centred
    in the frame; a wider line is placed at x = 150. *)
Theorem caption_centred_or_clamped (width : Z) (text_width : Q) :
  (text_width <= inject_Z width - 300 ->
   caption_x width text_width = (inject_Z width - text_width) / 2)
  /\ (inject_Z width - 300 < text_width -> caption_x width text_width = 150).
Proof.
  unfold caption_x, Qmax. split; intros H.
  - pose proof (proj1 (half_ge_150 width text_width) H) as Hh.
    apply Qle_bool_iff in Hh. rewrite Hh.
    rewrite Qgtb_false; [reflexivity|].
    assert (H3 : (inject_Z width - text_width) / 2 + text_width
                 == (inject_Z width + text_width) / 2) by field.
    rewrite H3. apply Qmult_le_r with (z := 2); [reflexivity|].
    assert (H5 : (inject_Z width + text_width) / 2 * 2 == inject_Z width + text_width) by field.
    rewrite H5. lra.
  - destruct (Qle_bool 150 ((inject_Z width - text_width) / 2)) eqn:Hc.
    + apply Qle_bool_iff in Hc. apply half_ge_150 in Hc.
      exfalso. apply (Qlt_irrefl text_width). eapply Qle_lt_trans; eassumption.
    + destruct (Qgtb _ _); reflexivity.
Qed.

Lemma caption_centred_or_clamped_witness :
  caption_x 1920 1050 = (inject_Z 1920 - 1050) / 2 /\ caption_x 1080 1050 = 150.
Proof.
  split.
  - apply (proj1 (caption_centred_or_clamped 1920 1050)). discriminate.
  - apply (proj2 (caption_centred_or_clamped 1080 1050)). reflexivity.
Defined.

Lemma draw_line_final (text_font : font) (x_text y_text : Q) (line : string) :
  List.filter is_final_pass (draw_line text_font x_text y_text line)
  = [{| dt_x := x_text; dt_y := y_text; dt_line := line; dt_font := text_font;
        dt_fill := (255, 245, 245, 255)%Z |}]
  /\ List.length (draw_line text_font x_text y_text line) = 121%nat
  /\ Forall (fun d => Qabs (dt_x d - x_text) <= 5 /\ Qabs (dt_y d - y_text) <= 5
                      /\ dt_line d = line)
       (draw_line text_font x_text y_text line).
Proof.
  split; [reflexivity|]. split; [reflexivity|].
  assert (Hoff : forall (a : Q) (z : Z), (-5 <= z <= 5)%Z -> Qabs (a + inject_Z z - a) <= 5).
  { intros a z Hz. assert (Ha : a + inject_Z z - a == inject_Z z) by ring.
    rewrite Ha. apply Qabs_Qle_condition. split.
    - change (-(5)) with (inject_Z (-5)). rewrite <- Zle_Qle. lia.
    - change 5 with (inject_Z 5). rewrite <- Zle_Qle. lia. }
  assert (Hself : forall a : Q, Qabs (a - a) <= 5).
  { intros a. assert (Ha : a - a == 0) by ring. rewrite Ha. discriminate. }
  unfold draw_line, outline_range. simpl.
  repeat (constructor; [simpl; split; [first [apply Hoff; lia | apply Hself] |
                                       split; [first [apply Hoff; lia | apply Hself] | reflexivity]]|]).
  constructor.
Qed.

Lemma draw_lines_layout (E : env) (width : Z) (text_font : font) (lines : list string) :
  forall y_text k,
    map (fun d => (dt_line d, dt_x d))
      (List.filter is_final_pass (draw_lines E width text_font y_text lines))
    = map (fun line => (line, caption_x width (text_width_of E text_font line))) lines
    /\ List.length (draw_lines E width text_font y_text lines) = (121 * List.length lines)%nat
    /\ Forall2 (fun d i => dt_y d == y_text + 80 * Q_of_nat i - 80 * Q_of_nat k)
         (List.filter is_final_pass (draw_lines E width text_font y_text lines))
         (seq k (List.length lines)).
Proof.
  induction lines as [|line rest IH]; intros y_text k.
  - simpl. split; [reflexivity|]. split; [reflexivity | constructor].
  - destruct (draw_line_final text_font (caption_x width (text_width_of E text_font line))
                y_text line) as (Hf & Hl & _).
    destruct (IH (y_text + 80) (S k)) as (H1 & H2 & H3).
    cbn [draw_lines]. rewrite List.filter_app, Hf, length_app, Hl.
    cbn [app map List.length seq dt_line dt_x].
    split; [rewrite H1; reflexivity|]. split; [rewrite H2; lia|].
    constructor.
    + cbn [dt_y]. ring.
    + eapply Forall2_impl; [exact H3|]. intros d i Hd. cbv beta in *. rewrite Hd.
      change (S k) with (1 + k)%nat. rewrite (Q_of_nat_add 1 k).
      change (Q_of_nat 1) with 1. ring.
Qed.

Lemma draw_lines_outline (E : env) (width : Z) (text_font : font) (lines : list string) :
  forall y_text,
    Forall (fun d =>
              exists f, List.In f (List.filter is_final_pass
                                     (draw_lines E width text_font y_text lines))
                        /\ Qabs (dt_x d - dt_x f) <= 5 /\ Qabs (dt_y d - dt_y f) <= 5
                        /\ dt_line d = dt_line f)
      (draw_lines E width text_font y_text lines).
Proof.
  induction lines as [|line rest IH]; intros y_text; [constructor|].
  destruct (draw_line_final text_font (caption_x width (text_width_of E text_font line))
              y_text line) as (Hf & _ & Hnear).
  cbn [draw_lines]. apply Forall_app. split.
  - eapply List.Forall_impl; [|exact Hnear]. intros d (Hx & Hy & Hl).
    eexists. split; [rewrite List.filter_app, Hf; left; reflexivity|].
    cbn [dt_x dt_y dt_line]. auto.
  - eapply List.Forall_impl; [|exact (IH (y_text + 80))]. intros d (f & Hin & Hrest).
    exists f. split; [|exact Hrest].
    rewrite List.filter_app. apply in_or_app. right. exact Hin.
Qed.

(** X12. The caption of a segment: the wrapped lines are drawn in order,
    line number [i] at y = (height - 80 n) / 2 + 80 i for [n] lines (the block
    is centred vertically, 80 px per line) and at the x of [caption_x] for its
    measured width; each line is drawn 121 times, and every pass is within
    5 px of the final one. *)
Theorem caption_layout (self : VideoGenerator) (E : env) (text : string) (duration : Q)
    (is_title : bool) (title : option string) :
  let lines := wrapped_lines_of E text in
  let clip := _create_text_image_clip self E text duration is_title title in
  placed_lines clip
  = map (fun line =>
           (line, caption_x (fst (resolution self))
                    (text_width_of E (load_font E fonts_to_try) line))) lines
  /\ List.length (cv_draws (ic_image clip)) = (121 * List.length lines)%nat
  /\ Forall2 (fun d i => dt_y d == first_line_y self (List.length lines) + 80 * Q_of_nat i)
       (List.filter is_final_pass (cv_draws (ic_image clip)))
       (seq 0 (List.length lines))
  /\ Forall (fun d =>
               exists f, List.In f (List.filter is_final_pass (cv_draws (ic_image clip)))
                         /\ Qabs (dt_x d - dt_x f) <= 5 /\ Qabs (dt_y d - dt_y f) <= 5
                         /\ dt_line d = dt_line f)
       (cv_draws (ic_image clip)).
Proof.
  cbv zeta. unfold placed_lines, _create_text_image_clip, wrapped_lines_of, first_line_y.
  cbn [ic_image cv_draws ic_duration].
  set (lines := flat_map (textwrap_wrap E) (split LF text)).
  destruct (draw_lines_layout E (fst (resolution self)) (load_font E fonts_to_try) lines
              ((inject_Z (snd (resolution self)) - Q_of_nat (List.length lines) * 80) / 2) 0)
    as (H1 & H2 & H3).
  split; [exact H1|]. split; [exact H2|]. split; [|apply draw_lines_outline].
  eapply Forall2_impl; [exact H3|]. intros d i Hd. cbv beta in *. rewrite Hd.
  change (Q_of_nat 0) with 0. ring.
Qed.

Local Close Scope Q_scope.

(** ** Music, continued *)

(** X13. Background music is never fatal: for a generator built by
    [__init__], [_get_background_music] returns normally whatever the
    network, the cache and the audio library do, only appending requests to
    the trace; with background music disabled it returns nothing and touches
    nothing. *)
Theorem background_music_never_raises (E : env) (cfg : pyvalue) (self : VideoGenerator)
    (duration : Q) (mood : string) (w : world) :
  __init__ E cfg = Ok self ->
  exists music w',
    _get_background_music self E duration mood w = (Ok music, w')
    /\ (exists evs, trace w' = trace w ++ evs)
    /\ (truthy (use_background_music self) = false -> music = None /\ w' = w).
Proof.
  intros Hinit. pose proof (init_queries _ _ _ Hinit) as Hq.
  unfold _get_background_music.
  destruct (truthy (use_background_music self)); simpl.
  - destruct (post_choose_music_path self E duration mood Hq w) as (evs & Ht & o & Hr & _).
    unfold bind. destruct (choose_music_path self E duration mood w) as [r w'].
    simpl in Ht, Hr. subst r.
    destruct o as [music_path|].
    + destruct (prepare_music self E music_path duration);
        eexists _, _; (split; [reflexivity|]); (split; [eauto | discriminate]).
    + eexists _, _. split; [reflexivity|]. split; [eauto | discriminate].
  - eexists _, _. split; [reflexivity|]. split; [exists []; rewrite app_nil_r; reflexivity | auto].
Qed.

Lemma background_music_never_raises_witness :
  exists music w',
    _get_background_music (example_generator offline_env 1920 1080) offline_env 60 "horror"
      (world_with_music ["old.mp3"]) = (Ok music, w')
    /\ (exists evs, trace w' = trace (world_with_music ["old.mp3"]) ++ evs)
    /\ (truthy (PyBool true) = false -> music = None /\ w' = world_with_music ["old.mp3"]).
Proof.
  apply (background_music_never_raises offline_env (example_config 1920 1080 [])).
  reflexivity.
Defined.

Local Open Scope Q_scope.

(** X14. A track shorter than the target (by a factor below 2^52) is
    repeated a number of times that exceeds the target and is the least such
    number or one more: with [k] copies, [k] copies exceed the target and
    [k - 2] copies do not reach it.  The extra copy occurs: the quotient of
    the floats 60.03 and 20.01 rounds to 3.0, so four copies are made where
    three suffice. *)
Theorem loop_count_is_tight (api : moviepy_api) (music : audio_clip) (target : Q) :
  0 < ac_duration music -> ac_duration music < target ->
  target < 4503599627370496 * ac_duration music ->
  has_concatenate_audioclips api = true ->
  exists looped,
    loop_music api music target = Ok looped
    /\ ac_copies looped = (int_of_Q (fdiv target (ac_duration music)) + 1)%Z
    /\ (2 <= ac_copies looped)%Z
    /\ ac_duration looped = inject_Z (ac_copies looped) * ac_duration music
    /\ inject_Z (ac_copies looped - 2) * ac_duration music < target
    /\ target < ac_duration looped.
Proof.
  intros Htrack Hshort Hbound Hcat.
  set (track := ac_duration music) in *.
  assert (Htarget : 0 <= target) by (apply Qlt_le_weak; eapply Qlt_trans; eassumption).
  destruct (loops_cover target track Htrack Htarget Hbound) as (Hfinite & Hq0 & Hcover).
  assert (Hnz : ~ track == 0) by (intros Hz; rewrite Hz in Htrack; discriminate).
  assert (Heq : target / track * track == target) by (field; exact Hnz).
  assert (Hx1 : 1 <= target / track).
  { apply Qle_shift_div_l; [exact Htrack|]. apply Qlt_le_weak.
    assert (Ht : 1 * track == track) by ring. rewrite Ht. exact Hshort. }
  assert (Hx2 : target / track <= 4503599627370496).
  { apply Qle_shift_div_r; [exact Htrack | apply Qlt_le_weak; exact Hbound]. }
  assert (Hq1 : 1 <= fdiv target track).
  { unfold fdiv. change 1 with (round64 1) at 1. apply round64_monotone. exact Hx1. }
  assert (Hq2 : fdiv target track <= 4503599627370496).
  { unfold fdiv. change 4503599627370496 with (round64 4503599627370496).
    apply round64_monotone. exact Hx2. }
  assert (Hone : (1 <= Qfloor (fdiv target track))%Z) by (apply Qfloor_ge_int; exact Hq1).
  assert (Htop : (Qfloor (fdiv target track) <= 4503599627370496)%Z).
  { rewrite <- (Qfloor_Z 4503599627370496). apply Qfloor_resp_le. exact Hq2. }
  assert (Hlow : inject_Z (Qfloor (fdiv target track) - 1) < target / track).
  { apply Qnot_le_lt. intros Hle.
    assert (Hr : fdiv target track <= inject_Z (Qfloor (fdiv target track) - 1)).
    { rewrite <- (round64_int (Qfloor (fdiv target track) - 1)) by lia.
      unfold fdiv at 1. apply round64_monotone. exact Hle. }
    pose proof (Qfloor_le (fdiv target track)) as Hfl.
    assert (Hc : inject_Z (Qfloor (fdiv target track))
                 <= inject_Z (Qfloor (fdiv target track) - 1))
      by (eapply Qle_trans; eassumption).
    rewrite <- Zle_Qle in Hc. lia. }
  unfold loop_music, int_of_float. fold track.
  rewrite (Qgtb_true _ _ Hshort).
  assert (Hz : Qeq_bool track 0 = false).
  { destruct (Qeq_bool track 0) eqn:Hb; [|reflexivity]. apply Qeq_bool_iff in Hb. contradiction. }
  rewrite Hz, Hfinite, Hcat. cbn [result_bind negb].
  rewrite (int_of_Q_floor _ Hq0) in *.
  destruct (Qfloor (fdiv target track) + 1 <=? 0)%Z eqn:Hle; [lia|].
  eexists. split; [reflexivity|]. cbn [ac_copies ac_duration].
  split; [reflexivity|]. split; [lia|]. split; [reflexivity|]. split; [|exact Hcover].
  replace (Qfloor (fdiv target track) + 1 - 2)%Z with (Qfloor (fdiv target track) - 1)%Z by lia.
  apply Qlt_le_trans with (target / track * track);
    [apply Qmult_lt_compat_r; assumption | rewrite Heq; apply Qle_refl].
Qed.

Lemma loop_count_is_tight_witness :
  exists looped,
    loop_music legacy_api
      {| ac_path := "assets/music/old.mp3"; ac_copies := 1;
         ac_duration := round64 (2001 # 100);
         ac_volume_scales := []; ac_fades := [] |} (round64 (6003 # 100)) = Ok looped
    /\ ac_copies looped = 4%Z
    /\ round64 (6003 # 100) <= 3 * round64 (2001 # 100)
    /\ inject_Z (ac_copies looped - 2) * round64 (2001 # 100) < round64 (6003 # 100)
    /\ round64 (6003 # 100) < ac_duration looped.
Proof.
  destruct (loop_count_is_tight legacy_api
              {| ac_path := "assets/music/old.mp3"; ac_copies := 1;
                 ac_duration := round64 (2001 # 100);
                 ac_volume_scales := []; ac_fades := [] |} (round64 (6003 # 100)))
    as (looped & H1 & H2 & _ & _ & H5 & H6); try reflexivity.
  exists looped. split; [exact H1|]. split; [exact H2|].
  split; [vm_compute; discriminate|]. split; [exact H5 | exact H6].
Defined.

Local Close Scope Q_scope.

(** ** Cache file names *)

Lemma all_chars_append (P : ascii -> bool) (a b : string) :
  all_chars P (a +:+ b) = all_chars P a && all_chars P b.
Proof.
  induction a as [|c a IH]; [reflexivity|].
  change (String c a +:+ b) with (String c (a +:+ b)).
  cbn [all_chars]. rewrite IH. apply andb_assoc.
Qed.

Lemma all_chars_safe_query (query : string) : all_chars filename_char (safe_query query) = true.
Proof.
  unfold safe_query. induction query as [|c q IH]; [reflexivity|].
  cbn [map_chars all_chars]. rewrite IH, andb_true_r.
  destruct (isalnum c) eqn:Hc; [unfold filename_char; rewrite Hc; reflexivity|].
  vm_compute. reflexivity.
Qed.

Lemma all_chars_uint (d : Decimal.uint) :
  all_chars filename_char (NilEmpty.string_of_uint d) = true.
Proof.
  induction d; cbn [NilEmpty.string_of_uint all_chars]; try rewrite IHd;
    try reflexivity; vm_compute; reflexivity.
Qed.

Lemma all_chars_str_of_Z (z : Z) : all_chars filename_char (str_of_Z z) = true.
Proof.
  unfold str_of_Z, NilZero.string_of_int, NilZero.string_of_uint.
  destruct (Z.to_int z) as [d|d]; destruct d;
    try (vm_compute; reflexivity);
    try (cbn [all_chars]; rewrite all_chars_uint; vm_compute; reflexivity);
    match goal with
    | |- all_chars _ (NilEmpty.string_of_uint ?u) = true => apply (all_chars_uint u)
    end.
Qed.

(** X15. For every query and every integer track id (the ids of both
    providers, and the drawn default, are integers; an id of another JSON
    type is not covered), the cache file names are made of letters, digits,
    underscore, minus and dot only: the query is sanitised character by
    character, and the decimal form of an integer adds digits and a minus
    sign at most. They contain no path separator, so such a track lands
    directly in the music directory. *)
Theorem cache_file_names_are_safe (query : string) (id : Z) :
  all_chars filename_char (pixabay_filename query id) = true
  /\ all_chars filename_char (freesound_filename id) = true
  /\ all_chars filename_char (safe_query query) = true
  /\ all_chars filename_char (str_of_Z id) = true
  /\ filename_char "/" = false /\ filename_char "\" = false
  /\ filename_char " " = false.
Proof.
  assert (Hp : all_chars filename_char "pixabay_" = true) by (vm_compute; reflexivity).
  assert (Hf : all_chars filename_char "freesound_" = true) by (vm_compute; reflexivity).
  assert (Hu : all_chars filename_char "_" = true) by (vm_compute; reflexivity).
  assert (Hm : all_chars filename_char ".mp3" = true) by (vm_compute; reflexivity).
  unfold pixabay_filename, freesound_filename.
  rewrite (all_chars_append _ "pixabay_"), (all_chars_append _ (safe_query query)),
    (all_chars_append _ "_"), (all_chars_append _ (str_of_Z id)),
    (all_chars_append _ "freesound_"), (all_chars_append _ (str_of_Z id)),
    Hp, Hf, Hu, Hm, all_chars_safe_query, all_chars_str_of_Z.
  split; [reflexivity|]. split; [reflexivity|].
  split; [reflexivity|]. split; [reflexivity|].
  split; [vm_compute; reflexivity|]. split; vm_compute; reflexivity.
Qed.

Lemma length_append (a b : string) :
  String.length (a +:+ b) = String.length a + String.length b.
Proof.
  induction a as [|c a IH]; [reflexivity|].
  change (String c a +:+ b) with (String c (a +:+ b)). simpl. rewrite IH. reflexivity.
Qed.

Lemma append_cancel_r (a b c : string) : a +:+ c = b +:+ c -> a = b.
Proof.
  revert b. induction a as [|x a IH]; intros [|y b] H.
  - reflexivity.
  - apply (f_equal String.length) in H. rewrite !length_append in H. simpl in H. lia.
  - apply (f_equal String.length) in H. rewrite !length_append in H. simpl in H. lia.
  - change (String x (a +:+ c) = String y (b +:+ c)) in H.
    injection H as -> H. f_equal. apply IH. exact H.
Qed.

Lemma append_cancel_l (a b c : string) : c +:+ a = c +:+ b -> a = b.
Proof.
  induction c as [|x c IH]; intros H; [exact H|].
  change (String x (c +:+ a) = String x (c +:+ b)) in H.
  injection H as H. apply IH. exact H.
Qed.

Lemma to_int_not_nil (z : Z) : Z.to_int z <> Decimal.Pos Decimal.Nil /\ Z.to_int z <> Decimal.Neg Decimal.Nil.
Proof.
  destruct z as [|p|p]; simpl; split; try discriminate;
    intros H; injection H as H; exact (DecimalPos.Unsigned.to_uint_nonnil p H).
Qed.

Lemma str_of_Z_inj (a b : Z) : str_of_Z a = str_of_Z b -> a = b.
Proof.
  unfold str_of_Z. intros H.
  apply (f_equal NilZero.int_of_string) in H.
  destruct (to_int_not_nil a) as [Ha1 Ha2]. destruct (to_int_not_nil b) as [Hb1 Hb2].
  rewrite !NilZero.isi in H by assumption.
  injection H as H. apply (f_equal Z.of_int) in H.
  rewrite !DecimalZ.of_to in H. exact H.
Qed.

(** X16. The cache file name determines the track: two tracks of the same
    query share a file name only if they have the same id, and a secondary
    file name is shared only by the same id. *)
Theorem cache_file_name_determines_id (query : string) (id1 id2 : Z) :
  (pixabay_filename query id1 = pixabay_filename query id2 -> id1 = id2)
  /\ (freesound_filename id1 = freesound_filename id2 -> id1 = id2).
Proof.
  unfold pixabay_filename, freesound_filename. split; intros H.
  - do 3 apply append_cancel_l in H. apply append_cancel_r in H.
    apply str_of_Z_inj. exact H.
  - apply append_cancel_l in H. apply append_cancel_r in H.
    apply str_of_Z_inj. exact H.
Qed.

Lemma cache_file_name_determines_id_witness :
  pixabay_filename "dark ambient" 17 = "pixabay_dark_ambient_17.mp3"
  /\ (17 = 17)%Z.
Proof.
  split; [reflexivity|].
  apply (proj1 (cache_file_name_determines_id "dark ambient" 17 17)). reflexivity.
Defined.

(** ** The primary search *)

Lemma random_randint_range (E : env) (w : world) :
  exists z w', random_randint E 1000 9999 w = (Ok z, w')
               /\ (1000 <= z <= 9999)%Z /\ trace w' = trace w.
Proof.
  unfold random_randint, bind, draw, ret. eexists _, _. split; [reflexivity|].
  split; [|reflexivity].
  pose proof (Z.mod_pos_bound (Z.of_nat (random_draw E (draws_used w))) (9999 - 1000 + 1)).
  lia.
Qed.

(** X17. [suitable_tracks] never raises and keeps, in order, exactly the
    hits that expose a URL under 'audio' or 'music'; a kept track carries the
    provider's id, or a drawn id between 1000 and 9999 when the hit has none.
    It sends no request. *)
Theorem suitable_tracks_kept (E : env) (hits : list pixabay_track) (w : world) :
  exists tracks w',
    suitable_tracks E hits w = (Ok tracks, w')
    /\ Forall2 track_kept
         (List.filter (fun track => nonempty (audio_url_of track)) hits) tracks
    /\ trace w' = trace w.
Proof.
  revert w. induction hits as [|track rest IH]; intros w; simpl.
  - eexists _, _. split; [reflexivity|]. split; [constructor | reflexivity].
  - destruct (nonempty (audio_url_of track)) eqn:Hurl; [|apply IH].
    unfold bind at 1.
    destruct (random_randint_range E w) as (z & w1 & Hz & Hrange & Ht1). rewrite Hz.
    unfold bind at 1.
    destruct (IH w1) as (tracks & w2 & Hrest & Hall & Ht2). rewrite Hrest.
    eexists _, _. split; [reflexivity|]. split; [|congruence].
    constructor; [|exact Hall].
    unfold track_kept. simpl. split; [reflexivity|]. split; [exact Hurl|].
    destruct (pt_id track); [reflexivity | exact Hrange].
Qed.

(** ** Downloads that fail *)

Lemma music_file_exists_false (name : string) (w : world) :
  name ∉ music_dir_files w -> music_file_exists name w = false.
Proof. intros H. unfold music_file_exists. apply bool_decide_eq_false_2. exact H. Qed.

(** X18. A download whose stream breaks after the file was opened raises,
    but leaves the file in the cache: the next resolution of the same track
    takes the truncated file for a cached one and returns it without a new
    request.  A download refused before the file is opened (no connection or
    an error status) leaves the cache as it was. *)
Theorem broken_download_is_taken_for_cached (self : VideoGenerator) (E : env)
    (query url : string) (id : Z) (w : world) :
  pixabay_filename query id ∉ music_dir_files w ->
  (forall status, media_get E url = Response status None -> is_error_status status = false ->
   exists e w1,
     pixabay_download self E query (url, id) w = (Raise e, w1)
     /\ pixabay_filename query id ∈ music_dir_files w1
     /\ pixabay_download self E query (url, id) w1
        = (Ok (Some (path_join (music_dir self) (pixabay_filename query id))), w1))
  /\ (media_get E url = ConnectionFailed
      \/ (exists status body, media_get E url = Response status body
                              /\ is_error_status status = true) ->
      exists e w1,
        pixabay_download self E query (url, id) w = (Raise e, w1)
        /\ music_dir_files w1 = music_dir_files w).
Proof.
  intros Hnew. pose proof (music_file_exists_false _ _ Hnew) as Hex. split.
  - intros status Hget Hst.
    assert (Hrun : exists w1,
               pixabay_download self E query (url, id) w = (Raise RequestException, w1)
               /\ pixabay_filename query id ∈ music_dir_files w1).
    { unfold pixabay_download, bind, get_world. cbn [fst snd]. rewrite Hex.
      unfold fetch, bind, log. cbv beta iota. rewrite Hget, Hst.
      unfold add_music_file, raise. eexists. split; [reflexivity|]. cbn. set_solver. }
    destruct Hrun as (w1 & Hrun & Hin).
    exists RequestException, w1. split; [exact Hrun|]. split; [exact Hin|].
    apply pixabay_download_cached. exact Hin.
  - intros Hfail.
    unfold pixabay_download, bind, get_world. cbn [fst snd]. rewrite Hex.
    unfold fetch, bind, log. cbv beta iota.
    destruct Hfail as [Hget|(status & body & Hget & Hst)].
    + rewrite Hget. eexists _, _. split; reflexivity.
    + rewrite Hget, Hst. eexists _, _. split; reflexivity.
Qed.

Lemma broken_download_is_taken_for_cached_witness :
  exists e w1,
    pixabay_download (example_generator offline_env 1920 1080)
      (with_answers offline_env (fun _ => true) ConnectionFailed (fun _ => Response 200 None)
         (fun _ => None))
      "calm" ("https://cdn.pixabay.com/audio/1.mp3", 1%Z) empty_world = (Raise e, w1)
    /\ pixabay_filename "calm" 1 ∈ music_dir_files w1
    /\ pixabay_download (example_generator offline_env 1920 1080)
         (with_answers offline_env (fun _ => true) ConnectionFailed (fun _ => Response 200 None)
            (fun _ => None))
         "calm" ("https://cdn.pixabay.com/audio/1.mp3", 1%Z) w1
       = (Ok (Some "assets/music/pixabay_calm_1.mp3"), w1).
Proof.
  apply (proj1 (broken_download_is_taken_for_cached
                  (example_generator offline_env 1920 1080)
                  (with_answers offline_env (fun _ => true) ConnectionFailed
                     (fun _ => Response 200 None) (fun _ => None))
                  "calm" "https://cdn.pixabay.com/audio/1.mp3" 1 empty_world
                  ltac:(vm_compute; set_solver)) 200%Z); reflexivity.
Defined.

(** ** The cache as last resort *)

Lemma list_music_nonempty (suffixes : list string) (w : world) (name : string) :
  name ∈ music_dir_files w -> has_suffix suffixes name = true ->
  list_music suffixes w <> [].
Proof.
  intros Hin Hs Hnil.
  assert (Hl : List.In name (list_music suffixes w)).
  { unfold list_music. apply filter_In. split; [|exact Hs].
    apply list_elem_of_In. apply elem_of_elements. exact Hin. }
  rewrite Hnil in Hl. exact Hl.
Qed.

(** X19. With a music file (.mp3, .wav, .ogg or .m4a) in the cache
    directory, the choice of a track always succeeds: whatever the
    credentials and whatever the network answers, [_get_background_music]
    ends up with a path. *)
Theorem cached_music_is_always_found (E : env) (cfg : pyvalue) (self : VideoGenerator)
    (duration : Q) (mood name : string) (w : world) :
  __init__ E cfg = Ok self ->
  name ∈ music_dir_files w ->
  has_suffix [".mp3"; ".wav"; ".ogg"; ".m4a"] name = true ->
  exists music_path w',
    choose_music_path self E duration mood w = (Ok (Some music_path), w').
Proof.
  intros Hinit Hin Hs. pose proof (init_queries _ _ _ Hinit) as Hq.
  pose proof (list_music_nonempty _ _ _ Hin Hs) as Hne.
  unfold choose_music_path, bind at 1, get_world. cbv beta iota.
  destruct (list_music [".mp3"; ".wav"; ".ogg"; ".m4a"] w) as [|n ns] eqn:Hl; [congruence|].
  assert (Hfirst : exists o w1,
             (if configured (pixabay_api_key self)
              then _search_pixabay_music self E mood duration else ret None) w = (Ok o, w1)).
  { destruct (configured (pixabay_api_key self)) eqn:Hkey.
    - destruct (post_search_pixabay_music self E mood duration Hkey Hq w)
        as (evs & _ & query & o & _ & Hr & _).
      destruct (_search_pixabay_music self E mood duration w) as [r w1].
      simpl in Hr. subst r. eauto.
    - eexists _, _. reflexivity. }
  destruct Hfirst as (o & w1 & Hfirst).
  unfold bind at 1. rewrite Hfirst.
  destruct o as [p|]; [eexists _, _; reflexivity|].
  cbn [map]. unfold bind at 1.
  destruct (random_choice_in E (path_join (music_dir self) n
                                  :: map (path_join (music_dir self)) ns) w1)
    as (x & w2 & Hc & _); [discriminate|].
  rewrite Hc. unfold bind, log, ret. eexists _, _. reflexivity.
Qed.

Lemma cached_music_is_always_found_witness :
  exists music_path w',
    choose_music_path
      (example_generator
         (example_env None (Some "pb-key") (Some "fs-key") ConnectionFailed ConnectionFailed
            (fun _ => 0) current_api) 1920 1080)
      (example_env None (Some "pb-key") (Some "fs-key") ConnectionFailed ConnectionFailed
         (fun _ => 0) current_api)
      60 "horror" (world_with_music ["old.m4a"]) = (Ok (Some music_path), w').
Proof.
  apply (cached_music_is_always_found
           (example_env None (Some "pb-key") (Some "fs-key") ConnectionFailed ConnectionFailed
              (fun _ => 0) current_api)
           (example_config 1920 1080 []) _ 60 "horror" "old.m4a").
  - reflexivity.
  - vm_compute. set_solver.
  - reflexivity.
Defined.

(** ** Backgrounds: geometry *)
Local Open Scope Q_scope.

Lemma int_of_Q_eq (a b : Q) : 0 <= a -> a == b -> int_of_Q a = int_of_Q b.
Proof.
  intros Ha Hab. rewrite (int_of_Q_floor a Ha).
  rewrite (int_of_Q_floor b) by (rewrite <- Hab; exact Ha).
  apply Qfloor_comp. exact Hab.
Qed.

Lemma int_of_fraction (n d : Z) : (0 <= n)%Z -> (0 < d)%Z ->
  int_of_Q (inject_Z n / inject_Z d) = (n / d)%Z.
Proof.
  intros Hn Hd. destruct d as [|p|p]; try lia.
  assert (H : inject_Z n / inject_Z (Z.pos p) == n # p).
  { unfold Qeq, Qdiv, Qmult, Qinv, inject_Z. simpl. lia. }
  assert (H0 : 0 <= inject_Z n / inject_Z (Z.pos p)).
  { rewrite H. unfold Qle. simpl. lia. }
  rewrite (int_of_Q_eq _ _ H0 H). unfold int_of_Q. simpl.
  apply Z.quot_div_nonneg; lia.
Qed.

Lemma inject_Z_pos (z : Z) : (0 < z)%Z -> 0 < inject_Z z.
Proof. intros H. unfold Qlt. simpl. lia. Qed.

Lemma inject_Z_nonneg (z : Z) : (0 <= z)%Z -> 0 <= inject_Z z.
Proof. intros H. unfold Qle. simpl. lia. Qed.

Lemma fraction_nonneg (n d : Z) : (0 <= n)%Z -> (0 < d)%Z -> 0 <= inject_Z n / inject_Z d.
Proof.
  intros Hn Hd. apply Qle_shift_div_l; [apply inject_Z_pos; exact Hd|].
  assert (H : 0 * inject_Z d == 0) by ring. rewrite H. apply inject_Z_nonneg. exact Hn.
Qed.

Lemma Qmult_bound (x y bx by' : Q) :
  0 <= x -> x <= bx -> 0 <= y -> y <= by' -> 0 <= x * y /\ x * y <= bx * by'.
Proof.
  intros H1 H2 H3 H4. split; [apply Qmult_le_0_compat; assumption|].
  apply Qle_trans with (bx * y).
  - apply Qmult_le_compat_r; assumption.
  - apply Qmult_le_l'; [exact H4 | lra].
Qed.

Lemma pixels_range (n : Z) :
  (0 < n)%Z -> (n <= 1048576)%Z -> 1 <= inject_Z n /\ inject_Z n <= 1048576.
Proof.
  intros H0 H1. split.
  - change 1 with (inject_Z 1). rewrite <- Zle_Qle. lia.
  - change 1048576 with (inject_Z 1048576). rewrite <- Zle_Qle. exact H1.
Qed.

Lemma of_Z_pixels (n : Z) :
  (0 < n)%Z -> (n <= 1048576)%Z -> float_of_int n = Ok (of_Z n) /\ of_Z n == inject_Z n.
Proof.
  intros H0 H1. destruct (pixels_range n H0 H1) as [P0 P1].
  assert (He : of_Z n == inject_Z n) by (apply round64_int; lia).
  split; [|exact He]. unfold float_of_int.
  rewrite not_overflows; [reflexivity | rewrite He; lra | rewrite He; lra].
Qed.

(** The rounded ratio of two sizes of at most 2^20 pixels: its error, times
    the denominator, and its range. *)
Lemma ratio_bounds (a b : Z) :
  (0 < a)%Z -> (a <= 1048576)%Z -> (0 < b)%Z -> (b <= 1048576)%Z ->
  int_true_div a b = Ok (true_div a b)
  /\ inject_Z a * (1 - u) - inject_Z b * eta <= true_div a b * inject_Z b
  /\ true_div a b * inject_Z b <= inject_Z a * (1 + u) + inject_Z b * eta
  /\ 1 # 1048576 <= true_div a b
  /\ true_div a b <= 1048576.
Proof.
  intros Ha0 Ha1 Hb0 Hb1.
  destruct (pixels_range a Ha0 Ha1) as [A0 A1]. destruct (pixels_range b Hb0 Hb1) as [B0 B1].
  set (x := inject_Z a / inject_Z b).
  assert (Hxb : x * inject_Z b == inject_Z a) by (unfold x; field; lra).
  assert (Hx0 : 1 # 1048576 <= x).
  { unfold x. apply Qle_shift_div_l; [lra|]. lra. }
  assert (Hx1 : x <= 1048576).
  { unfold x. apply Qle_shift_div_r; [lra|]. nra. }
  assert (Hr0 : 1 # 1048576 <= true_div a b).
  { unfold true_div. fold x. apply Qle_trans with (round64 (1 # 1048576)); [apply Qle_refl|].
    apply round64_monotone. exact Hx0. }
  assert (Hr1 : true_div a b <= 1048576).
  { unfold true_div. fold x. apply Qle_trans with (round64 1048576); [|apply Qle_refl].
    apply round64_monotone. exact Hx1. }
  destruct (round64_error x ltac:(lra)) as [E1 E2].
  change (round64 x) with (true_div a b) in E1, E2.
  split.
  { unfold int_true_div. destruct (Z.eqb_spec b 0) as [|_]; [lia|].
    rewrite not_overflows; [reflexivity | lra | lra]. }
  set (r := true_div a b) in *. clearbody r.
  set (A := inject_Z a) in *. set (B := inject_Z b) in *. clearbody A B x.
  assert (M1 : (x * (1 - u) - eta) * B <= r * B) by (apply Qmult_le_compat_r; lra).
  assert (M2 : r * B <= (x * (1 + u) + eta) * B) by (apply Qmult_le_compat_r; lra).
  assert (N1 : (x * (1 - u) - eta) * B == A * (1 - u) - B * eta) by (rewrite <- Hxb; ring).
  assert (N2 : (x * (1 + u) + eta) * B == A * (1 + u) + B * eta) by (rewrite <- Hxb; ring).
  rewrite N1 in M1. rewrite N2 in M2.
  repeat split; assumption.
Qed.

Lemma int_round_ge (q : Q) (m : Z) :
  0 <= q -> (Z.abs m < 2 ^ 53)%Z -> inject_Z m <= q -> (m <= int_of_Q (round64 q))%Z.
Proof.
  intros Hq Hm Hle. rewrite (int_of_Q_floor _ (round64_nonneg q Hq)).
  apply Qfloor_ge_int. rewrite <- (round64_int m Hm). apply round64_monotone. exact Hle.
Qed.

Lemma int_round_le (q : Q) :
  0 <= q -> inject_Z (int_of_Q (round64 q)) <= q * (1 + u) + eta.
Proof.
  intros Hq. rewrite (int_of_Q_floor _ (round64_nonneg q Hq)).
  eapply Qle_trans; [apply Qfloor_le|]. apply (round64_error q Hq).
Qed.

Lemma int_of_float_bounded (q : Q) :
  0 <= q -> q <= 4503599627370496 -> int_of_float (round64 q) = Ok (int_of_Q (round64 q)).
Proof.
  intros H0 H1. unfold int_of_float. rewrite not_overflows; [reflexivity| |].
  - apply round64_nonneg. exact H0.
  - apply Qle_trans with (round64 4503599627370496); [|apply Qle_refl].
    apply round64_monotone. exact H1.
Qed.

Lemma Zlt_succ_Q (m n : Z) : inject_Z m < inject_Z n + 1 -> (m <= n)%Z.
Proof.
  intros H. change 1 with (inject_Z 1) in H. rewrite <- inject_Z_plus, <- Zlt_Qlt in H. lia.
Qed.

(** The first branch: the image is wider than the frame. *)
Lemma cover_wider (w h W H : Z) (r : Q) :
  (0 < w)%Z -> (w <= 1048576)%Z -> (0 < h)%Z -> (h <= 1048576)%Z ->
  (0 < W)%Z -> (W <= 1048576)%Z -> (0 < H)%Z -> (H <= 1048576)%Z ->
  inject_Z w * (1 - u) - inject_Z h * eta <= r * inject_Z h ->
  r * inject_Z h <= inject_Z w * (1 + u) + inject_Z h * eta ->
  0 <= r -> r <= 1048576 ->
  (W * h < w * H)%Z ->
  int_of_float (fmul (inject_Z H) r) = Ok (int_of_Q (fmul (inject_Z H) r))
  /\ (W <= int_of_Q (fmul (inject_Z H) r))%Z
  /\ (int_of_Q (fmul (inject_Z H) r) * h <= H * w)%Z
  /\ (H * w <= (int_of_Q (fmul (inject_Z H) r) + 1) * h)%Z.
Proof.
  intros Hw0 Hw1 Hh0 Hh1 HW0 HW1 HH0 HH1 R1 R2 Hr0 Hr1 Hwide.
  destruct (pixels_range w Hw0 Hw1) as [A0 A1]. destruct (pixels_range h Hh0 Hh1) as [B0 B1].
  destruct (pixels_range W HW0 HW1) as [C0 C1]. destruct (pixels_range H HH0 HH1) as [D0 D1].
  destruct eta_small as [He0 He1]. pose proof u_value as Hu.
  assert (Hgap : inject_Z W * inject_Z h + 1 <= inject_Z H * inject_Z w).
  { change 1 with (inject_Z 1). rewrite <- !inject_Z_mult, <- inject_Z_plus, <- Zle_Qle. lia. }
  unfold fmul.
  set (q := inject_Z H * r).
  assert (Hq0 : 0 <= q) by (unfold q; apply Qmult_le_0_compat; lra).
  assert (Hq1 : q <= 4503599627370496).
  { unfold q. destruct (Qmult_bound (inject_Z H) r 1048576 1048576) as [_ Hb]; try lra. }
  set (m := ((H * w - 1) / h)%Z).
  assert (Hm : (m * h <= H * w - 1 /\ H * w - 1 < (m + 1) * h)%Z).
  { unfold m. pose proof (Z.div_mod (H * w - 1) h ltac:(lia)).
    pose proof (Z.mod_pos_bound (H * w - 1) h Hh0). lia. }
  assert (HHw : (1 <= H * w <= 1048576 * 1048576)%Z) by nia.
  assert (Hm0 : (0 <= m)%Z) by (unfold m; apply Z.div_pos; lia).
  assert (Hm1 : (m <= H * w)%Z) by nia.
  assert (HmQ : inject_Z m * inject_Z h + 1 <= inject_Z H * inject_Z w).
  { change 1 with (inject_Z 1). rewrite <- !inject_Z_mult, <- inject_Z_plus, <- Zle_Qle. lia. }
  (* the product, times the height of the image *)
  assert (Q1 : inject_Z H * (inject_Z w * (1 - u) - inject_Z h * eta) <= q * inject_Z h).
  { unfold q. rewrite <- Qmult_assoc. apply Qmult_le_l'; [exact R1 | lra]. }
  assert (Q2 : q * inject_Z h <= inject_Z H * (inject_Z w * (1 + u) + inject_Z h * eta)).
  { unfold q. rewrite <- Qmult_assoc. apply Qmult_le_l'; [exact R2 | lra]. }
  set (a := inject_Z w) in *. set (b := inject_Z h) in *.
  set (c := inject_Z W) in *. set (d := inject_Z H) in *.
  destruct (Qmult_bound d a 1048576 1048576) as [Pda0 Pda]; try lra.
  destruct (Qmult_bound d b 1048576 1048576) as [Pdb0 Pdb]; try lra.
  destruct (Qmult_bound c b 1048576 1048576) as [Pcb0 Pcb]; try lra.
  assert (Pe : d * b * eta <= 1048576 * 1048576 * eta) by (apply Qmult_le_compat_r; lra).
  assert (Pe0 : 0 <= d * b * eta) by (apply Qmult_le_0_compat; lra).
  assert (Hcover : c <= q).
  { apply Qmult_le_r with b; [lra|]. rewrite Hu in *.
    set (P1 := d * a) in *. set (P2 := d * b * eta) in *. set (P3 := c * b) in *.
    assert (E : d * (a * (1 - (1 # 9007199254740992)) - b * eta)
                == P1 - (1 # 9007199254740992) * P1 - P2) by (unfold P1, P2; ring).
    rewrite E in Q1. clearbody P1 P2 P3. lra. }
  assert (Hlow : inject_Z m <= q).
  { apply Qmult_le_r with b; [lra|]. rewrite Hu in *.
    set (P1 := d * a) in *. set (P2 := d * b * eta) in *.
    assert (E : d * (a * (1 - (1 # 9007199254740992)) - b * eta)
                == P1 - (1 # 9007199254740992) * P1 - P2) by (unfold P1, P2; ring).
    rewrite E in Q1. clearbody P1 P2. lra. }
  split; [apply int_of_float_bounded; assumption|].
  split; [apply int_round_ge; [exact Hq0 | lia | exact Hcover]|].
  split.
  - pose proof (int_round_le q Hq0) as Hz.
    set (n := int_of_Q (round64 q)) in *.
    assert (Hn0 : (0 <= n)%Z).
    { unfold n. rewrite (int_of_Q_floor _ (round64_nonneg q Hq0)).
      apply (Qfloor_ge_int _ 0). apply round64_nonneg. exact Hq0. }
    assert (Hnb : inject_Z n * b <= (q * (1 + u) + eta) * b)
      by (apply Qmult_le_compat_r; [exact Hz | lra]).
    assert (Hfin : inject_Z (n * h) < inject_Z (H * w) + 1).
    { rewrite !inject_Z_mult. fold a b d.
      destruct (Qmult_bound q b 4503599627370496 1048576) as [Pqb0 Pqb]; try lra.
      rewrite Hu in *.
      set (P1 := d * a) in *. set (P2 := d * b * eta) in *. set (P4 := q * b) in *.
      assert (E2 : d * (a * (1 + (1 # 9007199254740992)) + b * eta)
                   == P1 + (1 # 9007199254740992) * P1 + P2) by (unfold P1, P2; ring).
      rewrite E2 in Q2.
      assert (E3 : (q * (1 + (1 # 9007199254740992)) + eta) * b
                   == P4 + (1 # 9007199254740992) * P4 + eta * b) by (unfold P4; ring).
      rewrite E3 in Hnb.
      assert (Peb : eta * b <= 1048576 * eta) by (rewrite Qmult_comm; apply Qmult_le_compat_r; lra).
      set (P5 := eta * b) in *. set (P6 := inject_Z n * b) in *.
      clearbody P1 P2 P4 P5 P6. lra. }
    apply Zlt_succ_Q in Hfin. exact Hfin.
  - assert (Hn : (m <= int_of_Q (round64 q))%Z) by (apply int_round_ge; [exact Hq0 | nia | exact Hlow]).
    nia.
Qed.

(** The second branch: the image is not wider than the frame. *)
Lemma cover_taller (w h W H : Z) (r : Q) :
  (0 < w)%Z -> (w <= 1048576)%Z -> (0 < h)%Z -> (h <= 1048576)%Z ->
  (0 < W)%Z -> (W <= 1048576)%Z -> (0 < H)%Z -> (H <= 1048576)%Z ->
  inject_Z w * (1 - u) - inject_Z h * eta <= r * inject_Z h ->
  r * inject_Z h <= inject_Z w * (1 + u) + inject_Z h * eta ->
  1 # 1048576 <= r -> r <= 1048576 ->
  (w * H <= W * h)%Z ->
  int_of_float (fdiv (inject_Z W) r) = Ok (int_of_Q (fdiv (inject_Z W) r))
  /\ (H - 1 <= int_of_Q (fdiv (inject_Z W) r))%Z
  /\ ((w * H < W * h)%Z -> (H <= int_of_Q (fdiv (inject_Z W) r))%Z)
  /\ (int_of_Q (fdiv (inject_Z W) r) * w <= W * h)%Z
  /\ (W * h <= (int_of_Q (fdiv (inject_Z W) r) + 1) * w)%Z.
Proof.
  intros Hw0 Hw1 Hh0 Hh1 HW0 HW1 HH0 HH1 R1 R2 Hr0 Hr1 Htall.
  destruct (pixels_range w Hw0 Hw1) as [A0 A1]. destruct (pixels_range h Hh0 Hh1) as [B0 B1].
  destruct (pixels_range W HW0 HW1) as [C0 C1]. destruct (pixels_range H HH0 HH1) as [D0 D1].
  destruct eta_small as [He0 He1]. pose proof u_value as Hu.
  assert (Hexact : inject_Z H * inject_Z w <= inject_Z W * inject_Z h).
  { rewrite <- !inject_Z_mult, <- Zle_Qle. lia. }
  unfold fdiv.
  set (q := inject_Z W / r).
  assert (Hqr : q * r == inject_Z W) by (unfold q; field; lra).
  assert (Hq0 : 0 <= q) by (unfold q; apply Qle_shift_div_l; lra).
  assert (Hq1 : q <= 1048576 * 1048576).
  { unfold q. apply Qle_shift_div_r; [lra|].
    apply Qle_trans with (1048576 * 1048576 * (1 # 1048576)); [lra|].
    apply Qmult_le_l'; [exact Hr0 | discriminate]. }
  set (m := ((W * h - 1) / w)%Z).
  assert (HWh : (1 <= W * h <= 1048576 * 1048576)%Z) by nia.
  assert (Hm : (m * w <= W * h - 1 /\ W * h - 1 < (m + 1) * w)%Z).
  { unfold m. pose proof (Z.div_mod (W * h - 1) w ltac:(lia)).
    pose proof (Z.mod_pos_bound (W * h - 1) w Hw0). lia. }
  assert (Hm0 : (0 <= m)%Z) by (unfold m; apply Z.div_pos; lia).
  assert (Hm1 : (m <= W * h)%Z) by nia.
  assert (HmQ : inject_Z m * inject_Z w + 1 <= inject_Z W * inject_Z h).
  { change 1 with (inject_Z 1). rewrite <- !inject_Z_mult, <- inject_Z_plus, <- Zle_Qle. lia. }
  assert (HmR : 0 <= inject_Z m /\ inject_Z m <= 1048576 * 1048576).
  { split; [change 0 with (inject_Z 0) | change (1048576 * 1048576) with (inject_Z (1048576 * 1048576))];
      rewrite <- Zle_Qle; lia. }
  set (a := inject_Z w) in *. set (b := inject_Z h) in *.
  set (c := inject_Z W) in *. set (d := inject_Z H) in *.
  destruct (Qmult_bound d a 1048576 1048576) as [Pda0 Pda]; try lra.
  destruct (Qmult_bound d b 1048576 1048576) as [Pdb0 Pdb]; try lra.
  destruct (Qmult_bound c b 1048576 1048576) as [Pcb0 Pcb]; try lra.
  assert (Hrb : 0 < r * b) by (apply Qmult_lt_0_compat; lra).
  (* an integer below the quotient *)
  assert (Hbelow : forall k : Q,
             0 <= k -> k * (a * (1 + u) + b * eta) <= c * b -> k <= q).
  { intros k Hk0 Hk. apply Qmult_le_r with (r * b); [exact Hrb|].
    assert (E : q * (r * b) == c * b) by (rewrite Qmult_assoc, Hqr; reflexivity).
    rewrite E. eapply Qle_trans; [|exact Hk]. apply Qmult_le_l'; [exact R2 | exact Hk0]. }
  assert (Hcover1 : d - 1 <= q).
  { apply Hbelow; [lra|]. rewrite Hu in *.
    destruct (Qmult_bound (d - 1) b 1048576 1048576) as [T0 T1]; try lra.
    assert (T2 : (d - 1) * b * eta <= 1048576 * 1048576 * eta)
      by (apply Qmult_le_compat_r; lra).
    assert (E : (d - 1) * (a * (1 + (1 # 9007199254740992)) + b * eta)
                == d * a - a + (1 # 9007199254740992) * (d * a) - (1 # 9007199254740992) * a
                   + (d - 1) * b * eta) by ring.
    rewrite E. set (P1 := d * a) in *. set (P3 := c * b) in *.
    set (P2 := (d - 1) * b * eta) in *. clearbody P1 P2 P3. lra. }
  assert (Hcover2 : (w * H < W * h)%Z -> d <= q).
  { intros Hlt.
    assert (Hgap : d * a + 1 <= c * b).
    { unfold a, b, c, d. change 1 with (inject_Z 1).
      rewrite <- !inject_Z_mult, <- inject_Z_plus, <- Zle_Qle. lia. }
    apply Hbelow; [lra|]. rewrite Hu in *.
    assert (T2 : d * b * eta <= 1048576 * 1048576 * eta) by (apply Qmult_le_compat_r; lra).
    assert (E : d * (a * (1 + (1 # 9007199254740992)) + b * eta)
                == d * a + (1 # 9007199254740992) * (d * a) + d * b * eta) by ring.
    rewrite E. set (P1 := d * a) in *. set (P3 := c * b) in *.
    set (P2 := d * b * eta) in *. clearbody P1 P2 P3. lra. }
  assert (Hlow : inject_Z m <= q).
  { apply Hbelow; [lra|]. rewrite Hu in *.
    destruct (Qmult_bound (inject_Z m) b (1048576 * 1048576) 1048576) as [T0 T1]; try lra.
    assert (T2 : inject_Z m * b * eta <= 1048576 * 1048576 * 1048576 * eta)
      by (apply Qmult_le_compat_r; lra).
    assert (E : inject_Z m * (a * (1 + (1 # 9007199254740992)) + b * eta)
                == inject_Z m * a + (1 # 9007199254740992) * (inject_Z m * a)
                   + inject_Z m * b * eta) by ring.
    rewrite E. set (Pm := inject_Z m * a) in *. set (P3 := c * b) in *.
    set (P2 := inject_Z m * b * eta) in *. clearbody Pm P2 P3. lra. }
  split; [apply int_of_float_bounded; [exact Hq0 | lra]|].
  split.
  { apply int_round_ge; [exact Hq0 | lia |].
    unfold Zminus. rewrite inject_Z_plus. exact Hcover1. }
  split.
  { intros Hlt. apply int_round_ge; [exact Hq0 | lia | apply Hcover2; exact Hlt]. }
  split.
  - pose proof (int_round_le q Hq0) as Hz.
    set (n := int_of_Q (round64 q)) in *.
    assert (Hna : inject_Z n * a <= (q * (1 + u) + eta) * a)
      by (apply Qmult_le_compat_r; [exact Hz | lra]).
    assert (Hqa : q * (a * (1 - u) - b * eta) <= q * (r * b))
      by (apply Qmult_le_l'; [exact R1 | exact Hq0]).
    assert (E : q * (r * b) == c * b) by (rewrite Qmult_assoc, Hqr; reflexivity).
    rewrite E in Hqa.
    destruct (Qmult_bound q b (1048576 * 1048576) 1048576) as [T0 T1]; try lra.
    assert (T2 : q * b * eta <= 1048576 * 1048576 * 1048576 * eta)
      by (apply Qmult_le_compat_r; lra).
    assert (T3 : 0 <= q * b * eta) by (apply Qmult_le_0_compat; lra).
    assert (T4 : 0 <= q * a) by (apply Qmult_le_0_compat; lra).
    assert (Hfin : inject_Z (n * w) < inject_Z (W * h) + 1).
    { rewrite !inject_Z_mult. fold a b c. rewrite Hu in *.
      assert (E1 : q * (a * (1 - (1 # 9007199254740992)) - b * eta)
                   == q * a - (1 # 9007199254740992) * (q * a) - q * b * eta) by ring.
      rewrite E1 in Hqa.
      assert (E2 : (q * (1 + (1 # 9007199254740992)) + eta) * a
                   == q * a + (1 # 9007199254740992) * (q * a) + eta * a) by ring.
      rewrite E2 in Hna.
      assert (T5 : eta * a <= 1048576 * eta)
        by (rewrite Qmult_comm; apply Qmult_le_compat_r; lra).
      set (P7 := q * a) in *. set (P8 := q * b * eta) in *. set (P3 := c * b) in *.
      set (P5 := eta * a) in *. set (P6 := inject_Z n * a) in *.
      clearbody P3 P5 P6 P7 P8. lra. }
    apply Zlt_succ_Q in Hfin. exact Hfin.
  - assert (Hn : (m <= int_of_Q (round64 q))%Z)
      by (apply int_round_ge; [exact Hq0 | lia | exact Hlow]).
    nia.
Qed.

(** The comparison of the two rounded ratios agrees with the comparison of
    the exact ones, up to the case of equal aspect ratios. *)
Lemma ratio_compare (w h W H : Z) :
  (0 < w)%Z -> (w <= 1048576)%Z -> (0 < h)%Z -> (h <= 1048576)%Z ->
  (0 < W)%Z -> (W <= 1048576)%Z -> (0 < H)%Z -> (H <= 1048576)%Z ->
  (Qgtb (true_div w h) (true_div W H) = true -> (W * h < w * H)%Z)
  /\ (Qgtb (true_div w h) (true_div W H) = false -> (w * H <= W * h)%Z).
Proof.
  intros Hw0 Hw1 Hh0 Hh1 HW0 HW1 HH0 HH1.
  destruct (pixels_range w Hw0 Hw1) as [A0 A1]. destruct (pixels_range h Hh0 Hh1) as [B0 B1].
  destruct (pixels_range W HW0 HW1) as [C0 C1]. destruct (pixels_range H HH0 HH1) as [D0 D1].
  destruct eta_small as [He0 He1]. pose proof u_value as Hu.
  split; intros Hcmp.
  - destruct (Z_lt_le_dec (W * h) (w * H)) as [Hlt|Hle]; [exact Hlt|]. exfalso.
    apply Qgtb_spec in Hcmp. apply (Qlt_irrefl (true_div W H)).
    eapply Qlt_le_trans; [exact Hcmp|]. unfold true_div. apply round64_monotone.
    apply Qle_shift_div_l; [lra|].
    assert (E : inject_Z w / inject_Z h * inject_Z H
                == inject_Z w * inject_Z H / inject_Z h) by (field; lra).
    rewrite E. apply Qle_shift_div_r; [lra|].
    rewrite <- !inject_Z_mult, <- Zle_Qle. exact Hle.
  - destruct (Z_lt_le_dec (W * h) (w * H)) as [Hlt|Hle]; [|exact Hle]. exfalso.
    destruct (ratio_bounds w h Hw0 Hw1 Hh0 Hh1) as (_ & R1 & _ & R3 & R4).
    destruct (ratio_bounds W H HW0 HW1 HH0 HH1) as (_ & _ & T2 & T3 & T4).
    assert (Hle : true_div w h <= true_div W H).
    { unfold Qgtb in Hcmp. destruct (Qle_bool (true_div w h) (true_div W H)) eqn:E;
        [apply Qle_bool_iff; exact E | discriminate]. }
    set (r := true_div w h) in *. set (T := true_div W H) in *.
    assert (Hgap : inject_Z W * inject_Z h + 1 <= inject_Z w * inject_Z H).
    { change 1 with (inject_Z 1). rewrite <- !inject_Z_mult, <- inject_Z_plus, <- Zle_Qle. lia. }
    set (a := inject_Z w) in *. set (b := inject_Z h) in *.
    set (c := inject_Z W) in *. set (d := inject_Z H) in *.
    assert (L1 : (a * (1 - u) - b * eta) * d <= r * b * d)
      by (apply Qmult_le_compat_r; [exact R1 | lra]).
    assert (L2 : T * d * b <= (c * (1 + u) + d * eta) * b)
      by (apply Qmult_le_compat_r; [exact T2 | lra]).
    assert (L3 : r * (b * d) <= T * (b * d)).
    { apply Qmult_le_compat_r; [exact Hle|]. apply Qmult_le_0_compat; lra. }
    destruct (Qmult_bound a d 1048576 1048576) as [Pad0 Pad]; try lra.
    destruct (Qmult_bound c b 1048576 1048576) as [Pcb0 Pcb]; try lra.
    destruct (Qmult_bound b d 1048576 1048576) as [Pbd0 Pbd]; try lra.
    assert (T5 : b * d * eta <= 1048576 * 1048576 * eta) by (apply Qmult_le_compat_r; lra).
    rewrite Hu in *.
    assert (E1 : (a * (1 - (1 # 9007199254740992)) - b * eta) * d
                 == a * d - (1 # 9007199254740992) * (a * d) - b * d * eta) by ring.
    assert (E2 : (c * (1 + (1 # 9007199254740992)) + d * eta) * b
                 == c * b + (1 # 9007199254740992) * (c * b) + b * d * eta) by ring.
    assert (E3 : r * b * d == r * (b * d)) by ring.
    assert (E4 : T * d * b == T * (b * d)) by ring.
    rewrite E1, E3 in L1. rewrite E2, E4 in L2.
    set (P1 := a * d) in *. set (P3 := c * b) in *. set (P2 := b * d * eta) in *.
    set (X := r * (b * d)) in *. set (Y := T * (b * d)) in *.
    clearbody P1 P2 P3 X Y. lra.
Qed.

(** X20. An image of at most 2^20 pixels a side is resized, before it
    becomes a clip, for a frame of at most 2^20 pixels a side: an image wider
    than the frame gets the frame's height and a width that covers the
    frame's; any other image gets the frame's width and a height that covers
    the frame's when the aspect ratios differ, and may be one row short when
    they are equal. The other side keeps the aspect ratio of the image up to
    one pixel: it is the exact quotient truncated, or one less when the
    quotient is a whole number. *)
Theorem resized_image_size (self : VideoGenerator) (img_width img_height : Z) :
  (0 < img_width <= 1048576)%Z -> (0 < img_height <= 1048576)%Z ->
  (0 < fst (resolution self) <= 1048576)%Z -> (0 < snd (resolution self) <= 1048576)%Z ->
  exists new_width new_height,
    cover_size self img_width img_height = Ok (new_width, new_height)
    /\ (((fst (resolution self) * img_height < img_width * snd (resolution self))%Z
         /\ new_height = snd (resolution self)
         /\ (fst (resolution self) <= new_width)%Z
         /\ (new_width * img_height <= new_height * img_width <= (new_width + 1) * img_height)%Z)
        \/ ((img_width * snd (resolution self) <= fst (resolution self) * img_height)%Z
            /\ new_width = fst (resolution self)
            /\ (snd (resolution self) - 1 <= new_height)%Z
            /\ ((img_width * snd (resolution self) < fst (resolution self) * img_height)%Z
                -> (snd (resolution self) <= new_height)%Z)
            /\ (new_height * img_width <= new_width * img_height
                <= (new_height + 1) * img_width)%Z)).
Proof.
  intros [Hw0 Hw1] [Hh0 Hh1] HW HH. unfold cover_size.
  destruct (resolution self) as [W H]. cbn [fst snd] in *.
  destruct HW as [HW0 HW1]. destruct HH as [HH0 HH1].
  destruct (ratio_bounds img_width img_height Hw0 Hw1 Hh0 Hh1) as (E1 & R1 & R2 & R3 & R4).
  destruct (ratio_bounds W H HW0 HW1 HH0 HH1) as (E2 & _).
  destruct (ratio_compare img_width img_height W H Hw0 Hw1 Hh0 Hh1 HW0 HW1 HH0 HH1)
    as [Cgt Cle].
  rewrite E1, E2. cbn [result_bind].
  destruct (Qgtb (true_div img_width img_height) (true_div W H)) eqn:Hcmp.
  - specialize (Cgt eq_refl).
    destruct (of_Z_pixels H HH0 HH1) as [F1 F2]. rewrite F1. cbn [result_bind].
    assert (E : fmul (of_Z H) (true_div img_width img_height)
                = fmul (inject_Z H) (true_div img_width img_height)).
    { unfold fmul. apply round64_comp. rewrite F2. reflexivity. }
    rewrite E.
    destruct (cover_wider img_width img_height W H (true_div img_width img_height)
                Hw0 Hw1 Hh0 Hh1 HW0 HW1 HH0 HH1 R1 R2 ltac:(lra) R4 Cgt)
      as (I1 & I2 & I3 & I4).
    rewrite I1. cbn [result_bind]. eexists _, _. split; [reflexivity|].
    left. repeat split; try assumption; lia.
  - specialize (Cle eq_refl).
    destruct (of_Z_pixels W HW0 HW1) as [F1 F2]. rewrite F1. cbn [result_bind].
    assert (Hz : Qeq_bool (true_div img_width img_height) 0 = false).
    { destruct (Qeq_bool (true_div img_width img_height) 0) eqn:Hb; [|reflexivity].
      apply Qeq_bool_eq in Hb. rewrite Hb in R3. exfalso. lra. }
    rewrite Hz.
    assert (E : fdiv (of_Z W) (true_div img_width img_height)
                = fdiv (inject_Z W) (true_div img_width img_height)).
    { unfold fdiv. apply round64_comp. rewrite F2. reflexivity. }
    rewrite E.
    destruct (cover_taller img_width img_height W H (true_div img_width img_height)
                Hw0 Hw1 Hh0 Hh1 HW0 HW1 HH0 HH1 R1 R2 R3 R4 Cle)
      as (I1 & I2 & I3 & I4 & I5).
    rewrite I1. cbn [result_bind]. eexists _, _. split; [reflexivity|].
    right. repeat split; try assumption; lia.
Qed.

Lemma resized_image_size_witness :
  cover_size (example_generator offline_env 1920 1080) 1536 1300 = Ok (1920, 1624)%Z
  /\ cover_size (example_generator offline_env 1100 1000) 1100 1000 = Ok (1100, 999)%Z
  /\ exists new_width new_height,
    cover_size (example_generator offline_env 1920 1080) 1536 1300 = Ok (new_width, new_height)
    /\ (((1920 * 1300 < 1536 * 1080)%Z
         /\ new_height = 1080%Z
         /\ (1920 <= new_width)%Z
         /\ (new_width * 1300 <= new_height * 1536 <= (new_width + 1) * 1300)%Z)
        \/ ((1536 * 1080 <= 1920 * 1300)%Z
            /\ new_width = 1920%Z
            /\ (1080 - 1 <= new_height)%Z
            /\ ((1536 * 1080 < 1920 * 1300)%Z -> (1080 <= new_height)%Z)
            /\ (new_height * 1536 <= new_width * 1300 <= (new_height + 1) * 1536)%Z)).
Proof.
  split; [vm_compute; reflexivity|]. split; [vm_compute; reflexivity|].
  apply (resized_image_size (example_generator offline_env 1920 1080) 1536 1300);
    simpl; lia.
Defined.

Lemma float_of_small_int (n : Z) :
  (0 <= n)%Z -> (n <= 1048576)%Z -> float_of_int n = Ok (of_Z n) /\ of_Z n == inject_Z n.
Proof.
  intros H0 H1.
  assert (P0 : 0 <= inject_Z n) by (apply inject_Z_nonneg; exact H0).
  assert (P1 : inject_Z n <= 1048576).
  { change 1048576 with (inject_Z 1048576). rewrite <- Zle_Qle. exact H1. }
  assert (He : of_Z n == inject_Z n) by (apply round64_int; lia).
  split; [|exact He]. unfold float_of_int.
  rewrite not_overflows; [reflexivity | rewrite He; lra | rewrite He; lra].
Qed.

Lemma int_round_le_int (q : Q) (n : Z) :
  0 <= q -> (Z.abs n < 2 ^ 53)%Z -> q <= inject_Z n -> (int_of_Q (round64 q) <= n)%Z.
Proof.
  intros Hq Hn Hle. rewrite (int_of_Q_floor _ (round64_nonneg q Hq)).
  rewrite Zle_Qle. eapply Qle_trans; [apply Qfloor_le|].
  rewrite <- (round64_int n Hn). apply round64_monotone. exact Hle.
Qed.

Lemma zoom_max_value : zoom_max == 2476979795053773 # 2251799813685248.
Proof. vm_compute. reflexivity. Qed.

(** The zoom factor of a clip stays between 1.0 and the float 1.1. *)
Lemma zoom_factor_range (duration t : Q) :
  0 < duration -> 0 <= t -> t <= duration ->
  overflows (fdiv t duration) = false
  /\ 1 <= fadd 1 (fmul (fdiv t duration) lit_0_1)
  /\ fadd 1 (fmul (fdiv t duration) lit_0_1) <= zoom_max.
Proof.
  intros Hd H0 H1.
  assert (Hp0 : 0 <= t / duration) by (apply Qle_shift_div_l; [exact Hd | lra]).
  assert (Hp1 : t / duration <= 1) by (apply Qle_shift_div_r; [exact Hd | lra]).
  destruct (round64_unit _ Hp0 Hp1) as [P0 P1]. fold (fdiv t duration) in P0, P1.
  set (progress := fdiv t duration) in *.
  assert (Hl : lit_0_1 == 3602879701896397 # 36028797018963968) by (vm_compute; reflexivity).
  assert (Hlit : round64 lit_0_1 = lit_0_1) by (vm_compute; reflexivity).
  assert (Hx0 : 0 <= progress * lit_0_1) by (apply Qmult_le_0_compat; [exact P0 | rewrite Hl; lra]).
  assert (Hx1 : progress * lit_0_1 <= lit_0_1).
  { apply Qle_trans with (1 * lit_0_1); [|rewrite Qmult_1_l; apply Qle_refl].
    apply Qmult_le_compat_r; [exact P1 | rewrite Hl; lra]. }
  assert (X0 : 0 <= fmul progress lit_0_1) by (apply round64_nonneg; exact Hx0).
  assert (X1 : fmul progress lit_0_1 <= lit_0_1).
  { unfold fmul. rewrite <- Hlit at 2. apply round64_monotone. exact Hx1. }
  split; [apply not_overflows; lra|]. unfold fadd. split.
  - rewrite <- round64_1 at 1. apply round64_monotone. lra.
  - unfold zoom_max. apply round64_monotone. lra.
Qed.

(** One side of the crop: [int(n / zoom_factor)]. *)
Lemma zoomed_extent (n : Z) (z : Q) :
  (0 <= n)%Z -> (n <= 1048576)%Z -> 1 <= z -> z <= zoom_max ->
  int_of_float (fdiv (inject_Z n) z) = Ok (int_of_Q (fdiv (inject_Z n) z))
  /\ (0 <= int_of_Q (fdiv (inject_Z n) z) <= n)%Z
  /\ (10 * n <= 11 * (int_of_Q (fdiv (inject_Z n) z) + 1))%Z.
Proof.
  intros Hn Hn1 H1 H2. pose proof zoom_max_value as Hmax.
  assert (Hz : 0 < z) by lra.
  pose proof (inject_Z_nonneg n Hn) as Hx.
  assert (Hx1 : inject_Z n <= 1048576).
  { change 1048576 with (inject_Z 1048576). rewrite <- Zle_Qle. exact Hn1. }
  unfold fdiv. set (q := inject_Z n / z).
  assert (Hqz : q * z == inject_Z n) by (unfold q; field; lra).
  assert (Hq0 : 0 <= q) by (unfold q; apply Qle_shift_div_l; [exact Hz | lra]).
  assert (Hqn : q <= inject_Z n).
  { unfold q. apply Qle_shift_div_r; [exact Hz|].
    apply Qle_trans with (inject_Z n * 1); [rewrite Qmult_1_r; apply Qle_refl|].
    apply Qmult_le_l'; [exact H1 | exact Hx]. }
  split; [apply int_of_float_bounded; [exact Hq0 | lra]|].
  split; [split|].
  - apply int_round_ge; [exact Hq0 | lia |]. exact Hq0.
  - apply int_round_le_int; [exact Hq0 | lia | exact Hqn].
  - set (m := ((10 * n - 1) / 11)%Z).
    assert (Hm : (11 * m <= 10 * n - 1 /\ 10 * n - 1 < 11 * (m + 1))%Z).
    { unfold m. pose proof (Z.div_mod (10 * n - 1) 11 ltac:(lia)).
      pose proof (Z.mod_pos_bound (10 * n - 1) 11 ltac:(lia)). lia. }
    assert (Hmq : inject_Z m <= q).
    { destruct (Z_lt_le_dec m 0) as [Hneg|Hpos].
      - apply Qle_trans with 0; [|exact Hq0].
        change 0 with (inject_Z 0). rewrite <- Zle_Qle. lia.
      - assert (M0 : 0 <= inject_Z m) by (apply inject_Z_nonneg; exact Hpos).
        assert (M1 : 11 * inject_Z m + 1 <= 10 * inject_Z n).
        { change 11 with (inject_Z 11). change 10 with (inject_Z 10).
          change 1 with (inject_Z 1).
          rewrite <- !inject_Z_mult, <- inject_Z_plus, <- Zle_Qle. lia. }
        apply Qmult_le_r with z; [exact Hz|]. rewrite Hqz.
        apply Qle_trans with (inject_Z m * zoom_max);
          [apply Qmult_le_l'; [exact H2 | exact M0]|].
        rewrite Hmax. lra. }
    assert (Hge : (m <= int_of_Q (round64 q))%Z)
      by (apply int_round_ge; [exact Hq0 | lia | exact Hmq]).
    lia.
Qed.

Lemma zoomed_extent_start (n : Z) (z : Q) :
  z == 1 -> (0 <= n)%Z -> (n <= 1048576)%Z -> int_of_Q (fdiv (inject_Z n) z) = n.
Proof.
  intros Hz Hn Hn1.
  assert (Heq : inject_Z n / z == inject_Z n) by (rewrite Hz; field).
  unfold fdiv. rewrite (round64_comp _ _ Heq).
  rewrite (int_of_Q_eq _ (inject_Z n)).
  - unfold int_of_Q. simpl. apply Z.quot_1_r.
  - apply round64_nonneg, inject_Z_nonneg. exact Hn.
  - apply round64_int. lia.
Qed.

(** X21. At every time of a clip whose frame has at most 2^20 pixels a side
    the zoom effect crops a centred box that lies inside the frame and keeps
    at least 10/11 of each side, up to one pixel (the zoom factor never
    exceeds the float 1.1); at time 0 the box is the whole frame. *)
Theorem zoom_crop_stays_in_frame (duration t : Q) (h w : Z) :
  0 < duration -> 0 <= t -> t <= duration ->
  (0 <= h <= 1048576)%Z -> (0 <= w <= 1048576)%Z ->
  exists box,
    zoom_crop duration h w t = Ok box
    /\ (0 <= cb_y1 box /\ cb_y1 box + cb_new_h box <= h)%Z
    /\ (0 <= cb_x1 box /\ cb_x1 box + cb_new_w box <= w)%Z
    /\ (10 * h <= 11 * (cb_new_h box + 1) /\ 10 * w <= 11 * (cb_new_w box + 1))%Z
    /\ (h - cb_new_h box - 1 <= 2 * cb_y1 box <= h - cb_new_h box)%Z
    /\ (w - cb_new_w box - 1 <= 2 * cb_x1 box <= w - cb_new_w box)%Z
    /\ (t == 0 -> box = {| cb_y1 := 0; cb_x1 := 0; cb_new_h := h; cb_new_w := w |}).
Proof.
  intros Hd H0 H1 [Hh Hh1] [Hw Hw1]. unfold zoom_crop.
  destruct (zoom_factor_range duration t Hd H0 H1) as (Hov & Hz1 & Hz2).
  assert (Hdz : Qeq_bool duration 0 = false).
  { destruct (Qeq_bool duration 0) eqn:Hb; [|reflexivity].
    apply Qeq_bool_eq in Hb. lra. }
  rewrite Hdz. cbv zeta. rewrite Hov.
  set (zoom_factor := fadd 1 (fmul (fdiv t duration) lit_0_1)) in *.
  assert (Hzz : Qeq_bool zoom_factor 0 = false).
  { destruct (Qeq_bool zoom_factor 0) eqn:Hb; [|reflexivity].
    apply Qeq_bool_eq in Hb. lra. }
  destruct (float_of_small_int h Hh Hh1) as [Fh Fh']. rewrite Fh. cbn [result_bind].
  rewrite Hzz.
  assert (Eh : fdiv (of_Z h) zoom_factor = fdiv (inject_Z h) zoom_factor).
  { unfold fdiv. apply round64_comp. rewrite Fh'. reflexivity. }
  rewrite Eh.
  destruct (zoomed_extent h zoom_factor Hh Hh1 Hz1 Hz2) as (Ih & Hh2 & Hh3).
  rewrite Ih. cbn [result_bind].
  destruct (float_of_small_int w Hw Hw1) as [Fw Fw']. rewrite Fw. cbn [result_bind].
  assert (Ew : fdiv (of_Z w) zoom_factor = fdiv (inject_Z w) zoom_factor).
  { unfold fdiv. apply round64_comp. rewrite Fw'. reflexivity. }
  rewrite Ew.
  destruct (zoomed_extent w zoom_factor Hw Hw1 Hz1 Hz2) as (Iw & Hw2 & Hw3).
  rewrite Iw. cbn [result_bind].
  eexists. split; [reflexivity|]. cbn [cb_y1 cb_x1 cb_new_h cb_new_w].
  set (new_h := int_of_Q (fdiv (inject_Z h) zoom_factor)) in *.
  set (new_w := int_of_Q (fdiv (inject_Z w) zoom_factor)) in *.
  pose proof (Z.div_mod (h - new_h) 2 ltac:(lia)) as Dh.
  pose proof (Z.mod_pos_bound (h - new_h) 2 ltac:(lia)) as Mh.
  pose proof (Z.div_mod (w - new_w) 2 ltac:(lia)) as Dw.
  pose proof (Z.mod_pos_bound (w - new_w) 2 ltac:(lia)) as Mw.
  repeat split; try lia.
  intros Ht.
  assert (Hone : zoom_factor == 1).
  { unfold zoom_factor, fadd, fmul, fdiv.
    assert (E0 : t / duration == 0) by (rewrite Ht; field; lra).
    rewrite (round64_comp _ _ E0), round64_0.
    assert (E1 : 0 * lit_0_1 == 0) by ring.
    rewrite (round64_comp _ _ E1), round64_0.
    assert (E2 : 1 + 0 == 1) by ring.
    rewrite (round64_comp _ _ E2), round64_1. reflexivity. }
  subst new_h new_w.
  rewrite !(zoomed_extent_start _ _ Hone) by assumption.
  rewrite !Z.sub_diag. reflexivity.
Qed.

Lemma zoom_crop_stays_in_frame_witness :
  zoom_crop 5 3300 3300 5
  = Ok {| cb_y1 := 150; cb_x1 := 150; cb_new_h := 2999; cb_new_w := 2999 |}
  /\ exists box,
    zoom_crop 5 1080 1920 (5 # 2) = Ok box
    /\ (0 <= cb_y1 box /\ cb_y1 box + cb_new_h box <= 1080)%Z
    /\ (0 <= cb_x1 box /\ cb_x1 box + cb_new_w box <= 1920)%Z
    /\ (10 * 1080 <= 11 * (cb_new_h box + 1) /\ 10 * 1920 <= 11 * (cb_new_w box + 1))%Z
    /\ (1080 - cb_new_h box - 1 <= 2 * cb_y1 box <= 1080 - cb_new_h box)%Z
    /\ (1920 - cb_new_w box - 1 <= 2 * cb_x1 box <= 1920 - cb_new_w box)%Z
    /\ ((5 # 2 == 0)%Q ->
        box = {| cb_y1 := 0; cb_x1 := 0; cb_new_h := 1080; cb_new_w := 1920 |}).
Proof.
  split; [vm_compute; reflexivity|].
  apply (zoom_crop_stays_in_frame 5 (5 # 2) 1080 1920); try lia; try reflexivity; discriminate.
Defined.
(** ** Generated backgrounds: gradient and vignette *)

Lemma range_length (n : Z) : List.length (range n) = Z.to_nat n.
Proof. unfold range. rewrite length_map, length_seq. reflexivity. Qed.

Lemma range_nth (n i : Z) :
  (0 <= i < n)%Z -> nth_error (range n) (Z.to_nat i) = Some i.
Proof.
  intros Hi. unfold range. rewrite nth_error_map, nth_error_seq.
  destruct (Nat.ltb_spec (Z.to_nat i) (Z.to_nat n)) as [_|Hge]; [|lia].
  simpl. f_equal. lia.
Qed.

Lemma int_of_scaled_fraction (i n k : Z) :
  (0 <= i)%Z -> (0 < n)%Z -> (0 <= k)%Z ->
  int_of_Q (inject_Z i / inject_Z n * inject_Z k) = (i * k / n)%Z.
Proof.
  intros Hi Hn Hk.
  assert (Heq : inject_Z i / inject_Z n * inject_Z k == inject_Z (i * k) / inject_Z n).
  { rewrite inject_Z_mult. field. intros Hz.
    pose proof (inject_Z_pos n Hn) as Hp. lra. }
  rewrite (int_of_Q_eq _ (inject_Z (i * k) / inject_Z n));
    [apply int_of_fraction; nia | rewrite Heq; apply fraction_nonneg; nia | exact Heq].
Qed.

Lemma gradient_alpha_value (height i : Z) :
  (0 <= i)%Z -> (0 < height)%Z -> gradient_alpha height i = (i * 80 / height)%Z.
Proof. intros Hi Hh. unfold gradient_alpha. apply (int_of_scaled_fraction i height 80); lia. Qed.

(** X22. The gradient of a generated background has one black line per row
    of the frame, spanning its width; the alpha of the lines starts at 0 on
    the first row, never decreases downwards and never exceeds 79. *)
Theorem gradient_darkens_downwards (self : VideoGenerator) (i j : Z) :
  (0 <= i <= j)%Z -> (j < snd (resolution self))%Z ->
  List.length (gradient_lines self) = Z.to_nat (snd (resolution self))
  /\ nth_error (gradient_lines self) (Z.to_nat i)
     = Some {| ln_from := (0, i)%Z;
               ln_to := (fst (resolution self), i);
               ln_fill := (0, 0, 0, gradient_alpha (snd (resolution self)) i)%Z |}
  /\ (0 <= gradient_alpha (snd (resolution self)) i
      <= gradient_alpha (snd (resolution self)) j)%Z
  /\ (gradient_alpha (snd (resolution self)) j <= 79)%Z
  /\ gradient_alpha (snd (resolution self)) 0 = 0%Z.
Proof.
  intros Hij Hj. unfold gradient_lines.
  set (height := snd (resolution self)) in *.
  split; [rewrite length_map; apply range_length|].
  split; [rewrite nth_error_map, range_nth by lia; reflexivity|].
  rewrite !gradient_alpha_value by lia.
  split; [split|split].
  - apply Z.div_pos; lia.
  - apply Z.div_le_mono; lia.
  - assert (H : (j * 80 / height < 80)%Z) by (apply Z.div_lt_upper_bound; lia). lia.
  - reflexivity.
Qed.

Lemma gradient_darkens_downwards_witness :
  List.length (gradient_lines (example_generator offline_env 1920 1080)) = 1080%nat
  /\ nth_error (gradient_lines (example_generator offline_env 1920 1080)) 540%nat
     = Some {| ln_from := (0, 540)%Z; ln_to := (1920, 540)%Z;
               ln_fill := (0, 0, 0, gradient_alpha 1080 540)%Z |}
  /\ (0 <= gradient_alpha 1080 540 <= gradient_alpha 1080 1079)%Z
  /\ (gradient_alpha 1080 1079 <= 79)%Z
  /\ gradient_alpha 1080 0 = 0%Z.
Proof.
  apply (gradient_darkens_downwards (example_generator offline_env 1920 1080) 540 1079);
    simpl; lia.
Defined.

Lemma for_each_ok {A B} (f : A -> result B) (l : list A) :
  (forall x, In x l -> exists y, f x = Ok y) ->
  exists ys, for_each f l = Ok ys
    /\ List.length ys = List.length l
    /\ forall n x, nth_error l n = Some x ->
         exists y, f x = Ok y /\ nth_error ys n = Some y.
Proof.
  induction l as [|a l IH]; intros Hall.
  - exists []. split; [reflexivity|]. split; [reflexivity|].
    intros n x Hn. destruct n; discriminate.
  - destruct (Hall a (or_introl eq_refl)) as [y Hy].
    destruct (IH (fun x Hx => Hall x (or_intror Hx))) as (ys & Hys & Hlen & Hnth).
    exists (y :: ys). cbn [for_each]. rewrite Hy. cbn [result_bind]. rewrite Hys.
    split; [reflexivity|]. split; [cbn [List.length]; rewrite Hlen; reflexivity|].
    intros [|n] x Hn; cbn [nth_error] in *.
    + injection Hn as <-. exists y. split; [exact Hy | reflexivity].
    + apply Hnth. exact Hn.
Qed.

Lemma range_In (n i : Z) : In i (range n) -> (0 <= i < n)%Z.
Proof.
  unfold range. rewrite in_map_iff. intros (k & <- & Hk). apply in_seq in Hk. lia.
Qed.

(** The factor [1 - i / 100] is a ratio, and shrinks as [i] grows. *)
Lemma vignette_factor_range (i : Z) :
  (0 <= i <= 100)%Z ->
  0 <= fsub 1 (true_div i 100) /\ fsub 1 (true_div i 100) <= 1.
Proof.
  intros Hi.
  assert (H0 : 0 <= inject_Z i / inject_Z 100).
  { apply fraction_nonneg; lia. }
  assert (H1 : inject_Z i / inject_Z 100 <= 1).
  { apply Qle_shift_div_r; [reflexivity|]. rewrite Qmult_1_l, <- Zle_Qle. lia. }
  destruct (round64_unit _ H0 H1) as [P0 P1]. fold (true_div i 100) in P0, P1.
  unfold fsub. apply round64_unit; lra.
Qed.

Lemma vignette_factor_monotone (i j : Z) :
  (i <= j)%Z -> fsub 1 (true_div j 100) <= fsub 1 (true_div i 100).
Proof.
  intros Hij. unfold fsub. apply round64_monotone.
  assert (H : true_div i 100 <= true_div j 100).
  { unfold true_div. apply round64_monotone.
    apply Qmult_le_compat_r; [rewrite <- Zle_Qle; exact Hij | discriminate]. }
  lra.
Qed.

Lemma vignette_radius_value (self : VideoGenerator) (i : Z) :
  (0 <= fst (resolution self) <= 1048576)%Z -> (0 <= snd (resolution self) <= 1048576)%Z ->
  (0 <= i <= 100)%Z ->
  vignette_radius self i
  = Ok (int_of_Q (fmul (inject_Z (Z.max (fst (resolution self) / 2)
                                        (snd (resolution self) / 2)))
                        (fsub 1 (true_div i 100)))).
Proof.
  intros HW HH Hi. unfold vignette_radius. cbv zeta.
  set (max_radius := Z.max (fst (resolution self) / 2) (snd (resolution self) / 2)).
  assert (Hr : (0 <= max_radius <= 1048576)%Z).
  { pose proof (Z.div_pos (fst (resolution self)) 2 ltac:(lia) ltac:(lia)).
    pose proof (Z.div_le_upper_bound (fst (resolution self)) 2 1048576 ltac:(lia) ltac:(lia)).
    pose proof (Z.div_le_upper_bound (snd (resolution self)) 2 1048576 ltac:(lia) ltac:(lia)).
    lia. }
  destruct (float_of_small_int max_radius ltac:(lia) ltac:(lia)) as [F1 F2].
  rewrite F1. cbn [result_bind].
  destruct (vignette_factor_range i Hi) as [V0 V1].
  assert (E : fmul (of_Z max_radius) (fsub 1 (true_div i 100))
              = fmul (inject_Z max_radius) (fsub 1 (true_div i 100))).
  { unfold fmul. apply round64_comp. rewrite F2. reflexivity. }
  rewrite E. unfold fmul.
  assert (R0 : 0 <= inject_Z max_radius) by (apply inject_Z_nonneg; lia).
  assert (R1 : inject_Z max_radius <= 1048576).
  { change 1048576 with (inject_Z 1048576). rewrite <- Zle_Qle. lia. }
  destruct (Qmult_bound (inject_Z max_radius) (fsub 1 (true_div i 100)) 1048576 1
              R0 R1 V0 V1) as [B0 B1].
  apply int_of_float_bounded; [exact B0 | lra].
Qed.

Lemma vignette_radius_monotone (R i j : Z) :
  (0 <= R)%Z -> (0 <= i <= j)%Z -> (j <= 100)%Z ->
  (0 <= int_of_Q (fmul (inject_Z R) (fsub 1 (true_div j 100)))
   <= int_of_Q (fmul (inject_Z R) (fsub 1 (true_div i 100))))%Z.
Proof.
  intros HR Hij Hj.
  destruct (vignette_factor_range i ltac:(lia)) as [I0 I1].
  destruct (vignette_factor_range j ltac:(lia)) as [J0 J1].
  pose proof (vignette_factor_monotone i j ltac:(lia)) as Hm.
  pose proof (inject_Z_nonneg R HR) as R0.
  assert (Qj : 0 <= inject_Z R * fsub 1 (true_div j 100)) by (apply Qmult_le_0_compat; assumption).
  assert (Qi : 0 <= inject_Z R * fsub 1 (true_div i 100)) by (apply Qmult_le_0_compat; assumption).
  unfold fmul.
  rewrite !int_of_Q_floor by (apply round64_nonneg; assumption).
  split.
  - change 0%Z with (Qfloor 0). apply Qfloor_resp_le. apply round64_nonneg. exact Qj.
  - apply Qfloor_resp_le, round64_monotone. apply Qmult_le_l'; assumption.
Qed.

Lemma vignette_radius_start (R : Z) :
  (0 <= R)%Z -> (R <= 1048576)%Z ->
  int_of_Q (fmul (inject_Z R) (fsub 1 (true_div 0 100))) = R.
Proof.
  intros H0 H1.
  assert (E : fsub 1 (true_div 0 100) = 1) by (vm_compute; reflexivity).
  rewrite E. unfold fmul.
  assert (E1 : inject_Z R * 1 == inject_Z R) by ring.
  rewrite (round64_comp _ _ E1).
  rewrite (int_of_Q_eq _ (inject_Z R)).
  - unfold int_of_Q. simpl. apply Z.quot_1_r.
  - apply round64_nonneg, inject_Z_nonneg. exact H0.
  - apply round64_int. lia.
Qed.

Lemma vignette_alpha_monotone (i j : Z) :
  (0 <= i <= j)%Z -> (vignette_alpha i <= vignette_alpha j)%Z.
Proof.
  intros Hij. unfold vignette_alpha, fmul.
  assert (Hi : 0 <= true_div i 100).
  { unfold true_div. apply round64_nonneg, fraction_nonneg; lia. }
  assert (Hm : true_div i 100 <= true_div j 100).
  { unfold true_div. apply round64_monotone.
    apply Qmult_le_compat_r; [rewrite <- Zle_Qle; lia | discriminate]. }
  rewrite !int_of_Q_floor by (apply round64_nonneg; lra).
  apply Qfloor_resp_le, round64_monotone. lra.
Qed.

Lemma vignette_alpha_near (i : Z) :
  (0 <= i < 100)%Z -> (3 * i / 2 - 1 <= vignette_alpha i <= 3 * i / 2)%Z.
Proof.
  intros Hi.
  assert (Hall : forallb (fun k => (3 * k / 2 - 1 <=? vignette_alpha k)%Z
                                    && (vignette_alpha k <=? 3 * k / 2)%Z) (range 100) = true)
    by (vm_compute; reflexivity).
  rewrite forallb_forall in Hall. specialize (Hall i).
  assert (Hin : In i (range 100)).
  { apply nth_error_In with (Z.to_nat i). apply range_nth. lia. }
  apply Hall in Hin. apply andb_true_iff in Hin. destruct Hin as [H1 H2].
  apply Z.leb_le in H1. apply Z.leb_le in H2. split; assumption.
Qed.

(** X23. The vignette of a generated background of at most 2^20 pixels a
    side is made of 100 ellipses around the centre of the frame: each later
    one lies within the earlier ones, the first has the radius
    max(width // 2, height // 2) and alpha 0, and the alpha never decreases
    and reaches 148 for the innermost: the layer darkens toward the centre.
    The alpha of ellipse i is 3 * i // 2 or one less. *)
Theorem vignette_darkens_towards_centre (self : VideoGenerator) (i j : Z) :
  (0 <= fst (resolution self) <= 1048576)%Z -> (0 <= snd (resolution self) <= 1048576)%Z ->
  (0 <= i <= j)%Z -> (j < 100)%Z ->
  exists ellipses ei ej ri rj,
    vignette_ellipses self = Ok ellipses
    /\ List.length ellipses = 100%nat
    /\ vignette_ellipse self i = Ok ei /\ nth_error ellipses (Z.to_nat i) = Some ei
    /\ vignette_ellipse self j = Ok ej /\ nth_error ellipses (Z.to_nat j) = Some ej
    /\ vignette_radius self i = Ok ri /\ vignette_radius self j = Ok rj
    /\ el_bbox ei = (fst (resolution self) / 2 - ri, snd (resolution self) / 2 - ri,
                     fst (resolution self) / 2 + ri, snd (resolution self) / 2 + ri)%Z
    /\ bbox_within (el_bbox ej) (el_bbox ei)
    /\ (0 <= rj <= ri)%Z
    /\ vignette_radius self 0
       = Ok (Z.max (fst (resolution self) / 2) (snd (resolution self) / 2))
    /\ el_fill ei = (0, 0, 0, vignette_alpha i)%Z
    /\ (3 * i / 2 - 1 <= vignette_alpha i <= 3 * i / 2)%Z
    /\ (vignette_alpha i <= vignette_alpha j <= 148)%Z
    /\ vignette_alpha 0 = 0%Z /\ vignette_alpha 99 = 148%Z.
Proof.
  intros HW HH Hij Hj.
  set (max_radius := Z.max (fst (resolution self) / 2) (snd (resolution self) / 2)).
  assert (Hr : (0 <= max_radius <= 1048576)%Z).
  { unfold max_radius.
    pose proof (Z.div_pos (fst (resolution self)) 2 ltac:(lia) ltac:(lia)).
    pose proof (Z.div_le_upper_bound (fst (resolution self)) 2 1048576 ltac:(lia) ltac:(lia)).
    pose proof (Z.div_le_upper_bound (snd (resolution self)) 2 1048576 ltac:(lia) ltac:(lia)).
    lia. }
  assert (Hell : forall k, (0 <= k < 100)%Z ->
            vignette_ellipse self k
            = Ok {| el_bbox :=
                      (fst (resolution self) / 2
                       - int_of_Q (fmul (inject_Z max_radius) (fsub 1 (true_div k 100))),
                       snd (resolution self) / 2
                       - int_of_Q (fmul (inject_Z max_radius) (fsub 1 (true_div k 100))),
                       fst (resolution self) / 2
                       + int_of_Q (fmul (inject_Z max_radius) (fsub 1 (true_div k 100))),
                       snd (resolution self) / 2
                       + int_of_Q (fmul (inject_Z max_radius) (fsub 1 (true_div k 100))))%Z;
                    el_fill := (0, 0, 0, vignette_alpha k)%Z |}).
  { intros k Hk. unfold vignette_ellipse. cbv zeta.
    rewrite (vignette_radius_value self k HW HH) by lia. reflexivity. }
  destruct (for_each_ok (vignette_ellipse self) (range 100)) as (ellipses & Hrun & Hlen & Hnth).
  { intros k Hk. apply range_In in Hk. rewrite (Hell k Hk). eexists. reflexivity. }
  destruct (Hnth (Z.to_nat i) i (range_nth 100 i ltac:(lia))) as (ei & Hei & Hni).
  destruct (Hnth (Z.to_nat j) j (range_nth 100 j ltac:(lia))) as (ej & Hej & Hnj).
  pose proof (vignette_radius_monotone max_radius i j ltac:(lia) Hij ltac:(lia)) as Hmono.
  exists ellipses, ei, ej. eexists _, _.
  split; [exact Hrun|].
  split; [rewrite Hlen, range_length; reflexivity|].
  split; [exact Hei|]. split; [exact Hni|]. split; [exact Hej|]. split; [exact Hnj|].
  split; [apply vignette_radius_value; [exact HW | exact HH | lia]|].
  split; [apply vignette_radius_value; [exact HW | exact HH | lia]|].
  rewrite (Hell i ltac:(lia)) in Hei. rewrite (Hell j ltac:(lia)) in Hej.
  injection Hei as <-. injection Hej as <-. cbn [el_bbox el_fill].
  fold max_radius.
  split; [reflexivity|].
  split; [unfold bbox_within; lia|].
  split; [exact Hmono|].
  split.
  { rewrite (vignette_radius_value self 0 HW HH) by lia. fold max_radius.
    rewrite vignette_radius_start by lia. reflexivity. }
  split; [reflexivity|].
  split; [apply vignette_alpha_near; lia|].
  split; [split|].
  - apply vignette_alpha_monotone. exact Hij.
  - apply Z.le_trans with (vignette_alpha 99);
      [apply vignette_alpha_monotone; lia | vm_compute; discriminate].
  - split; vm_compute; reflexivity.
Qed.

Lemma vignette_darkens_towards_centre_witness :
  vignette_alpha 82 = 122%Z
  /\ vignette_radius (example_generator offline_env 1920 1080) 55 = Ok 431%Z
  /\ exists ellipses ei ej ri rj,
    vignette_ellipses (example_generator offline_env 1920 1080) = Ok ellipses
    /\ List.length ellipses = 100%nat
    /\ vignette_ellipse (example_generator offline_env 1920 1080) 10 = Ok ei
    /\ nth_error ellipses 10%nat = Some ei
    /\ vignette_ellipse (example_generator offline_env 1920 1080) 99 = Ok ej
    /\ nth_error ellipses 99%nat = Some ej
    /\ vignette_radius (example_generator offline_env 1920 1080) 10 = Ok ri
    /\ vignette_radius (example_generator offline_env 1920 1080) 99 = Ok rj
    /\ el_bbox ei = (1920 / 2 - ri, 1080 / 2 - ri, 1920 / 2 + ri, 1080 / 2 + ri)%Z
    /\ bbox_within (el_bbox ej) (el_bbox ei)
    /\ (0 <= rj <= ri)%Z
    /\ vignette_radius (example_generator offline_env 1920 1080) 0
       = Ok (Z.max (1920 / 2) (1080 / 2))
    /\ el_fill ei = (0, 0, 0, vignette_alpha 10)%Z
    /\ (3 * 10 / 2 - 1 <= vignette_alpha 10 <= 3 * 10 / 2)%Z
    /\ (vignette_alpha 10 <= vignette_alpha 99 <= 148)%Z
    /\ vignette_alpha 0 = 0%Z /\ vignette_alpha 99 = 148%Z.
Proof.
  split; [vm_compute; reflexivity|]. split; [vm_compute; reflexivity|].
  apply (vignette_darkens_towards_centre (example_generator offline_env 1920 1080) 10 99);
    simpl; lia.
Defined.

(** ** Rendering *)

Lemma get_background_music_returns (self : VideoGenerator) (E : env) (duration : Q)
    (mood : string) (w : world) :
  music_search_queries self <> [] ->
  exists music w',
    _get_background_music self E duration mood w = (Ok music, w')
    /\ (truthy (use_background_music self) = false -> music = None).
Proof.
  intros Hq. unfold _get_background_music.
  destruct (truthy (use_background_music self)); simpl.
  - destruct (post_choose_music_path self E duration mood Hq w) as (evs & Ht & o & Hr & _).
    unfold bind. destruct (choose_music_path self E duration mood w) as [r w'].
    simpl in Hr. subst r.
    destruct o as [music_path|].
    + destruct (prepare_music self E music_path duration);
        eexists _, _; (split; [reflexivity | discriminate]).
    + eexists _, _. split; [reflexivity | discriminate].
  - eexists _, _. split; [reflexivity | reflexivity].
Qed.

Lemma get_background_music_disabled (self : VideoGenerator) (E : env) (duration : Q)
    (mood : string) (w w' : world) (music : option audio_clip) :
  truthy (use_background_music self) = false ->
  _get_background_music self E duration mood w = (Ok music, w') -> music = None.
Proof.
  intros Hoff. unfold _get_background_music. rewrite Hoff. simpl.
  unfold ret. intros H. injection H as <- _. reflexivity.
Qed.

Lemma background_music_for_disabled (self : VideoGenerator) (E : env) (duration : Q)
    (niche : pyvalue) (w w' : world) (music : option audio_clip) :
  truthy (use_background_music self) = false ->
  background_music_for self E duration niche w = (Ok music, w') -> music = None.
Proof.
  intros Hoff. unfold background_music_for. rewrite Hoff. simpl.
  destruct niche; apply get_background_music_disabled; exact Hoff.
Qed.

(** X24. Whenever [create_video] returns, the file is written at the output
    path with the configured fps, it has one clip per segment of the script,
    the three layers of each clip last the duration computed for its segment,
    and the sound is the narration, alone or mixed with music (alone when
    background music is disabled). For at most 2^20 segments and a narration
    of at most 2^25 seconds the durations are the proportional shares and the
    clips add up to the duration of the narration within 1/64 s. *)
Theorem video_matches_narration (self : VideoGenerator) (E : env) (S : studio)
    (script_data : pyvalue) (audio_path output_path script : string)
    (w w' : world) (v : video_file) :
  script_of script_data = Ok script ->
  create_video self E S script_data audio_path output_path w = (Ok v, w') ->
  exists duration ds,
    audio_file_duration E audio_path = Some duration
    /\ vf_path v = output_path
    /\ vf_fps v = fps self
    /\ segment_durations (_parse_script_segments script) duration = Ok ds
    /\ List.length (vf_clips v) = List.length (_parse_script_segments script)
    /\ map layer_durations (vf_clips v) = map (fun d => (d, d, d)) ds
    /\ ((Z.of_nat (List.length (_parse_script_segments script)) <= 2 ^ 20)%Z ->
        0 <= duration -> duration <= 33554432 ->
        ds = proportional_durations (_parse_script_segments script) duration
        /\ Qabs (sum_Q (map (fun clip => ic_duration (cc_overlay clip)) (vf_clips v))
                 - duration) <= 1 # 64)
    /\ (vf_audio v = VoiceOnly audio_path duration
        \/ exists music, vf_audio v = VoiceWithMusic audio_path duration music)
    /\ (truthy (use_background_music self) = false -> vf_audio v = VoiceOnly audio_path duration).
Proof.
  intros Hscript Hrun. unfold create_video in Hrun.
  destruct (negb _); [discriminate|].
  destruct (audio_file_duration E audio_path) as [duration|]; [|discriminate].
  destruct (segment_durations_nonempty (_parse_script_segments script) duration
              (parse_nonempty script)) as (ds & Hds & Hdlen).
  exists duration, ds. split; [reflexivity|].
  rewrite Hscript in Hrun. unfold lift at 1, bind at 1, ret at 1 in Hrun.
  destruct (getitem script_data "topic") as [topic|]; [|discriminate].
  unfold lift at 1, bind at 1, ret at 1 in Hrun.
  unfold bind at 1 in Hrun.
  destruct (_download_pexels_images self E (format_value S topic)
              (List.length (_parse_script_segments script)) w) as [[image_paths|] w1];
    [|discriminate].
  destruct (niche_of self) as [niche|]; [|discriminate].
  unfold lift at 1, bind at 1, ret at 1 in Hrun.
  unfold bind at 1 in Hrun.
  destruct (background_music_for self E duration niche w1) as [[background_music|] w2] eqn:Hmusic;
    [|discriminate].
  destruct (getitem script_data "title") as [title|]; [|discriminate].
  unfold lift at 1, bind at 1, ret at 1 in Hrun.
  unfold bind at 1 in Hrun.
  destruct (_create_clips_with_typewriter self E (_parse_script_segments script) image_paths
              duration (format_value S title) w2) as [[clips|] w3] eqn:Hclips; [|discriminate].
  destruct clips as [|clip clips]; [discriminate|].
  destruct (negb (has_with_audio S || has_set_audio S)); [discriminate|].
  destruct (write_videofile_ok S output_path); [|discriminate].
  injection Hrun as <- _. cbn [vf_path vf_fps vf_clips vf_audio].
  split; [reflexivity|]. split; [reflexivity|]. split; [exact Hds|].
  unfold _create_clips_with_typewriter in Hclips.
  rewrite Hds in Hclips.
  apply clip_loop_layers in Hclips. destruct Hclips as (Hl & Hlen & _).
  assert (Hfirst : firstn (List.length (_parse_script_segments script)) (skipn 0 ds) = ds).
  { simpl. apply firstn_all2. lia. }
  rewrite Hfirst in Hl.
  split; [exact Hlen|]. split; [exact Hl|].
  split.
  { intros Hn H0 H1.
    rewrite (segment_durations_in_range _ duration (parse_nonempty script) Hn H0 H1) in Hds.
    injection Hds as <-. split; [reflexivity|].
    assert (Hov : map (fun c => ic_duration (cc_overlay c)) (clip :: clips)
                  = proportional_durations (_parse_script_segments script) duration).
    { apply (f_equal (map (fun t : Q * Q * Q => snd (fst t)))) in Hl.
      rewrite !map_map in Hl. simpl in Hl. rewrite map_id in Hl. exact Hl. }
    rewrite Hov.
    destruct (shares_accurate _ duration (parse_nonempty script) Hn H0 H1) as (_ & S1 & S2 & _).
    apply Qabs_le_iff. split; lra. }
  split.
  - destruct background_music as [music|]; [|left; reflexivity].
    unfold _mix_audio_with_music.
    destruct (composite_audio_ok S); [right; eauto | left; reflexivity].
  - intros Hoff. rewrite (background_music_for_disabled _ _ _ _ _ _ _ Hoff Hmusic). reflexivity.
Qed.

Lemma video_matches_narration_witness :
  exists v w',
    create_video (example_generator offline_env 1920 1080) offline_env example_studio
      example_script_data "output/audio/story.mp3" "output/videos/story.mp4" empty_world
    = (Ok v, w')
    /\ vf_path v = "output/videos/story.mp4"
    /\ List.length (vf_clips v) = 1%nat
    /\ Qabs (sum_Q (map (fun clip => ic_duration (cc_overlay clip)) (vf_clips v)) - 45)
       <= 1 # 64.
Proof.
  destruct (create_video (example_generator offline_env 1920 1080) offline_env example_studio
              example_script_data "output/audio/story.mp3" "output/videos/story.mp4"
              empty_world) as [[v|e] w'] eqn:Hrun.
  - exists v, w'. split; [reflexivity|].
    assert (Hscript : script_of example_script_data = Ok "It began at midnight. Nobody came.")
      by reflexivity.
    destruct (video_matches_narration _ _ _ _ _ _ _ _ _ _ Hscript Hrun)
      as (duration & ds & Hd & Hp & _ & _ & Hlen & _ & Hsum & _).
    injection Hd as <-.
    split; [exact Hp|]. split; [exact Hlen|].
    apply Hsum; vm_compute; discriminate.
  - vm_compute in Hrun. discriminate.
Defined.

Local Close Scope Q_scope.

(** X25. The video is made whatever the image and music services answer:
    with a generator built from a configuration, an output directory that can
    be created, a narration that loads, a script dictionary with a string
    script, a topic and a title, a string niche, images that open, a clip
    that accepts the audio and an encoder that works, [create_video] returns
    a video with one clip per segment. *)
Theorem video_is_made_without_network (E : env) (cfg : pyvalue) (self : VideoGenerator)
    (S : studio) (script_data topic title : pyvalue)
    (script mood audio_path output_path : string) (duration : Q) (w : world) :
  __init__ E cfg = Ok self ->
  nonempty (dirname output_path) = true ->
  makedirs_ok S (dirname output_path) = true ->
  audio_file_duration E audio_path = Some duration ->
  script_of script_data = Ok script ->
  getitem script_data "topic" = Ok topic ->
  getitem script_data "title" = Ok title ->
  niche_of self = Ok (PyStr mood) ->
  (forall image_path, image_opens E image_path = true) ->
  has_with_audio S || has_set_audio S = true ->
  write_videofile_ok S output_path = true ->
  exists v w',
    create_video self E S script_data audio_path output_path w = (Ok v, w')
    /\ vf_path v = output_path
    /\ List.length (vf_clips v) = List.length (_parse_script_segments script).
Proof.
  intros Hinit Hdir Hmk Haudio Hscript Htopic Htitle Hniche Hopen Hattach Hwrite.
  pose proof (init_queries _ _ _ Hinit) as Hq.
  unfold create_video.
  rewrite Hdir, Hmk, Haudio, Hscript, Htopic, Htitle, Hniche, Hattach, Hwrite.
  cbn [andb negb lift]. unfold bind at 1, ret at 1. unfold bind at 1, ret at 1.
  destruct (download_pexels_images_total self E (format_value S topic)
              (List.length (_parse_script_segments script)) w) as (image_paths & w1 & Himg).
  unfold bind at 1. rewrite Himg.
  unfold bind at 1, ret at 1.
  destruct (get_background_music_returns self E duration mood w1 Hq) as (music & w2 & Hmusic & _).
  unfold bind at 1. cbn [background_music_for]. rewrite Hmusic.
  unfold bind at 1, ret at 1. unfold bind at 1.
  destruct (segment_durations_nonempty (_parse_script_segments script) duration
              (parse_nonempty script)) as (ds & Hds & Hdlen).
  destruct (clip_loop_runs self E ds image_paths
              (format_value S title) (_parse_script_segments script) 0 w2)
    as (clips & w3 & Hclips).
  { simpl. lia. }
  { intros k p _ _. apply Hopen. }
  unfold _create_clips_with_typewriter.
  rewrite Hds.
  rewrite Hclips.
  pose proof (clip_loop_layers _ _ _ _ _ _ _ _ _ _ Hclips) as (_ & Hlen & _).
  destruct clips as [|clip clips].
  - exfalso. pose proof (parse_nonempty script) as Hne.
    destruct (_parse_script_segments script); [congruence | discriminate].
  - eexists _, _. split; [reflexivity|]. cbn [vf_path vf_clips].
    split; [reflexivity | exact Hlen].
Qed.

Lemma video_is_made_without_network_witness :
  exists v w',
    create_video (example_generator offline_env 1920 1080) offline_env example_studio
      example_script_data "output/audio/story.mp3" "output/videos/story.mp4" empty_world
    = (Ok v, w')
    /\ vf_path v = "output/videos/story.mp4"
    /\ List.length (vf_clips v)
       = List.length (_parse_script_segments "It began at midnight. Nobody came.").
Proof.
  apply (video_is_made_without_network offline_env (example_config 1920 1080 [])
           (example_generator offline_env 1920 1080) example_studio example_script_data
           (PyStr "abandoned house") (PyStr "The House")
           "It began at midnight. Nobody came." "horror"
           "output/audio/story.mp3" "output/videos/story.mp4" 45 empty_world);
    reflexivity.
Defined.

Lemma drop_to_slash_rev_onto (s acc : string) :
  all_chars not_slash s = true -> drop_to_slash (rev_onto s acc) = drop_to_slash acc.
Proof.
  revert acc. induction s as [|c s IH]; intros acc Hs; cbn [rev_onto all_chars] in *;
    [reflexivity|].
  apply andb_true_iff in Hs. destruct Hs as [Hc Hs].
  rewrite (IH _ Hs). cbn [drop_to_slash].
  unfold not_slash in Hc. destruct (Ascii.eqb c "/"); [discriminate | reflexivity].
Qed.

Lemma dirname_without_slash (p : string) : all_chars not_slash p = true -> dirname p = "".
Proof.
  intros Hp. unfold dirname, flush. rewrite (drop_to_slash_rev_onto _ _ Hp). reflexivity.
Qed.

(** X26. An output path without a directory part (no slash) makes
    [create_video] raise OSError at once: [os.makedirs] is called on the empty
    string, before any file is read or any request sent. *)
Theorem output_path_needs_directory (self : VideoGenerator) (E : env) (S : studio)
    (script_data : pyvalue) (audio_path output_path : string) (w : world) :
  all_chars not_slash output_path = true ->
  create_video self E S script_data audio_path output_path w = (Raise OSError, w).
Proof.
  intros Hp. unfold create_video. rewrite (dirname_without_slash _ Hp). reflexivity.
Qed.

Lemma output_path_needs_directory_witness :
  create_video (example_generator offline_env 1920 1080) offline_env example_studio
    example_script_data "output/audio/story.mp3" "story.mp4" empty_world
  = (Raise OSError, empty_world).
Proof.
  apply (output_path_needs_directory (example_generator offline_env 1920 1080) offline_env
           example_studio example_script_data "output/audio/story.mp3" "story.mp4" empty_world).
  reflexivity.
Defined.

(** ** Shorts mode *)

Lemma dict_lookup_set_same (key : string) (v : pyvalue) (items : list (string * pyvalue)) :
  dict_lookup key (dict_set key v items) = Some v.
Proof.
  induction items as [|[k x] rest IH]; cbn [dict_set dict_lookup].
  - rewrite String.eqb_refl. reflexivity.
  - destruct (String.eqb k key) eqn:Hk; cbn [dict_lookup]; rewrite Hk; [reflexivity | exact IH].
Qed.

Lemma dict_lookup_set_other (key key' : string) (v : pyvalue)
    (items : list (string * pyvalue)) :
  key' <> key -> dict_lookup key' (dict_set key v items) = dict_lookup key' items.
Proof.
  intros Hne. induction items as [|[k x] rest IH]; cbn [dict_set dict_lookup].
  - destruct (String.eqb_spec key key'); [congruence | reflexivity].
  - destruct (String.eqb_spec k key) as [->|Hk]; cbn [dict_lookup].
    + destruct (String.eqb_spec key key'); [congruence | reflexivity].
    + rewrite IH. reflexivity.
Qed.

Lemma getitem_setitem_same (d d' : pyvalue) (key : string) (v : pyvalue) :
  setitem d key v = Ok d' -> getitem d' key = Ok v.
Proof.
  destruct d; try discriminate. cbn [setitem]. intros H. injection H as <-.
  cbn [getitem]. rewrite dict_lookup_set_same. reflexivity.
Qed.

Lemma getitem_setitem_other (d d' : pyvalue) (key key' : string) (v : pyvalue) :
  setitem d key v = Ok d' -> key' <> key ->
  getitem d' key' = getitem d key' /\ forall default, dict_get d' key' default = dict_get d key' default.
Proof.
  destruct d; try discriminate. cbn [setitem]. intros H Hne. injection H as <-.
  cbn [getitem dict_get]. rewrite dict_lookup_set_other by exact Hne. split; reflexivity.
Qed.

Lemma min_with_60_spec (d0 d : pyvalue) :
  min_with_60 d0 = Ok d -> at_most_60 d /\ (at_most_60 d0 -> d = d0).
Proof.
  destruct d0; try discriminate; cbn [min_with_60]; intros H; injection H as <-.
  - split; [exact I | reflexivity].
  - destruct (Z.ltb_spec 60 z); cbn [at_most_60]; split; try lia; reflexivity.
  - destruct (Qgtb q 60) eqn:Hq; cbn [at_most_60].
    + split; [lia|]. intros Hle. rewrite (Qgtb_false _ _ Hle) in Hq. discriminate.
    + split; [|reflexivity].
      destruct (Qlt_le_dec 60 q) as [Hlt|Hle]; [|exact Hle].
      rewrite (Qgtb_true _ _ Hlt) in Hq. discriminate.
Qed.

(** X27. In Shorts mode the pipeline sets the resolution to 1080 x 1920
    and the duration to min(duration, 60) with 60 as default: the new duration
    is at most 60 and is the old one when that was at most 60; every other
    setting of the video section and every other section is untouched. *)
Theorem shorts_configuration (cfg cfg' : pyvalue) :
  pipeline_config cfg true = Ok cfg' ->
  exists video video' d0 d,
    getitem cfg "video" = Ok video
    /\ getitem cfg' "video" = Ok video'
    /\ getitem video' "resolution" = Ok (PyList [PyInt 1080; PyInt 1920])
    /\ dict_get video "duration" (PyInt 60) = Ok d0
    /\ getitem video' "duration" = Ok d
    /\ at_most_60 d
    /\ (at_most_60 d0 -> d = d0)
    /\ (forall key, key <> "resolution" -> key <> "duration" ->
        getitem video' key = getitem video key)
    /\ (forall key, key <> "video" -> getitem cfg' key = getitem cfg key).
Proof.
  cbn [pipeline_config]. unfold configure_for_shorts, result_bind. intros H.
  destruct (getitem cfg "video") as [video|]; [|discriminate].
  destruct (setitem video "resolution" _) as [video1|] eqn:H1; [|discriminate].
  destruct (dict_get video1 "duration" (PyInt 60)) as [d0|] eqn:Hd0; [|discriminate].
  destruct (min_with_60 d0) as [d|] eqn:Hd; [|discriminate].
  destruct (setitem video1 "duration" d) as [video2|] eqn:H2; [|discriminate].
  exists video, video2, d0, d.
  destruct (min_with_60_spec _ _ Hd) as [Hle Hsame].
  split; [reflexivity|].
  split; [exact (getitem_setitem_same _ _ _ _ H)|].
  split.
  { destruct (getitem_setitem_other _ _ _ "resolution" _ H2 ltac:(discriminate)) as [-> _].
    exact (getitem_setitem_same _ _ _ _ H1). }
  split.
  { destruct (getitem_setitem_other _ _ _ "duration" _ H1 ltac:(discriminate)) as [_ Hg].
    rewrite <- Hg. exact Hd0. }
  split; [exact (getitem_setitem_same _ _ _ _ H2)|].
  split; [exact Hle|]. split; [exact Hsame|].
  split.
  - intros key Hk1 Hk2.
    destruct (getitem_setitem_other _ _ _ key _ H2 Hk2) as [-> _].
    destruct (getitem_setitem_other _ _ _ key _ H1 Hk1) as [-> _]. reflexivity.
  - intros key Hk. destruct (getitem_setitem_other _ _ _ key _ H Hk) as [-> _]. reflexivity.
Qed.

Lemma shorts_configuration_witness :
  exists cfg' video video' d0 d,
    pipeline_config long_landscape_config true = Ok cfg'
    /\ getitem long_landscape_config "video" = Ok video
    /\ getitem cfg' "video" = Ok video'
    /\ getitem video' "resolution" = Ok (PyList [PyInt 1080; PyInt 1920])
    /\ dict_get video "duration" (PyInt 60) = Ok d0
    /\ getitem video' "duration" = Ok d
    /\ at_most_60 d
    /\ (at_most_60 d0 -> d = d0)
    /\ (forall key, key <> "resolution" -> key <> "duration" ->
        getitem video' key = getitem video key)
    /\ (forall key, key <> "video" -> getitem cfg' key = getitem long_landscape_config key).
Proof.
  destruct (pipeline_config long_landscape_config true) as [cfg'|e] eqn:Hcfg.
  - destruct (shorts_configuration long_landscape_config cfg' Hcfg)
      as (video & video' & d0 & d & H).
    exists cfg', video, video', d0, d. split; [reflexivity | exact H].
  - vm_compute in Hcfg. discriminate.
Defined.

(** X28. A generator built from the Shorts configuration keeps that
    configuration and differs otherwise from the one built from the original
    configuration in its frame only, which is 1080 x 1920: fps, music
    settings, credentials, overlay opacity, music directory and search
    queries are the same. *)
Theorem shorts_generator (E : env) (cfg cfg' : pyvalue) (self : VideoGenerator) :
  pipeline_config cfg true = Ok cfg' ->
  __init__ E cfg = Ok self ->
  exists self',
    __init__ E cfg' = Ok self'
    /\ resolution self' = (1080, 1920)%Z
    /\ config self' = cfg'
    /\ fps self' = fps self
    /\ use_background_music self' = use_background_music self
    /\ music_volume self' = music_volume self
    /\ pexels_api_key self' = pexels_api_key self
    /\ pixabay_api_key self' = pixabay_api_key self
    /\ text_overlay_opacity self' = text_overlay_opacity self
    /\ music_dir self' = music_dir self
    /\ music_search_queries self' = music_search_queries self.
Proof.
  cbn [pipeline_config]. unfold configure_for_shorts. intros Hcfg Hinit.
  unfold result_bind in Hcfg.
  destruct (getitem cfg "video") as [video|] eqn:Hv; [|discriminate].
  destruct (setitem video "resolution" _) as [video1|] eqn:H1; [|discriminate].
  destruct (dict_get video1 "duration" (PyInt 60)) as [d0|]; [|discriminate].
  destruct (min_with_60 d0) as [d|]; [|discriminate].
  destruct (setitem video1 "duration" d) as [video2|] eqn:H2; [|discriminate].
  assert (Hres : getitem video2 "resolution" = Ok (PyList [PyInt 1080; PyInt 1920])).
  { destruct (getitem_setitem_other _ _ _ "resolution" _ H2 ltac:(discriminate)) as [-> _].
    exact (getitem_setitem_same _ _ _ _ H1). }
  assert (Hfps : getitem video2 "fps" = getitem video "fps").
  { destruct (getitem_setitem_other _ _ _ "fps" _ H2 ltac:(discriminate)) as [-> _].
    destruct (getitem_setitem_other _ _ _ "fps" _ H1 ltac:(discriminate)) as [-> _].
    reflexivity. }
  destruct (getitem_setitem_other _ _ _ "assets" _ Hcfg ltac:(discriminate)) as [_ Hassets].
  pose proof (getitem_setitem_same _ _ _ _ Hcfg) as Hv'.
  unfold __init__ in *. rewrite Hv'. rewrite Hv in Hinit. cbn [result_bind] in *.
  rewrite Hres, Hfps. cbn [result_bind].
  destruct (getitem video "resolution") as [res|]; [|discriminate]. cbn [result_bind] in Hinit.
  destruct (getitem video "fps") as [f|]; [|discriminate]. cbn [result_bind] in *.
  rewrite Hassets.
  destruct (dict_get cfg "assets" (PyDict [])) as [assets|]; [|discriminate].
  cbn [result_bind] in *.
  destruct (dict_get assets "background_music" (PyBool true)) as [use_music|]; [|discriminate].
  cbn [result_bind] in *.
  destruct (dict_get assets "music_volume" _) as [volume|]; [|discriminate].
  cbn [result_bind] in *.
  destruct res as [| | | | |l|]; try discriminate.
  destruct l as [|[| |width| | | |] [|[| |height| | | |] [|]]]; try discriminate.
  injection Hinit as <-.
  eexists. split; [reflexivity|]. cbn. repeat split; reflexivity.
Qed.

Lemma shorts_generator_witness :
  exists cfg' self',
    pipeline_config long_landscape_config true = Ok cfg'
    /\ __init__ offline_env cfg' = Ok self'
    /\ resolution self' = (1080, 1920)%Z
    /\ fps self' = PyInt 30.
Proof.
  destruct (pipeline_config long_landscape_config true) as [cfg'|e] eqn:Hcfg.
  - destruct (__init__ offline_env long_landscape_config) as [self|e] eqn:Hinit.
    + destruct (shorts_generator offline_env long_landscape_config cfg' self Hcfg Hinit)
        as (self' & H1 & H2 & _ & H3 & _).
      exists cfg', self'. split; [reflexivity|]. split; [exact H1|]. split; [exact H2|].
      rewrite H3. vm_compute in Hinit. injection Hinit as <-. reflexivity.
    + vm_compute in Hinit. discriminate.
  - vm_compute in Hcfg. discriminate.
Defined.
